(** * imap: a map for uint64_t integer keys (src/imap/imap.c)

    A shallow embedding of SiriDB's [imap] and the properties its
    specification states about it.  The map is a trie over the base-32
    digits of the key, least significant digit first: the handle [imap_t]
    owns 32 top-level nodes, and every node owns an optional value pointer,
    an optional array of 32 child nodes and the number of values stored
    below it. *)

From Stdlib Require Import ZArith Lia List Bool.
From stdpp Require Import base list gmap.
Import ListNotations.

Local Open Scope Z_scope.

(** ** Machine data *)

(** [void *]: an address; [NULL] is 0. *)
Definition ptr := Z.
Definition NULL : ptr := 0.

(** [size_t] on the 64-bit targets of the server: arithmetic wraps at 2^64. *)
Definition SIZE_MOD : Z := 2 ^ 64.
Definition wrap64 (z : Z) : Z := z mod SIZE_MOD.

(** [uint64_t] keys. *)
Definition is_uint64 (id : Z) : Prop := 0 <= id < 2 ^ 64.

Definition IMAP_NODE_SZ : Z := 32.

(** [imap_node_t { size_t size; void * data; imap_node_t * nodes; }];
    [nd_nodes = None] is the NULL array pointer, [Some arr] an array
    obtained from [calloc]. *)
Local Unset Elimination Schemes.
Inductive imap_node : Type :=
  mk_node (nd_data : ptr) (nd_nodes : option (list imap_node)) (nd_size : Z).
Local Set Elimination Schemes.

Definition nd_data (n : imap_node) : ptr :=
  match n with mk_node d _ _ => d end.
Definition nd_nodes (n : imap_node) : option (list imap_node) :=
  match n with mk_node _ ns _ => ns end.
Definition nd_size (n : imap_node) : Z :=
  match n with mk_node _ _ s => s end.

Definition set_data (n : imap_node) (d : ptr) : imap_node :=
  mk_node d (nd_nodes n) (nd_size n).
Definition set_nodes (n : imap_node) (ns : option (list imap_node)) : imap_node :=
  mk_node (nd_data n) ns (nd_size n).
Definition set_size (n : imap_node) (s : Z) : imap_node :=
  mk_node (nd_data n) (nd_nodes n) s.

(** A node as [calloc] leaves it: all fields zero. *)
Definition node_zero : imap_node := mk_node NULL None 0.

(** [imap_t { size_t len; imap_node_t nodes[]; }] *)
Record imap_t : Type := mk_imap { imap_len : Z; imap_nodes : list imap_node }.

(** [arr + i] for an array [arr] of nodes.  An index outside the array is
    not reached by the code (every index is a remainder modulo 32 and every
    array has 32 nodes); the model reads a zero node there. *)
Definition slot (arr : list imap_node) (i : Z) : imap_node :=
  default node_zero (arr !! Z.to_nat i).

Definition set_slot (arr : list imap_node) (i : Z) (nd : imap_node) : list imap_node :=
  <[Z.to_nat i := nd]> arr.

(** [node->nodes + i]; the code dereferences [node->nodes] only where it is
    not NULL, the model reads a zero node through a NULL array and drops a
    write through it. *)
Definition children (node : imap_node) : list imap_node :=
  match nd_nodes node with Some arr => arr | None => [] end.

Definition child (node : imap_node) (i : Z) : imap_node := slot (children node) i.

Definition set_child (node : imap_node) (i : Z) (nd : imap_node) : imap_node :=
  set_nodes node (option_map (fun arr => set_slot arr i nd) (nd_nodes node)).

(** ** The allocator *)

(** The outcome of the successive allocation requests: [true] for a block,
    [false] for NULL.  Past the end of the list every request succeeds. *)
Definition heap := list bool.

Definition alloc (h : heap) : bool * heap :=
  match h with
  | [] => (true, [])
  | b :: h' => (b, h')
  end.

(** [calloc(IMAP_NODE_SZ, sizeof(imap_node_t))] *)
Definition calloc_nodes (h : heap) : option (list imap_node) * heap :=
  let '(ok, h') := alloc h in
  (if ok then Some (replicate (Z.to_nat IMAP_NODE_SZ) node_zero) else None, h').

(** [imap_new]: NULL when the allocation fails. *)
Definition imap_new (h : heap) : option imap_t * heap :=
  let '(ok, h') := alloc h in
  (if ok then Some (mk_imap 0 (replicate (Z.to_nat IMAP_NODE_SZ) node_zero)) else None, h').

(** The map [imap_new] returns when its allocation succeeds. *)
Definition imap_empty : imap_t := mk_imap 0 (replicate (Z.to_nat IMAP_NODE_SZ) node_zero).

(** ** Insert, lookup, delete *)

(** The recursion of [IMAP_add], [IMAP_get] and [IMAP_pop] is on the key:
    each call continues with [id / 32 - 1].  The embedding recurses on a
    depth budget instead; [IMAP_DEPTH] levels are enough for every 64-bit
    key (proved below), so the branch for an exhausted budget
    is never taken by the entry points. *)
Definition IMAP_DEPTH : nat := 13.

(** Result codes of [imap_add]. *)
Definition RC_OVERWRITTEN : Z := 0.
Definition RC_INSERTED : Z := 1.
Definition RC_ERR_ALLOC : Z := -1.

Fixpoint IMAP_add (fuel : nat) (node : imap_node) (id : Z) (data : ptr) (h : heap)
  : Z * imap_node * heap :=
  match fuel with
  | O => (RC_ERR_ALLOC, node, h)
  | S fuel' =>
    let '(node1, h1) :=
      if nd_size node =? 0
      then let '(arr, h') := calloc_nodes h in (set_nodes node arr, h')
      else (node, h) in
    if (nd_size node =? 0) && negb (bool_decide (is_Some (nd_nodes node1)))
    then (RC_ERR_ALLOC, node1, h1)
    else
      let i := id mod IMAP_NODE_SZ in
      let nd := child node1 i in
      let id1 := id / IMAP_NODE_SZ in
      if id1 =? 0
      then
        let rc := if nd_data nd =? NULL then 1 else 0 in
        let node2 := set_child node1 i (set_data nd data) in
        (rc, set_size node2 (wrap64 (nd_size node2 + rc)), h1)
      else
        let '(rc, nd', h2) := IMAP_add fuel' nd (id1 - 1) data h1 in
        let node2 := set_child node1 i nd' in
        (rc, if rc >? 0 then set_size node2 (wrap64 (nd_size node2 + 1)) else node2, h2)
  end.

Definition imap_add (imap : imap_t) (id : Z) (data : ptr) (h : heap)
  : Z * imap_t * heap :=
  let i := id mod IMAP_NODE_SZ in
  let nd := slot (imap_nodes imap) i in
  let id1 := id / IMAP_NODE_SZ in
  if id1 =? 0
  then
    let len1 := if nd_data nd =? NULL then wrap64 (imap_len imap + 1) else imap_len imap in
    (0, mk_imap len1 (set_slot (imap_nodes imap) i (set_data nd data)), h)
  else
    let '(rc, nd', h') := IMAP_add IMAP_DEPTH nd (id1 - 1) data h in
    let nodes' := set_slot (imap_nodes imap) i nd' in
    (rc, mk_imap (if rc >? 0 then wrap64 (imap_len imap + 1) else imap_len imap) nodes', h').

Fixpoint IMAP_get (fuel : nat) (node : imap_node) (id : Z) : ptr :=
  match fuel with
  | O => NULL
  | S fuel' =>
    let nd := child node (id mod IMAP_NODE_SZ) in
    let id1 := id / IMAP_NODE_SZ in
    if id1 =? 0 then nd_data nd
    else match nd_nodes nd with
         | None => NULL
         | Some _ => IMAP_get fuel' nd (id1 - 1)
         end
  end.

Definition imap_get (imap : imap_t) (id : Z) : ptr :=
  let nd := slot (imap_nodes imap) (id mod IMAP_NODE_SZ) in
  let id1 := id / IMAP_NODE_SZ in
  if id1 =? 0 then nd_data nd
  else match nd_nodes nd with
       | None => NULL
       | Some _ => IMAP_get IMAP_DEPTH nd (id1 - 1)
       end.

(** [free(node->nodes); node->nodes = NULL;] *)
Definition free_nodes (node : imap_node) : imap_node := set_nodes node None.

Fixpoint IMAP_pop (fuel : nat) (node : imap_node) (id : Z) : ptr * imap_node :=
  match fuel with
  | O => (NULL, node)
  | S fuel' =>
    let i := id mod IMAP_NODE_SZ in
    let nd := child node i in
    let id1 := id / IMAP_NODE_SZ in
    if id1 =? 0
    then
      let data := nd_data nd in
      if data =? NULL then (data, node)
      else
        let node1 := set_size node (wrap64 (nd_size node - 1)) in
        if nd_size node1 =? 0
        then (data, free_nodes node1)
        else (data, set_child node1 i (set_data nd NULL))
    else
      match nd_nodes nd with
      | None => (NULL, node)
      | Some _ =>
        let '(data, nd') := IMAP_pop fuel' nd (id1 - 1) in
        let node1 := set_child node i nd' in
        if data =? NULL then (data, node1)
        else
          let node2 := set_size node1 (wrap64 (nd_size node1 - 1)) in
          if nd_size node2 =? 0 then (data, free_nodes node2) else (data, node2)
      end
  end.

Definition imap_pop (imap : imap_t) (id : Z) : ptr * imap_t :=
  let i := id mod IMAP_NODE_SZ in
  let nd := slot (imap_nodes imap) i in
  let id1 := id / IMAP_NODE_SZ in
  if id1 =? 0
  then
    let data := nd_data nd in
    if data =? NULL then (data, imap)
    else (data, mk_imap (wrap64 (imap_len imap - 1))
                        (set_slot (imap_nodes imap) i (set_data nd NULL)))
  else
    let '(data, nd') :=
      match nd_nodes nd with
      | None => (NULL, nd)
      | Some _ => IMAP_pop IMAP_DEPTH nd (id1 - 1)
      end in
    (data, mk_imap (wrap64 (imap_len imap - (if data =? NULL then 0 else 1)))
                   (set_slot (imap_nodes imap) i nd')).

(** ** Traversals *)

(** [int]: the sum [imap_walk] returns.  Signed overflow is undefined in C;
    the model reduces the sum to the 32-bit two's complement range. *)
Definition wrap_int (z : Z) : Z := (z + 2 ^ 31) mod 2 ^ 32 - 2 ^ 31.

Section Callback.
(** [imap_cb]: a call of [cb] on [(value, data)] returns an [int] and may
    change what [data] points to, here a context of type [A]. *)
Context {A : Type}.
Variable cb : ptr -> A -> Z * A.

(** The loop [for (i = 0; i < IMAP_NODE_SZ; i++)] of [imap_walk] and
    [IMAP_walk] over an array of nodes; the state is [rc] and the
    context. *)
Definition walk_loop (rec : imap_node -> Z * A -> Z * A)
  (arr : list imap_node) (st : Z * A) : Z * A :=
  fold_left
    (fun st nd =>
       let st1 :=
         if nd_data nd =? NULL then st
         else let '(r, a) := cb (nd_data nd) (snd st) in (wrap_int (fst st + r), a) in
       match nd_nodes nd with
       | None => st1
       | Some _ => rec nd st1
       end)
    arr st.

Fixpoint IMAP_walk (node : imap_node) (st : Z * A) : Z * A :=
  match node with
  | mk_node _ (Some arr) _ => walk_loop IMAP_walk arr st
  | mk_node _ None _ => st
  end.

Definition imap_walk (imap : imap_t) (a : A) : Z * A :=
  if imap_len imap =? 0 then (0, a)
  else walk_loop IMAP_walk (imap_nodes imap) (0, a).

(** The loop [for (i = 0; *n && i < IMAP_NODE_SZ; i++)] of [imap_walkn]
    and [IMAP_walkn]; the state is [*n] and the context.  Once [*n] is
    zero the loop test fails in this call and in every caller, so the
    remaining iterations leave the state as it is. *)
Definition walkn_loop (rec : imap_node -> Z * A -> Z * A)
  (arr : list imap_node) (st : Z * A) : Z * A :=
  fold_left
    (fun st nd =>
       if fst st =? 0 then st
       else
         let st1 :=
           if nd_data nd =? NULL then st
           else let '(r, a) := cb (nd_data nd) (snd st) in (wrap64 (fst st - r), a) in
         if negb (nd_data nd =? NULL) && (fst st1 =? 0) then st1
         else match nd_nodes nd with
              | None => st1
              | Some _ => rec nd st1
              end)
    arr st.

Fixpoint IMAP_walkn (node : imap_node) (st : Z * A) : Z * A :=
  match node with
  | mk_node _ (Some arr) _ => walkn_loop IMAP_walkn arr st
  | mk_node _ None _ => st
  end.

Definition imap_walkn (imap : imap_t) (n : Z) (a : A) : Z * A :=
  if imap_len imap =? 0 then (n, a)
  else walkn_loop IMAP_walkn (imap_nodes imap) (n, a).
End Callback.

(** Modelled from the spec: the sequence collaborator [slist_t]
    (slist/slist.h is not among the sources), "a generic growable ordered
    container supporting pre-sized creation and append": creation with a
    capacity, which may fail, and appending one element at the end. *)
Record slist_t : Type := mk_slist { slist_size : Z; slist_data : list ptr }.

Definition slist_len (sl : slist_t) : Z := Z.of_nat (length (slist_data sl)).

Definition slist_new (size : Z) (h : heap) : option slist_t * heap :=
  let '(ok, h') := alloc h in
  (if ok then Some (mk_slist size []) else None, h').

Definition slist_append (sl : slist_t) (d : ptr) : slist_t :=
  mk_slist (slist_size sl) (slist_data sl ++ [d]).

(** The loop of [imap_2slist] and [IMAP_2slist]. *)
Definition slist_loop (rec : imap_node -> slist_t -> slist_t)
  (arr : list imap_node) (sl : slist_t) : slist_t :=
  fold_left
    (fun sl nd =>
       let sl1 := if nd_data nd =? NULL then sl else slist_append sl (nd_data nd) in
       match nd_nodes nd with
       | None => sl1
       | Some _ => rec nd sl1
       end)
    arr sl.

Fixpoint IMAP_2slist (node : imap_node) (sl : slist_t) : slist_t :=
  match node with
  | mk_node _ (Some arr) _ => slist_loop IMAP_2slist arr sl
  | mk_node _ None _ => sl
  end.

(** [imap_2slist]: NULL when the list cannot be allocated. *)
Definition imap_2slist (imap : imap_t) (h : heap) : option slist_t * heap :=
  match slist_new (imap_len imap) h with
  | (None, h') => (None, h')
  | (Some sl, h') =>
    (Some (if imap_len imap =? 0 then sl
           else slist_loop IMAP_2slist (imap_nodes imap) sl), h')
  end.

(** ** Union by reference *)

(** Modelled from the spec: [slist_object_decref] (slist/slist.h is not
    among the sources) is "a generic decrement hook" whose effect belongs to
    the value; the model records each invocation, in order, in a log of the
    values it was invoked on. *)
Definition slist_object_decref (d : ptr) (log : list ptr) : list ptr := log ++ [d].

(** The loop of [imap_union_ref] and [IMAP_union_ref] over the arrays of
    the destination and of the source; [cnt] is [dest->len] at the top
    level and [dest->size] below. *)
Definition union_loop (rec : imap_node -> imap_node -> list ptr -> imap_node * list ptr)
  : list imap_node -> list imap_node -> Z -> list ptr -> list imap_node * Z * list ptr :=
  fix go (darr sarr : list imap_node) (cnt : Z) (log : list ptr) {struct sarr} :=
    match sarr, darr with
    | imap_nd :: sarr', dest_nd :: darr' =>
      let '(d1, cnt1, log1) :=
        if nd_data imap_nd =? NULL then (dest_nd, cnt, log)
        else if nd_data dest_nd =? NULL
             then (set_data dest_nd (nd_data imap_nd), wrap64 (cnt + 1), log)
             else (dest_nd, cnt, slist_object_decref (nd_data imap_nd) log) in
      let '(d2, cnt2, log2) :=
        match nd_nodes imap_nd with
        | None => (d1, cnt1, log1)
        | Some snodes =>
          match nd_nodes d1 with
          | Some _ =>
            let tmp := nd_size d1 in
            let '(d', log') := rec d1 imap_nd log1 in
            (d', wrap64 (cnt1 + wrap64 (nd_size d' - tmp)), log')
          | None =>
            let d' := set_size (set_nodes d1 (Some snodes)) (nd_size imap_nd) in
            (d', wrap64 (cnt1 + nd_size d'), log1)
          end
        end in
      let '(rest, cnt3, log3) := go darr' sarr' cnt2 log2 in
      (d2 :: rest, cnt3, log3)
    | _, _ => (darr, cnt, log)
    end.

Fixpoint IMAP_union_ref (dest node : imap_node) (log : list ptr) {struct node}
  : imap_node * list ptr :=
  match node, nd_nodes dest with
  | mk_node _ (Some sarr) _, Some darr =>
    let '(darr', sz, log') := union_loop IMAP_union_ref darr sarr (nd_size dest) log in
    (mk_node (nd_data dest) (Some darr') sz, log')
  | _, _ => (dest, log)
  end.

(** [imap_union_ref(dest, &imap)]: the second component is the caller's
    handle [imap] after the call, which the code sets to NULL once the
    source is freed. *)
Definition imap_union_ref (dest imap : imap_t) (log : list ptr)
  : imap_t * option imap_t * list ptr :=
  let '(nodes', len', log') :=
    if imap_len imap =? 0 then (imap_nodes dest, imap_len dest, log)
    else union_loop IMAP_union_ref (imap_nodes dest) (imap_nodes imap) (imap_len dest) log in
  (mk_imap len' nodes', None, log').

(** ** What a map stores *)

(** The key/value pairs below an array of nodes, in the order of the
    traversals: node [i] holds key [i], and the pair of key [r] below node
    [i] has key [32 * (r + 1) + i]. *)
Definition own_entry (i : Z) (nd : imap_node) : list (Z * ptr) :=
  if nd_data nd =? NULL then [] else [(i, nd_data nd)].

Definition below_key (i : Z) (e : Z * ptr) : Z * ptr :=
  (IMAP_NODE_SZ * (fst e + 1) + i, snd e).

Definition entries_loop (rec : imap_node -> list (Z * ptr))
  : Z -> list imap_node -> list (Z * ptr) :=
  fix go (i : Z) (arr : list imap_node) :=
    match arr with
    | [] => []
    | nd :: arr' => own_entry i nd ++ map (below_key i) (rec nd) ++ go (i + 1) arr'
    end.

Fixpoint node_entries (node : imap_node) : list (Z * ptr) :=
  match node with
  | mk_node _ (Some arr) _ => entries_loop node_entries 0 arr
  | mk_node _ None _ => []
  end.

Definition imap_entries (imap : imap_t) : list (Z * ptr) :=
  entries_loop node_entries 0 (imap_nodes imap).

(** The values of a map in traversal order, and their number. *)
Definition imap_values (imap : imap_t) : list ptr := map snd (imap_entries imap).

Definition node_count (node : imap_node) : Z := Z.of_nat (length (node_entries node)).

Definition imap_count (imap : imap_t) : Z := Z.of_nat (length (imap_entries imap)).

(** ** Well-formed maps *)

(** Every array has 32 nodes and every [size] is the number of values
    below the node, as a [size_t]. *)
Fixpoint node_okb (node : imap_node) : bool :=
  match node with
  | mk_node _ None sz => sz =? 0
  | mk_node _ (Some arr) sz =>
    (Z.of_nat (length arr) =? IMAP_NODE_SZ)
    && forallb node_okb arr
    && (sz =? Z.of_nat (length (entries_loop node_entries 0 arr)))
    && (sz <? SIZE_MOD)
  end.

Definition imap_okb (imap : imap_t) : bool :=
  (Z.of_nat (length (imap_nodes imap)) =? IMAP_NODE_SZ)
  && forallb node_okb (imap_nodes imap)
  && (imap_len imap =? imap_count imap)
  && (imap_len imap <? SIZE_MOD).

(** A children array is present only where something is stored below. *)
Fixpoint node_tightb (node : imap_node) : bool :=
  match node with
  | mk_node _ None sz => sz =? 0
  | mk_node _ (Some arr) sz => negb (sz =? 0) && forallb node_tightb arr
  end.

Definition imap_tightb (imap : imap_t) : bool := forallb node_tightb (imap_nodes imap).

(** * Properties *)

(** ** Induction over nodes *)

Lemma imap_node_ind (P : imap_node -> Prop) :
  (forall d sz, P (mk_node d None sz)) ->
  (forall d arr sz, Forall P arr -> P (mk_node d (Some arr) sz)) ->
  forall node, P node.
Proof.
  intros Hleaf Harr.
  fix IH 1. intros [d [arr|] sz].
  - apply Harr. induction arr as [|c arr IHarr]; constructor; [apply IH | exact IHarr].
  - apply Hleaf.
Qed.

(** ** Keys and digits *)

(** Keys that a recursion of depth [fuel] consumes completely. *)
Definition key_below (fuel : nat) (id : Z) : Prop :=
  0 <= id /\ id + 1 < IMAP_NODE_SZ ^ Z.of_nat fuel.

Lemma key_below_digit fuel id :
  key_below fuel id -> 0 <= id mod IMAP_NODE_SZ < IMAP_NODE_SZ.
Proof. intros _. apply Z.mod_pos_bound. reflexivity. Qed.

Lemma key_below_next fuel id :
  key_below (S fuel) id -> id / IMAP_NODE_SZ <> 0 ->
  key_below fuel (id / IMAP_NODE_SZ - 1).
Proof.
  unfold key_below, IMAP_NODE_SZ. intros [H0 Hlt] Hq.
  rewrite Nat2Z.inj_succ, Z.pow_succ_r in Hlt by lia.
  assert (0 <= id / 32) by (apply Z.div_pos; lia).
  split; [lia|].
  assert (id / 32 < 32 ^ Z.of_nat fuel); [|lia].
  apply Z.div_lt_upper_bound; lia.
Qed.

Lemma key_below_uint64 id :
  is_uint64 id -> id / IMAP_NODE_SZ <> 0 ->
  key_below IMAP_DEPTH (id / IMAP_NODE_SZ - 1).
Proof.
  unfold is_uint64, key_below, IMAP_NODE_SZ, IMAP_DEPTH. intros [H0 Hlt] Hq.
  assert (0 <= id / 32) by (apply Z.div_pos; lia).
  split; [lia|].
  assert (id / 32 < 2 ^ 59) by (apply Z.div_lt_upper_bound; lia).
  change (32 ^ Z.of_nat 13) with (2 ^ 65). lia.
Qed.

Lemma key_split (a b : Z) :
  a mod IMAP_NODE_SZ = b mod IMAP_NODE_SZ ->
  a / IMAP_NODE_SZ = b / IMAP_NODE_SZ -> a = b.
Proof.
  unfold IMAP_NODE_SZ. intros Hm Hd.
  rewrite (Z.div_mod a 32), (Z.div_mod b 32) by lia. congruence.
Qed.

Lemma key_join (r i : Z) :
  0 <= i < IMAP_NODE_SZ ->
  (IMAP_NODE_SZ * (r + 1) + i) mod IMAP_NODE_SZ = i
  /\ (IMAP_NODE_SZ * (r + 1) + i) / IMAP_NODE_SZ = r + 1.
Proof.
  unfold IMAP_NODE_SZ. intros Hi. split.
  - rewrite Z.add_comm, Z.mul_comm, Z.mod_add by lia. apply Z.mod_small; lia.
  - rewrite Z.add_comm, Z.mul_comm, Z.div_add by lia.
    rewrite Z.div_small by lia. lia.
Qed.

(** ** Arrays of nodes *)

Lemma slot_lookup (arr : list imap_node) (i : Z) (nd : imap_node) :
  arr !! Z.to_nat i = Some nd -> slot arr i = nd.
Proof. unfold slot. intros ->. reflexivity. Qed.

Lemma slot_in_range (arr : list imap_node) (i : Z) :
  Z.of_nat (length arr) = IMAP_NODE_SZ -> 0 <= i < IMAP_NODE_SZ ->
  arr !! Z.to_nat i = Some (slot arr i).
Proof.
  intros Hlen Hi. unfold slot.
  destruct (arr !! Z.to_nat i) eqn:E; [reflexivity|].
  apply lookup_ge_None in E. lia.
Qed.

Lemma slot_set_slot (arr : list imap_node) (i j : Z) (nd : imap_node) :
  Z.of_nat (length arr) = IMAP_NODE_SZ ->
  0 <= i < IMAP_NODE_SZ -> 0 <= j < IMAP_NODE_SZ ->
  slot (set_slot arr i nd) j = if j =? i then nd else slot arr j.
Proof.
  intros Hlen Hi Hj. unfold slot, set_slot.
  destruct (Z.eqb_spec j i) as [->|Hne].
  - rewrite list_lookup_insert_eq by lia. reflexivity.
  - rewrite list_lookup_insert_ne by lia. reflexivity.
Qed.

Lemma set_slot_same (arr : list imap_node) (i : Z) :
  set_slot arr i (slot arr i) = arr.
Proof.
  unfold set_slot, slot.
  destruct (arr !! Z.to_nat i) eqn:E.
  - apply list_insert_id. exact E.
  - apply list_insert_ge. apply lookup_ge_None. exact E.
Qed.

Lemma set_slot_length (arr : list imap_node) (i : Z) (nd : imap_node) :
  length (set_slot arr i nd) = length arr.
Proof. apply length_insert. Qed.

Lemma slot_replicate_zero (n : nat) (i : Z) : slot (replicate n node_zero) i = node_zero.
Proof.
  unfold slot. destruct (replicate n node_zero !! Z.to_nat i) eqn:E; [|reflexivity].
  apply lookup_replicate in E. simpl. tauto.
Qed.

(** ** The stored pairs *)

Lemma node_entries_some d arr sz :
  node_entries (mk_node d (Some arr) sz) = entries_loop node_entries 0 arr.
Proof. reflexivity. Qed.

Lemma entries_loop_cons i nd arr :
  entries_loop node_entries i (nd :: arr)
  = own_entry i nd ++ map (below_key i) (node_entries nd)
    ++ entries_loop node_entries (i + 1) arr.
Proof. reflexivity. Qed.

Lemma own_entry_In i nd k v :
  In (k, v) (own_entry i nd) <-> k = i /\ v = nd_data nd /\ v <> NULL.
Proof.
  unfold own_entry. destruct (Z.eqb_spec (nd_data nd) NULL) as [E|E]; simpl.
  - split; [tauto|]. intros (_ & -> & H). congruence.
  - split.
    + intros [[= <- <-]|[]]. auto.
    + intros (-> & -> & _). auto.
Qed.

Lemma below_key_In i k v l :
  In (k, v) (map (below_key i) l)
  <-> exists r, k = IMAP_NODE_SZ * (r + 1) + i /\ In (r, v) l.
Proof.
  rewrite in_map_iff. split.
  - intros ([r v'] & [= <- <-] & Hin). exists r. auto.
  - intros (r & -> & Hin). exists (r, v). auto.
Qed.

(** A pair is stored below an array exactly when some node of the array
    holds it or holds it below. *)
Lemma entries_loop_In k v arr : forall i0,
  In (k, v) (entries_loop node_entries i0 arr) <->
  exists (j : nat) (nd : imap_node),
    arr !! j = Some nd /\
    (In (k, v) (own_entry (i0 + Z.of_nat j) nd)
     \/ In (k, v) (map (below_key (i0 + Z.of_nat j)) (node_entries nd))).
Proof.
  induction arr as [|c arr IH]; intros i0.
  - simpl. split; [tauto|]. intros (j & nd & H & _). discriminate.
  - rewrite entries_loop_cons, !in_app_iff, IH. split.
    + intros [H|[H|(j & nd & Hj & H)]].
      * exists 0%nat, c. rewrite Z.add_0_r. auto.
      * exists 0%nat, c. rewrite Z.add_0_r. auto.
      * exists (S j), nd. split; [exact Hj|].
        replace (i0 + Z.of_nat (S j)) with (i0 + 1 + Z.of_nat j) by lia. exact H.
    + intros ([|j] & nd & Hj & H).
      * simpl in Hj. injection Hj as <-. rewrite Z.add_0_r in H. tauto.
      * right; right. exists j, nd. split; [exact Hj|].
        replace (i0 + 1 + Z.of_nat j) with (i0 + Z.of_nat (S j)) by lia. exact H.
Qed.

Lemma entries_sound node :
  forall k v, In (k, v) (node_entries node) -> 0 <= k /\ v <> NULL.
Proof.
  induction node as [d sz|d arr sz IH] using imap_node_ind; intros k v; [intros []|].
  rewrite node_entries_some, entries_loop_In.
  intros (j & nd & Hj & H).
  rewrite own_entry_In, below_key_In in H.
  destruct H as [(-> & -> & Hv)|(r & -> & Hin)].
  - split; [lia|exact Hv].
  - rewrite Forall_forall in IH.
    destruct (IH nd (proj2 (list_elem_of_lookup arr nd) (ex_intro _ j Hj)) r v Hin).
    unfold IMAP_NODE_SZ. split; [lia|assumption].
Qed.

(** The number of values a node contributes to the array it is part of. *)
Definition node_weight (nd : imap_node) : nat :=
  length (own_entry 0 nd) + length (node_entries nd).

Lemma entries_loop_length arr : forall i0,
  length (entries_loop node_entries i0 arr) = sum_list_with node_weight arr.
Proof.
  induction arr as [|c arr IH]; intros i0; [reflexivity|].
  rewrite entries_loop_cons, !length_app, length_map, IH. simpl.
  unfold node_weight, own_entry. destruct (nd_data c =? NULL); simpl; lia.
Qed.

Lemma sum_list_with_insert (f : imap_node -> nat) arr : forall (j : nat) nd x,
  arr !! j = Some nd ->
  (sum_list_with f (<[j := x]> arr) + f nd = sum_list_with f arr + f x)%nat.
Proof.
  induction arr as [|c arr IH]; intros [|j] nd x Hj; simpl in *; try discriminate.
  - injection Hj as ->. lia.
  - specialize (IH j nd x Hj). lia.
Qed.

Lemma sum_list_with_lookup (f : imap_node -> nat) arr : forall (j : nat) nd,
  arr !! j = Some nd -> (f nd <= sum_list_with f arr)%nat.
Proof.
  induction arr as [|c arr IH]; intros [|j] nd Hj; simpl in *; try discriminate.
  - injection Hj as ->. lia.
  - specialize (IH j nd Hj). lia.
Qed.

(** ** Well-formed nodes *)

Lemma node_okb_none d sz : node_okb (mk_node d None sz) = true <-> sz = 0.
Proof. simpl. apply Z.eqb_eq. Qed.

Lemma node_okb_some d arr sz :
  node_okb (mk_node d (Some arr) sz) = true <->
  Z.of_nat (length arr) = IMAP_NODE_SZ
  /\ Forall (fun c => node_okb c = true) arr
  /\ sz = Z.of_nat (sum_list_with node_weight arr)
  /\ sz < SIZE_MOD.
Proof.
  simpl. rewrite !andb_true_iff, entries_loop_length, !Z.eqb_eq, Z.ltb_lt.
  rewrite forallb_forall, Forall_forall.
  setoid_rewrite list_elem_of_In. tauto.
Qed.

Lemma node_okb_count node : node_okb node = true -> nd_size node = node_count node.
Proof.
  destruct node as [d [arr|] sz]; unfold node_count.
  - rewrite node_okb_some, node_entries_some, entries_loop_length. simpl. tauto.
  - rewrite node_okb_none. simpl. auto.
Qed.

Lemma node_okb_set_data node d :
  node_okb (set_data node d) = node_okb node.
Proof. destruct node as [d0 [arr|] sz]; reflexivity. Qed.

Lemma node_entries_set_data node d :
  node_entries (set_data node d) = node_entries node.
Proof. destruct node as [d0 [arr|] sz]; reflexivity. Qed.

Lemma node_okb_zero : node_okb node_zero = true.
Proof. reflexivity. Qed.

Lemma Forall_replicate_zero n : Forall (fun c => node_okb c = true) (replicate n node_zero).
Proof. apply Forall_replicate. reflexivity. Qed.

Lemma sum_weight_replicate_zero n : sum_list_with node_weight (replicate n node_zero) = 0%nat.
Proof. induction n; simpl; auto. Qed.

Lemma imap_node_eta node :
  node = mk_node (nd_data node) (nd_nodes node) (nd_size node).
Proof. destruct node; reflexivity. Qed.

(** ** Lookup reads the stored pairs *)

Lemma IMAP_get_S fuel node id :
  IMAP_get (S fuel) node id =
  if id / IMAP_NODE_SZ =? 0 then nd_data (child node (id mod IMAP_NODE_SZ))
  else match nd_nodes (child node (id mod IMAP_NODE_SZ)) with
       | None => NULL
       | Some _ => IMAP_get fuel (child node (id mod IMAP_NODE_SZ)) (id / IMAP_NODE_SZ - 1)
       end.
Proof. reflexivity. Qed.

Lemma child_none d sz i : child (mk_node d None sz) i = node_zero.
Proof. reflexivity. Qed.

Lemma child_some d arr sz i : child (mk_node d (Some arr) sz) i = slot arr i.
Proof. reflexivity. Qed.

Lemma IMAP_get_entries fuel : forall node k v,
  node_okb node = true -> key_below fuel k -> v <> NULL ->
  (In (k, v) (node_entries node) <-> IMAP_get fuel node k = v).
Proof.
  induction fuel as [|fuel IH]; intros node k v Hok Hk Hv.
  - destruct Hk as [H0 H1]. simpl in H1. lia.
  - pose proof (key_below_digit _ _ Hk) as Hi.
    rewrite IMAP_get_S.
    destruct node as [d [arr|] sz].
    2:{ rewrite child_none. simpl.
        destruct (k / IMAP_NODE_SZ =? 0); split; first [tauto | intros <-; congruence]. }
    rewrite child_some.
    apply node_okb_some in Hok as (Hlen & Hall & _).
    pose proof (slot_in_range arr _ Hlen Hi) as Hslot.
    set (nd := slot arr (k mod IMAP_NODE_SZ)) in *.
    assert (Hnd : node_okb nd = true).
    { rewrite Forall_forall in Hall. apply Hall.
      apply list_elem_of_lookup. eauto. }
    rewrite node_entries_some, entries_loop_In.
    setoid_rewrite own_entry_In. setoid_rewrite below_key_In.
    destruct (Z.eqb_spec (k / IMAP_NODE_SZ) 0) as [Hq|Hq].
    + (* the key is a single digit *)
      split.
      * intros (j & c & Hj & [(Hkj & -> & _)|(r & Hkr & Hin)]).
        -- assert (Z.to_nat (k mod IMAP_NODE_SZ) = j) as Hkj'.
           { pose proof (lookup_lt_Some _ _ _ Hj) as Hjlt. rewrite Z.mod_small; lia. }
           rewrite Hkj' in Hslot. congruence.
        -- pose proof (lookup_lt_Some _ _ _ Hj) as Hjlt. apply entries_sound in Hin as [Hr _].
           destruct (key_join r (0 + Z.of_nat j)) as [_ Hd]; [lia|].
           rewrite <- Hkr in Hd. lia.
      * intros <-. exists (Z.to_nat (k mod IMAP_NODE_SZ)), nd.
        split; [exact Hslot|]. left.
        rewrite Z2Nat.id by lia. repeat split; [|exact Hv].
        destruct Hk as [Hk0 _]. rewrite Z.add_0_l. symmetry. apply Z.mod_small.
        split; [lia|]. apply Z.div_small_iff in Hq; unfold IMAP_NODE_SZ in *; lia.
    + (* the key continues below the node *)
      pose proof (key_below_next _ _ Hk Hq) as Hk'.
      assert (Hrec : In (k / IMAP_NODE_SZ - 1, v) (node_entries nd)
                     <-> match nd_nodes nd with
                         | Some _ => IMAP_get fuel nd (k / IMAP_NODE_SZ - 1)
                         | None => NULL
                         end = v).
      { destruct (nd_nodes nd) eqn:E; [apply IH; assumption|].
        rewrite (imap_node_eta nd), E. simpl. split; [tauto|congruence]. }
      rewrite <- Hrec. split.
      * intros (j & c & Hj & [(Hkj & _)|(r & Hkr & Hin)]).
        -- pose proof (lookup_lt_Some _ _ _ Hj) as Hjlt.
           rewrite Z.div_small in Hq by (unfold IMAP_NODE_SZ in *; lia). lia.
        -- pose proof (lookup_lt_Some _ _ _ Hj) as Hjlt.
           destruct (key_join r (0 + Z.of_nat j)) as [Hm Hd]; [lia|].
           rewrite <- Hkr in Hm, Hd.
           assert (c = nd).
           { rewrite Hm, Z.add_0_l, Nat2Z.id in Hslot. congruence. }
           subst c. replace (k / IMAP_NODE_SZ - 1) with r by lia. exact Hin.
      * intros Hin. exists (Z.to_nat (k mod IMAP_NODE_SZ)), nd.
        split; [exact Hslot|]. right.
        exists (k / IMAP_NODE_SZ - 1). split; [|exact Hin].
        rewrite Z2Nat.id by lia.
        rewrite (Z.div_mod k IMAP_NODE_SZ) at 1 by (unfold IMAP_NODE_SZ; lia). lia.
Qed.

Lemma IMAP_get_no_nodes fuel node k : nd_nodes node = None -> IMAP_get fuel node k = NULL.
Proof.
  intros E. destruct fuel as [|fuel]; [reflexivity|].
  rewrite IMAP_get_S, (imap_node_eta node), E, child_none. simpl.
  destruct (k / IMAP_NODE_SZ =? 0); reflexivity.
Qed.

(** The form of [IMAP_get] the proofs use: the test of [nd->nodes] only
    shortcuts a search that would find nothing. *)
Lemma IMAP_get_step fuel node id :
  IMAP_get (S fuel) node id =
  if id / IMAP_NODE_SZ =? 0 then nd_data (child node (id mod IMAP_NODE_SZ))
  else IMAP_get fuel (child node (id mod IMAP_NODE_SZ)) (id / IMAP_NODE_SZ - 1).
Proof.
  rewrite IMAP_get_S. destruct (id / IMAP_NODE_SZ =? 0); [reflexivity|].
  destruct (nd_nodes (child node (id mod IMAP_NODE_SZ))) eqn:E; [reflexivity|].
  symmetry. apply IMAP_get_no_nodes. exact E.
Qed.

Lemma IMAP_get_set_data fuel node d k :
  IMAP_get fuel (set_data node d) k = IMAP_get fuel node k.
Proof. destruct fuel; reflexivity. Qed.

Lemma IMAP_get_set_size fuel node s k :
  IMAP_get fuel (set_size node s) k = IMAP_get fuel node k.
Proof. destruct fuel; reflexivity. Qed.

(** Two well-formed nodes storing the same pairs answer every lookup alike. *)
Lemma IMAP_get_ext fuel n1 n2 k :
  node_okb n1 = true -> node_okb n2 = true -> key_below fuel k ->
  (forall v, In (k, v) (node_entries n1) -> In (k, v) (node_entries n2)) ->
  (forall v, In (k, v) (node_entries n2) -> In (k, v) (node_entries n1)) ->
  IMAP_get fuel n1 k = IMAP_get fuel n2 k.
Proof.
  intros H1 H2 Hk H12 H21.
  destruct (Z.eq_dec (IMAP_get fuel n1 k) NULL) as [E1|E1].
  - destruct (Z.eq_dec (IMAP_get fuel n2 k) NULL) as [E2|E2]; [congruence|].
    exfalso. apply E2. rewrite <- E1. symmetry.
    apply (IMAP_get_entries fuel n1 k _ H1 Hk E2), H21.
    apply (IMAP_get_entries fuel n2 k _ H2 Hk E2). reflexivity.
  - symmetry. apply (IMAP_get_entries fuel n2 k _ H2 Hk E1), H12.
    apply (IMAP_get_entries fuel n1 k _ H1 Hk E1). reflexivity.
Qed.

Lemma IMAP_get_empty fuel node k :
  node_okb node = true -> key_below fuel k -> node_entries node = [] ->
  IMAP_get fuel node k = NULL.
Proof.
  intros Hok Hk He.
  destruct (Z.eq_dec (IMAP_get fuel node k) NULL) as [E|E]; [exact E|].
  exfalso. pose proof (proj2 (IMAP_get_entries fuel node k _ Hok Hk E) eq_refl) as Hin.
  rewrite He in Hin. destruct Hin.
Qed.

(** A node below which one pair is stored holds no other key. *)
Lemma IMAP_get_single fuel node id k :
  node_okb node = true -> key_below fuel id -> key_below fuel k ->
  nd_size node = 1 -> IMAP_get fuel node id <> NULL -> k <> id ->
  IMAP_get fuel node k = NULL.
Proof.
  intros Hok Hid Hk Hsz Hget Hne.
  destruct (Z.eq_dec (IMAP_get fuel node k) NULL) as [E|E]; [exact E|].
  exfalso.
  pose proof (proj2 (IMAP_get_entries fuel node k _ Hok Hk E) eq_refl) as Hin1.
  pose proof (proj2 (IMAP_get_entries fuel node id _ Hok Hid Hget) eq_refl) as Hin2.
  rewrite (node_okb_count _ Hok) in Hsz. unfold node_count in Hsz.
  destruct (node_entries node) as [|e [|e' l]]; simpl in *; try lia.
  destruct Hin1 as [->|[]], Hin2 as [[=]|[]]. congruence.
Qed.

Lemma set_child_some d arr sz i x :
  set_child (mk_node d (Some arr) sz) i x = mk_node d (Some (set_slot arr i x)) sz.
Proof. reflexivity. Qed.

Lemma node_weight_set_data nd d :
  d <> NULL ->
  (node_weight (set_data nd d) = 1 + length (node_entries nd))%nat.
Proof.
  intros Hd. unfold node_weight, own_entry. rewrite node_entries_set_data. simpl.
  destruct (Z.eqb_spec d NULL); [contradiction|reflexivity].
Qed.

Lemma node_weight_set_null nd :
  node_weight (set_data nd NULL) = length (node_entries nd).
Proof. unfold node_weight. rewrite node_entries_set_data. reflexivity. Qed.

Lemma node_weight_eq nd :
  node_weight nd = ((if Z.eqb (nd_data nd) NULL then 0 else 1) + length (node_entries nd))%nat.
Proof. unfold node_weight, own_entry. destruct (nd_data nd =? NULL); reflexivity. Qed.

Lemma wrap64_small z : 0 <= z < SIZE_MOD -> wrap64 z = z.
Proof. apply Z.mod_small. Qed.

Lemma entries_loop_insert_same arr : forall i0 (j : nat) nd x,
  arr !! j = Some nd ->
  nd_data x = nd_data nd -> node_entries x = node_entries nd ->
  entries_loop node_entries i0 (<[j := x]> arr) = entries_loop node_entries i0 arr.
Proof.
  induction arr as [|c arr IH]; intros i0 [|j] nd x Hj Hd He; simpl in Hj; try discriminate.
  - injection Hj as ->. simpl insert. rewrite !entries_loop_cons, He.
    unfold own_entry. rewrite Hd. reflexivity.
  - simpl insert. rewrite !entries_loop_cons. f_equal. f_equal. eapply IH; eassumption.
Qed.

(** ** Insert *)

(** [IMAP_add] once [node->nodes] is in place. *)
Definition add_below (fuel : nat) (node1 : imap_node) (id : Z) (data : ptr) (h1 : heap)
  : Z * imap_node * heap :=
  let i := id mod IMAP_NODE_SZ in
  let nd := child node1 i in
  let id1 := id / IMAP_NODE_SZ in
  if id1 =? 0
  then
    let rc := if nd_data nd =? NULL then 1 else 0 in
    let node2 := set_child node1 i (set_data nd data) in
    (rc, set_size node2 (wrap64 (nd_size node2 + rc)), h1)
  else
    let '(rc, nd', h2) := IMAP_add fuel nd (id1 - 1) data h1 in
    let node2 := set_child node1 i nd' in
    (rc, if rc >? 0 then set_size node2 (wrap64 (nd_size node2 + 1)) else node2, h2).

Lemma IMAP_add_fail fuel node id data h h' :
  nd_size node = 0 -> alloc h = (false, h') ->
  IMAP_add (S fuel) node id data h = (RC_ERR_ALLOC, set_nodes node None, h').
Proof.
  intros Hsz Ha. simpl. unfold calloc_nodes. rewrite Hsz, Ha. reflexivity.
Qed.

Lemma IMAP_add_fresh fuel node id data h h' :
  nd_size node = 0 -> alloc h = (true, h') ->
  IMAP_add (S fuel) node id data h
  = add_below fuel
      (set_nodes node (Some (replicate (Z.to_nat IMAP_NODE_SZ) node_zero))) id data h'.
Proof.
  intros Hsz Ha. simpl. unfold calloc_nodes. rewrite Hsz, Ha. reflexivity.
Qed.

Lemma IMAP_add_present fuel node id data h :
  nd_size node <> 0 ->
  IMAP_add (S fuel) node id data h = add_below fuel node id data h.
Proof.
  intros Hsz. simpl. apply Z.eqb_neq in Hsz. rewrite Hsz. reflexivity.
Qed.

(** What a call of [IMAP_add] on a well-formed node leaves: either it
    failed, and the stored pairs are those of before, or the key is bound to
    the new value, every other key is as before, and the return code tells
    whether the key was new. *)
Definition add_post (fuel : nat) (node : imap_node) (id : Z) (data : ptr)
  (r : Z * imap_node * heap) : Prop :=
  let '(rc, node', _) := r in
  nd_data node' = nd_data node /\ node_okb node' = true /\
  ((rc = RC_ERR_ALLOC /\ node_entries node' = node_entries node
    /\ nd_size node' = nd_size node)
   \/ (rc = (if IMAP_get fuel node id =? NULL then 1 else 0)
       /\ nd_size node' = nd_size node + rc
       /\ (exists arr, nd_nodes node' = Some arr)
       /\ forall k, key_below fuel k ->
            IMAP_get fuel node' k = if k =? id then data else IMAP_get fuel node k)).

Lemma node_count_le_parent arr (j : nat) nd :
  arr !! j = Some nd -> Forall (fun c => node_okb c = true) arr ->
  nd_size nd <= Z.of_nat (sum_list_with node_weight arr).
Proof.
  intros Hj Hall.
  assert (Hnd : node_okb nd = true).
  { rewrite Forall_forall in Hall. apply Hall, list_elem_of_lookup. eauto. }
  rewrite (node_okb_count _ Hnd). unfold node_count.
  pose proof (sum_list_with_lookup node_weight arr j nd Hj) as Hle.
  unfold node_weight in Hle at 1. lia.
Qed.

Lemma IMAP_get_set_slot fuel d0 arr sz s i x k :
  Z.of_nat (length arr) = IMAP_NODE_SZ -> 0 <= i < IMAP_NODE_SZ ->
  IMAP_get (S fuel) (mk_node d0 (Some (set_slot arr i x)) s) k
  = if k mod IMAP_NODE_SZ =? i
    then (if k / IMAP_NODE_SZ =? 0 then nd_data x
          else IMAP_get fuel x (k / IMAP_NODE_SZ - 1))
    else IMAP_get (S fuel) (mk_node d0 (Some arr) sz) k.
Proof.
  intros Hlen Hi. rewrite !IMAP_get_step, !child_some.
  rewrite slot_set_slot; [|assumption..|apply Z.mod_pos_bound; reflexivity].
  destruct (k mod IMAP_NODE_SZ =? i); reflexivity.
Qed.

Lemma add_below_ok fuel d0 arr sz id data h :
  (forall node id data h,
     node_okb node = true -> key_below fuel id -> data <> NULL ->
     nd_size node + 1 < SIZE_MOD ->
     add_post fuel node id data (IMAP_add fuel node id data h)) ->
  node_okb (mk_node d0 (Some arr) sz) = true -> key_below (S fuel) id ->
  data <> NULL -> sz + 1 < SIZE_MOD ->
  add_post (S fuel) (mk_node d0 (Some arr) sz) id data
    (add_below fuel (mk_node d0 (Some arr) sz) id data h).
Proof.
  intros IH Hok Hid Hdata Hsz.
  pose proof (key_below_digit _ _ Hid) as Hi.
  pose proof Hok as Hok'. apply node_okb_some in Hok' as (Hlen & Hall & Hsum & _).
  pose proof (slot_in_range arr _ Hlen Hi) as Hslot.
  unfold add_below. rewrite child_some.
  assert (Hnd : node_okb (slot arr (id mod IMAP_NODE_SZ)) = true).
  { rewrite Forall_forall in Hall. apply Hall, list_elem_of_lookup. eauto. }
  assert (Hold : IMAP_get (S fuel) (mk_node d0 (Some arr) sz) id
                 = if id / IMAP_NODE_SZ =? 0 then nd_data (slot arr (id mod IMAP_NODE_SZ))
                   else IMAP_get fuel (slot arr (id mod IMAP_NODE_SZ)) (id / IMAP_NODE_SZ - 1)).
  { rewrite IMAP_get_step, child_some. reflexivity. }
  destruct (Z.eqb_spec (id / IMAP_NODE_SZ) 0) as [Hq|Hq].
  - (* the value goes into node [i] of the array *)
    rewrite set_child_some. unfold set_size. simpl nd_data. simpl nd_nodes. simpl nd_size.
    set (nd := slot arr (id mod IMAP_NODE_SZ)) in *.
    set (rc := if nd_data nd =? NULL then 1 else 0).
    pose proof (sum_list_with_insert node_weight arr _ nd (set_data nd data) Hslot) as Hins.
    rewrite (node_weight_set_data _ _ Hdata), (node_weight_eq nd) in Hins.
    assert (Hrc : Z.of_nat (sum_list_with node_weight
                              (set_slot arr (id mod IMAP_NODE_SZ) (set_data nd data)))
                  = sz + rc /\ 0 <= rc <= 1).
    { unfold set_slot, rc. destruct (nd_data nd =? NULL); lia. }
    destruct Hrc as [Hrc Hrc01].
    rewrite wrap64_small by lia.
    split; [reflexivity|]. split.
    + apply node_okb_some. rewrite set_slot_length.
      split; [exact Hlen|]. split; [|lia].
      apply Forall_insert; [exact Hall|]. rewrite node_okb_set_data. exact Hnd.
    + right. split; [|split; [reflexivity|split; [eauto|]]].
      * rewrite Hold. reflexivity.
      * intros k Hk. rewrite (IMAP_get_set_slot fuel d0 arr sz) by assumption.
        destruct (Z.eqb_spec (k mod IMAP_NODE_SZ) (id mod IMAP_NODE_SZ)) as [Hm|Hm].
        -- rewrite IMAP_get_step, child_some, Hm. fold nd. rewrite IMAP_get_set_data.
           destruct (Z.eqb_spec (k / IMAP_NODE_SZ) 0) as [Hkq|Hkq].
           ++ rewrite (key_split k id Hm ltac:(lia)), Z.eqb_refl. reflexivity.
           ++ destruct (Z.eqb_spec k id) as [->|Hne]; [contradiction|reflexivity].
        -- destruct (Z.eqb_spec k id) as [->|Hne]; [contradiction|reflexivity].
  - (* the key continues below node [i] *)
    pose proof (key_below_next _ _ Hid Hq) as Hid'.
    pose proof (node_count_le_parent arr _ _ Hslot Hall) as Hle.
    set (nd := slot arr (id mod IMAP_NODE_SZ)) in *.
    specialize (IH nd (id / IMAP_NODE_SZ - 1) data h Hnd Hid' Hdata ltac:(lia)).
    destruct (IMAP_add fuel nd (id / IMAP_NODE_SZ - 1) data h) as [[rc nd'] h2].
    destruct IH as (Hd' & Hok' & [(-> & He & Hs)|(Hrc & Hs & Hn & Hg)]).
    + (* the allocation failed below *)
      change (RC_ERR_ALLOC >? 0) with false. cbv iota.
      rewrite set_child_some.
      split; [reflexivity|]. split.
      * apply node_okb_some. rewrite set_slot_length.
        split; [exact Hlen|]. split; [apply Forall_insert; assumption|].
        split; [|lia].
        rewrite Hsum, <- !(entries_loop_length _ 0). unfold set_slot.
        rewrite (entries_loop_insert_same arr 0 _ nd nd' Hslot Hd' He). reflexivity.
      * left. split; [reflexivity|]. split; [|reflexivity].
        rewrite !node_entries_some. unfold set_slot.
        apply (entries_loop_insert_same arr 0 _ nd nd' Hslot Hd' He).
    + (* the insert went through below *)
      rewrite set_child_some.
      pose proof (sum_list_with_insert node_weight arr _ nd nd' Hslot) as Hins.
      rewrite (node_weight_eq nd), (node_weight_eq nd'), Hd' in Hins.
      rewrite (node_okb_count _ Hnd), (node_okb_count _ Hok') in Hs.
      unfold node_count in Hs.
      assert (Hrc01 : rc = 0 \/ rc = 1).
      { rewrite Hrc. destruct (IMAP_get fuel nd (id / IMAP_NODE_SZ - 1) =? NULL); auto. }
      assert (Hsum' : Z.of_nat (sum_list_with node_weight
                                  (set_slot arr (id mod IMAP_NODE_SZ) nd')) = sz + rc).
      { unfold set_slot. lia. }
      assert (Hres : (if rc >? 0
                      then set_size (mk_node d0 (Some (set_slot arr (id mod IMAP_NODE_SZ) nd')) sz)
                             (wrap64 (nd_size (mk_node d0
                                (Some (set_slot arr (id mod IMAP_NODE_SZ) nd')) sz) + 1))
                      else mk_node d0 (Some (set_slot arr (id mod IMAP_NODE_SZ) nd')) sz)
                     = mk_node d0 (Some (set_slot arr (id mod IMAP_NODE_SZ) nd')) (sz + rc)).
      { destruct Hrc01 as [-> | ->]; simpl; unfold set_size; simpl.
        - rewrite Z.add_0_r. reflexivity.
        - rewrite wrap64_small by lia. reflexivity. }
      rewrite Hres.
      split; [reflexivity|]. split.
      * apply node_okb_some. rewrite set_slot_length.
        split; [exact Hlen|]. split; [apply Forall_insert; assumption|]. lia.
      * right. split; [|split; [reflexivity|split; [eauto|]]].
        -- rewrite Hold. exact Hrc.
        -- intros k Hk. rewrite (IMAP_get_set_slot fuel d0 arr sz) by assumption.
           destruct (Z.eqb_spec (k mod IMAP_NODE_SZ) (id mod IMAP_NODE_SZ)) as [Hm|Hm].
           ++ rewrite IMAP_get_step, child_some, Hm. fold nd.
              destruct (Z.eqb_spec (k / IMAP_NODE_SZ) 0) as [Hkq|Hkq].
              ** destruct (Z.eqb_spec k id) as [->|Hne]; [contradiction|exact Hd'].
              ** rewrite (Hg _ (key_below_next _ _ Hk Hkq)).
                 destruct (Z.eqb_spec k id) as [->|Hne].
                 --- rewrite Z.eqb_refl. reflexivity.
                 --- destruct (Z.eqb_spec (k / IMAP_NODE_SZ - 1) (id / IMAP_NODE_SZ - 1));
                       [|reflexivity].
                     exfalso. apply Hne, key_split; [exact Hm|lia].
           ++ destruct (Z.eqb_spec k id) as [->|Hne]; [contradiction|reflexivity].
Qed.

Lemma node_okb_size_zero node :
  node_okb node = true -> nd_size node = 0 -> node_entries node = [].
Proof.
  intros Hok Hsz. rewrite (node_okb_count _ Hok) in Hsz. unfold node_count in Hsz.
  destruct (node_entries node); [reflexivity|simpl in Hsz; lia].
Qed.

Lemma node_okb_nodes node :
  node_okb node = true -> nd_size node <> 0 -> exists arr, nd_nodes node = Some arr.
Proof.
  destruct node as [d [arr|] sz]; [eauto|].
  rewrite node_okb_none. simpl. intros -> H. contradiction.
Qed.

Lemma node_okb_fresh node :
  node_okb node = true -> nd_size node = 0 ->
  node_okb (set_nodes node (Some (replicate (Z.to_nat IMAP_NODE_SZ) node_zero))) = true.
Proof.
  intros Hok Hsz. unfold set_nodes. rewrite Hsz. apply node_okb_some.
  rewrite length_replicate, sum_weight_replicate_zero.
  split; [reflexivity|]. split; [apply Forall_replicate_zero|]. split; reflexivity.
Qed.

Theorem IMAP_add_ok fuel : forall node id data h,
  node_okb node = true -> key_below fuel id -> data <> NULL ->
  nd_size node + 1 < SIZE_MOD ->
  add_post fuel node id data (IMAP_add fuel node id data h).
Proof.
  induction fuel as [|fuel IH]; intros node id data h Hok Hid Hdata Hsz.
  - destruct Hid as [H0 H1]. simpl in H1. lia.
  - destruct (Z.eq_dec (nd_size node) 0) as [Hz|Hnz].
    + destruct (alloc h) as [[|] h'] eqn:Ha.
      * (* a fresh array takes the place of the absent or empty one *)
        rewrite (IMAP_add_fresh _ _ _ _ _ _ Hz Ha).
        pose proof (node_okb_fresh _ Hok Hz) as Hok1.
        pose proof (node_okb_size_zero _ Hok Hz) as He.
        pose proof (add_below_ok fuel (nd_data node) (replicate (Z.to_nat IMAP_NODE_SZ) node_zero)
                      (nd_size node) id data h' IH Hok1 Hid Hdata Hsz) as Hpost.
        change (mk_node (nd_data node) (Some (replicate (Z.to_nat IMAP_NODE_SZ) node_zero))
                  (nd_size node))
          with (set_nodes node (Some (replicate (Z.to_nat IMAP_NODE_SZ) node_zero))) in Hpost.
        set (node1 := set_nodes node (Some (replicate (Z.to_nat IMAP_NODE_SZ) node_zero))) in *.
        assert (He1 : node_entries node1 = []) by (apply node_okb_size_zero; [exact Hok1|exact Hz]).
        assert (Hsame : forall k, key_below (S fuel) k ->
                  IMAP_get (S fuel) node1 k = IMAP_get (S fuel) node k).
        { intros k Hk. rewrite !IMAP_get_empty by assumption. reflexivity. }
        unfold add_post in *.
        destruct (add_below fuel node1 id data h') as [[rc node'] h2].
        destruct Hpost as (Hd' & Hok' & [(-> & He' & Hs)|(Hrc & Hs & Hn & Hg)]).
        -- split; [exact Hd'|]. split; [exact Hok'|]. left.
           split; [reflexivity|]. split; [congruence|exact Hs].
        -- split; [exact Hd'|]. split; [exact Hok'|]. right.
           rewrite <- (Hsame id Hid). split; [exact Hrc|]. split; [exact Hs|].
           split; [exact Hn|]. intros k Hk. rewrite (Hg k Hk), (Hsame k Hk). reflexivity.
      * (* the array could not be allocated *)
        rewrite (IMAP_add_fail _ _ _ _ _ _ Hz Ha). unfold add_post.
        pose proof (node_okb_size_zero _ Hok Hz) as He.
        split; [reflexivity|]. split.
        -- unfold set_nodes. apply node_okb_none. exact Hz.
        -- left. split; [reflexivity|]. split; [|reflexivity].
           rewrite He. reflexivity.
    + rewrite (IMAP_add_present _ _ _ _ _ Hnz).
      destruct node as [d0 [arr|] sz].
      * apply add_below_ok; assumption.
      * apply node_okb_none in Hok. contradiction.
Qed.

(** ** Delete *)

Lemma IMAP_pop_S fuel node id :
  IMAP_pop (S fuel) node id =
  let i := id mod IMAP_NODE_SZ in
  let nd := child node i in
  if id / IMAP_NODE_SZ =? 0
  then
    if nd_data nd =? NULL then (nd_data nd, node)
    else
      let node1 := set_size node (wrap64 (nd_size node - 1)) in
      if nd_size node1 =? 0
      then (nd_data nd, free_nodes node1)
      else (nd_data nd, set_child node1 i (set_data nd NULL))
  else
    match nd_nodes nd with
    | None => (NULL, node)
    | Some _ =>
      let '(data, nd') := IMAP_pop fuel nd (id / IMAP_NODE_SZ - 1) in
      let node1 := set_child node i nd' in
      if data =? NULL then (data, node1)
      else
        let node2 := set_size node1 (wrap64 (nd_size node1 - 1)) in
        if nd_size node2 =? 0 then (data, free_nodes node2) else (data, node2)
    end.
Proof. reflexivity. Qed.

(** Removing one pair from node [id mod 32] of an array, the array staying
    in place. *)
Lemma pop_slot_ok fuel d0 arr sz id nd' :
  node_okb (mk_node d0 (Some arr) sz) = true -> key_below (S fuel) id ->
  node_okb nd' = true ->
  (node_weight nd' + 1 = node_weight (slot arr (id mod IMAP_NODE_SZ)))%nat ->
  (forall k, key_below (S fuel) k -> k mod IMAP_NODE_SZ = id mod IMAP_NODE_SZ ->
     (if k / IMAP_NODE_SZ =? 0 then nd_data nd'
      else IMAP_get fuel nd' (k / IMAP_NODE_SZ - 1))
     = if k =? id then NULL
       else if k / IMAP_NODE_SZ =? 0 then nd_data (slot arr (id mod IMAP_NODE_SZ))
            else IMAP_get fuel (slot arr (id mod IMAP_NODE_SZ)) (k / IMAP_NODE_SZ - 1)) ->
  1 <= sz
  /\ node_okb (mk_node d0 (Some (set_slot arr (id mod IMAP_NODE_SZ) nd')) (sz - 1)) = true
  /\ forall k, key_below (S fuel) k ->
       IMAP_get (S fuel) (mk_node d0 (Some (set_slot arr (id mod IMAP_NODE_SZ) nd')) (sz - 1)) k
       = if k =? id then NULL else IMAP_get (S fuel) (mk_node d0 (Some arr) sz) k.
Proof.
  intros Hok Hid Hok' Hw Hg.
  pose proof (key_below_digit _ _ Hid) as Hi.
  apply node_okb_some in Hok as (Hlen & Hall & Hsum & Hmax).
  pose proof (slot_in_range arr _ Hlen Hi) as Hslot.
  pose proof (sum_list_with_lookup node_weight arr _ _ Hslot) as Hwle.
  pose proof (sum_list_with_insert node_weight arr _ _ nd' Hslot) as Hins.
  split; [lia|]. split.
  - apply node_okb_some. rewrite set_slot_length.
    split; [exact Hlen|]. split; [apply Forall_insert; assumption|].
    unfold set_slot. lia.
  - intros k Hk. rewrite (IMAP_get_set_slot fuel d0 arr sz) by assumption.
    destruct (Z.eqb_spec (k mod IMAP_NODE_SZ) (id mod IMAP_NODE_SZ)) as [Hm|Hm].
    + rewrite (Hg k Hk Hm), IMAP_get_step, child_some, Hm. reflexivity.
    + destruct (Z.eqb_spec k id) as [->|Hne]; [contradiction|reflexivity].
Qed.

(** What a call of [IMAP_pop] on a well-formed node leaves: it returns what
    a lookup of the key returns, and the key is then absent while every
    other key is as before. *)
Definition pop_post (fuel : nat) (node : imap_node) (id : Z) (r : ptr * imap_node) : Prop :=
  let '(v, node') := r in
  v = IMAP_get fuel node id
  /\ nd_data node' = nd_data node
  /\ node_okb node' = true
  /\ nd_size node' = nd_size node - (if v =? NULL then 0 else 1)
  /\ (v = NULL -> node' = node)
  /\ forall k, key_below fuel k ->
       IMAP_get fuel node' k = if k =? id then NULL else IMAP_get fuel node k.

Theorem IMAP_pop_ok fuel : forall node id,
  node_okb node = true -> key_below fuel id ->
  pop_post fuel node id (IMAP_pop fuel node id).
Proof.
  induction fuel as [|fuel IH]; intros node id Hok Hid.
  - destruct Hid as [H0 H1]. simpl in H1. lia.
  - pose proof (key_below_digit _ _ Hid) as Hi.
    assert (Hnull : IMAP_get (S fuel) node id = NULL ->
              pop_post (S fuel) node id (NULL, node)).
    { intros E. unfold pop_post. rewrite E.
      split; [reflexivity|]. split; [reflexivity|]. split; [exact Hok|].
      split; [change (NULL =? NULL) with true; cbv iota; lia|]. split; [reflexivity|].
      intros k Hk. destruct (Z.eqb_spec k id) as [->|Hne]; [exact E|reflexivity]. }
    rewrite IMAP_pop_S. cbv zeta.
    destruct node as [d0 [arr|] sz].
    2:{ rewrite child_none. simpl nd_data. simpl nd_nodes. change (NULL =? NULL) with true.
        cbv iota. destruct (id / IMAP_NODE_SZ =? 0);
          apply Hnull, IMAP_get_no_nodes; reflexivity. }
    rewrite child_some.
    pose proof Hok as Hok'. apply node_okb_some in Hok' as (Hlen & Hall & Hsum & Hmax).
    pose proof (slot_in_range arr _ Hlen Hi) as Hslot.
    assert (Hnd : node_okb (slot arr (id mod IMAP_NODE_SZ)) = true).
    { rewrite Forall_forall in Hall. apply Hall, list_elem_of_lookup. eauto. }
    assert (Hold : IMAP_get (S fuel) (mk_node d0 (Some arr) sz) id
              = if id / IMAP_NODE_SZ =? 0 then nd_data (slot arr (id mod IMAP_NODE_SZ))
                else IMAP_get fuel (slot arr (id mod IMAP_NODE_SZ)) (id / IMAP_NODE_SZ - 1)).
    { rewrite IMAP_get_step, child_some. reflexivity. }
    set (nd := slot arr (id mod IMAP_NODE_SZ)) in *.
    pose proof (sum_list_with_lookup node_weight arr _ nd Hslot) as Hwle.
    (* the shape of the node after a removal that leaves the array in place *)
    assert (Hkeep : forall v nd',
              v <> NULL -> v = IMAP_get (S fuel) (mk_node d0 (Some arr) sz) id ->
              node_okb nd' = true ->
              (node_weight nd' + 1 = node_weight nd)%nat ->
              (forall k, key_below (S fuel) k -> k mod IMAP_NODE_SZ = id mod IMAP_NODE_SZ ->
                 (if k / IMAP_NODE_SZ =? 0 then nd_data nd'
                  else IMAP_get fuel nd' (k / IMAP_NODE_SZ - 1))
                 = if k =? id then NULL
                   else if k / IMAP_NODE_SZ =? 0 then nd_data nd
                        else IMAP_get fuel nd (k / IMAP_NODE_SZ - 1)) ->
              pop_post (S fuel) (mk_node d0 (Some arr) sz) id
                (let node2 := set_size (mk_node d0 (Some (set_slot arr (id mod IMAP_NODE_SZ) nd')) sz)
                                (wrap64 (sz - 1)) in
                 if nd_size node2 =? 0 then (v, free_nodes node2) else (v, node2))).
    { intros v nd' Hv Hvget Hok' Hw Hg.
      destruct (pop_slot_ok fuel d0 arr sz id nd' Hok Hid Hok' Hw Hg) as (Hsz & Hok2 & Hg2).
      cbv zeta. unfold set_size, free_nodes, set_nodes. simpl nd_size. simpl nd_data.
      simpl nd_nodes. rewrite wrap64_small by lia.
      destruct (Z.eqb_spec (sz - 1) 0) as [Hz|Hz];
        unfold pop_post; (destruct (Z.eqb_spec v NULL) as [|_]; [contradiction|]).
      - split; [exact Hvget|]. split; [reflexivity|]. split; [apply node_okb_none; exact Hz|].
        split; [reflexivity|]. split; [contradiction|].
        intros k Hk. rewrite IMAP_get_no_nodes by reflexivity.
        destruct (Z.eqb_spec k id) as [->|Hne]; [reflexivity|].
        symmetry. apply (IMAP_get_single (S fuel) _ id k); try assumption.
        + simpl. lia.
        + congruence.
      - split; [exact Hvget|]. split; [reflexivity|]. split; [exact Hok2|].
        split; [reflexivity|]. split; [contradiction|]. exact Hg2. }
    destruct (Z.eqb_spec (id / IMAP_NODE_SZ) 0) as [Hq|Hq].
    + (* the value is in node [i] of the array *)
      destruct (Z.eqb_spec (nd_data nd) NULL) as [Hd|Hd].
      * rewrite Hd. apply Hnull. congruence.
      * assert (Hv : nd_data nd = IMAP_get (S fuel) (mk_node d0 (Some arr) sz) id).
        { rewrite Hold. destruct (Z.eqb_spec (id / IMAP_NODE_SZ) 0); [reflexivity|contradiction]. }
        refine (Hkeep (nd_data nd) (set_data nd NULL) Hd Hv _ _ _).
        -- rewrite node_okb_set_data. exact Hnd.
        -- rewrite node_weight_set_null, (node_weight_eq nd).
           destruct (Z.eqb_spec (nd_data nd) NULL); [contradiction|lia].
        -- intros k Hkb Hm. rewrite IMAP_get_set_data. simpl nd_data.
           destruct (Z.eqb_spec (k / IMAP_NODE_SZ) 0) as [Hkq|Hkq];
             destruct (Z.eqb_spec k id) as [->|Hne]; try reflexivity; try contradiction.
           exfalso. apply Hne, key_split; [exact Hm|lia].
    + (* the key continues below node [i] *)
      pose proof (key_below_next _ _ Hid Hq) as Hid'.
      destruct (nd_nodes nd) as [arr'|] eqn:Hnodes.
      2:{ apply Hnull. rewrite Hold. apply IMAP_get_no_nodes. exact Hnodes. }
      specialize (IH nd (id / IMAP_NODE_SZ - 1) Hnd Hid').
      destruct (IMAP_pop fuel nd (id / IMAP_NODE_SZ - 1)) as [v nd'].
      destruct IH as (Hv & Hd' & Hok' & Hs & Hsame & Hg).
      rewrite set_child_some.
      destruct (Z.eqb_spec v NULL) as [Hvn|Hvn].
      * rewrite (Hsame Hvn). unfold nd. rewrite set_slot_same.
        rewrite Hvn. apply Hnull. rewrite Hold. congruence.
      * apply Hkeep; try assumption.
        -- rewrite Hold. exact Hv.
        -- rewrite (node_okb_count _ Hnd), (node_okb_count _ Hok') in Hs.
           unfold node_count in Hs. rewrite !node_weight_eq, Hd'. lia.
        -- intros k Hkb Hm. rewrite Hd'.
           destruct (Z.eqb_spec (k / IMAP_NODE_SZ) 0) as [Hkq|Hkq].
           ++ destruct (Z.eqb_spec k id) as [->|Hne]; [contradiction|reflexivity].
           ++ rewrite (Hg _ (key_below_next _ _ Hkb Hkq)).
              destruct (Z.eqb_spec k id) as [->|Hne].
              ** rewrite Z.eqb_refl. reflexivity.
              ** destruct (Z.eqb_spec (k / IMAP_NODE_SZ - 1) (id / IMAP_NODE_SZ - 1));
                   [|reflexivity].
                 exfalso. apply Hne, key_split; [exact Hm|lia].
Qed.

(** ** The map handle *)

(** The handle seen as a node: its array is the top-level array and its
    [len] plays the part of [size]. *)
Definition imap_root (imap : imap_t) : imap_node :=
  mk_node NULL (Some (imap_nodes imap)) (imap_len imap).

Lemma imap_okb_root imap : imap_okb imap = node_okb (imap_root imap).
Proof. reflexivity. Qed.

Lemma imap_get_root imap id : imap_get imap id = IMAP_get (S IMAP_DEPTH) (imap_root imap) id.
Proof. reflexivity. Qed.

Lemma imap_entries_root imap : imap_entries imap = node_entries (imap_root imap).
Proof. reflexivity. Qed.

Lemma key_below_root id : is_uint64 id -> key_below (S IMAP_DEPTH) id.
Proof.
  unfold is_uint64, key_below, IMAP_NODE_SZ, IMAP_DEPTH. intros [H0 H1].
  change (32 ^ Z.of_nat 14) with (2 ^ 70). lia.
Qed.

Lemma imap_okb_len imap :
  imap_okb imap = true -> imap_len imap = imap_count imap /\ 0 <= imap_len imap < SIZE_MOD.
Proof.
  unfold imap_okb. rewrite !andb_true_iff, Z.eqb_eq, Z.ltb_lt.
  intros (((_ & _) & Hc) & Hlt). unfold imap_count in *. lia.
Qed.

Lemma imap_add_root imap id data h :
  0 <= imap_len imap < SIZE_MOD ->
  imap_add imap id data h
  = let '(rc, node', h') := add_below IMAP_DEPTH (imap_root imap) id data h in
    (if id / IMAP_NODE_SZ =? 0 then 0 else rc,
     mk_imap (nd_size node') (children node'), h').
Proof.
  intros Hlen. unfold imap_add, add_below, imap_root. rewrite child_some.
  destruct (id / IMAP_NODE_SZ =? 0).
  - rewrite set_child_some. unfold set_size, children. simpl nd_size. simpl nd_nodes.
    destruct (nd_data (slot (imap_nodes imap) (id mod IMAP_NODE_SZ)) =? NULL);
      [reflexivity|].
    rewrite Z.add_0_r, wrap64_small by assumption. reflexivity.
  - destruct (IMAP_add IMAP_DEPTH (slot (imap_nodes imap) (id mod IMAP_NODE_SZ))
                (id / IMAP_NODE_SZ - 1) data h) as [[rc nd'] h2].
    rewrite set_child_some. destruct (rc >? 0); reflexivity.
Qed.

Lemma add_below_shape fuel d0 arr sz id data h :
  let '(rc, node', _) := add_below fuel (mk_node d0 (Some arr) sz) id data h in
  (exists arr', nd_nodes node' = Some arr')
  /\ (id / IMAP_NODE_SZ = 0 -> rc <> RC_ERR_ALLOC).
Proof.
  unfold add_below. rewrite child_some.
  destruct (Z.eqb_spec (id / IMAP_NODE_SZ) 0) as [Hq|Hq].
  - rewrite set_child_some. split; [simpl; eauto|].
    intros _. destruct (_ =? NULL); discriminate.
  - destruct (IMAP_add fuel _ _ data h) as [[rc nd'] h2].
    rewrite set_child_some. split; [|contradiction].
    destruct (rc >? 0); simpl; eauto.
Qed.

(** [imap_add] on a well-formed map: a failed allocation leaves the stored
    pairs and the count as they were; otherwise the key is bound to the
    value, the other keys are as before, and the count grows by one exactly
    when the key was new.  The return code tells a new key from an old one
    only for keys of more than one digit. *)
Theorem imap_add_ok imap id data h :
  imap_okb imap = true -> is_uint64 id -> data <> NULL ->
  imap_len imap + 1 < SIZE_MOD ->
  let '(rc, imap', _) := imap_add imap id data h in
  imap_okb imap' = true /\
  ((rc = RC_ERR_ALLOC /\ imap_entries imap' = imap_entries imap
    /\ imap_len imap' = imap_len imap)
   \/ (rc = (if id / IMAP_NODE_SZ =? 0 then 0
            else if imap_get imap id =? NULL then 1 else 0)
       /\ imap_len imap' = imap_len imap + (if imap_get imap id =? NULL then 1 else 0)
       /\ forall k, is_uint64 k ->
            imap_get imap' k = if k =? id then data else imap_get imap k)).
Proof.
  intros Hok Hid Hdata Hmax.
  destruct (imap_okb_len _ Hok) as [_ Hlen].
  rewrite imap_add_root by exact Hlen.
  rewrite imap_okb_root in Hok.
  pose proof (add_below_ok IMAP_DEPTH NULL (imap_nodes imap) (imap_len imap) id data h
                (IMAP_add_ok IMAP_DEPTH) Hok (key_below_root _ Hid) Hdata Hmax) as Hpost.
  pose proof (add_below_shape IMAP_DEPTH NULL (imap_nodes imap) (imap_len imap) id data h)
    as Hshape.
  fold (imap_root imap) in Hpost, Hshape. unfold add_post in Hpost.
  destruct (add_below IMAP_DEPTH (imap_root imap) id data h) as [[rc node'] h'].
  destruct Hpost as (Hd & Hok' & Hcases). destruct Hshape as ([arr' Hn] & Hleaf).
  assert (Hroot : imap_root (mk_imap (nd_size node') (children node')) = node').
  { destruct node' as [d' ns' sz']. simpl in Hd, Hn. subst d' ns'. reflexivity. }
  rewrite imap_okb_root, !imap_entries_root, Hroot.
  split; [exact Hok'|].
  destruct Hcases as [(-> & He & Hs)|(Hrc & Hs & _ & Hg)].
  - left. destruct (Z.eqb_spec (id / IMAP_NODE_SZ) 0) as [Hq|Hq].
    + exfalso. apply (Hleaf Hq). reflexivity.
    + auto.
  - right. rewrite !imap_get_root. split; [|split].
    + rewrite Hrc. destruct (id / IMAP_NODE_SZ =? 0); reflexivity.
    + cbn [imap_len]. rewrite Hs, Hrc. reflexivity.
    + intros k Hk. rewrite !imap_get_root, Hroot. apply Hg, key_below_root, Hk.
Qed.

(** [imap_pop] on a well-formed map returns what a lookup of the key
    returns; a key that is absent leaves the map as it was, and a key that
    is present is removed, the count going down by one and no other key
    being touched. *)
Theorem imap_pop_ok imap id :
  imap_okb imap = true -> is_uint64 id ->
  let '(v, imap') := imap_pop imap id in
  v = imap_get imap id
  /\ imap_okb imap' = true
  /\ imap_len imap' = imap_len imap - (if v =? NULL then 0 else 1)
  /\ (v = NULL -> imap' = imap)
  /\ forall k, is_uint64 k ->
       imap_get imap' k = if k =? id then NULL else imap_get imap k.
Proof.
  intros Hok Hid.
  destruct (imap_okb_len _ Hok) as [_ Hlen].
  pose proof (key_below_root _ Hid) as Hkb.
  pose proof (key_below_digit _ _ Hkb) as Hi.
  rewrite imap_okb_root in Hok.
  pose proof Hok as Hok'. apply node_okb_some in Hok' as (Hlen32 & Hall & Hsum & Hmax).
  pose proof (slot_in_range _ _ Hlen32 Hi) as Hslot.
  assert (Hnd : node_okb (slot (imap_nodes imap) (id mod IMAP_NODE_SZ)) = true).
  { rewrite Forall_forall in Hall. apply Hall, list_elem_of_lookup. eauto. }
  assert (Hold : imap_get imap id
            = if id / IMAP_NODE_SZ =? 0
              then nd_data (slot (imap_nodes imap) (id mod IMAP_NODE_SZ))
              else IMAP_get IMAP_DEPTH (slot (imap_nodes imap) (id mod IMAP_NODE_SZ))
                     (id / IMAP_NODE_SZ - 1)).
  { rewrite imap_get_root, IMAP_get_step. reflexivity. }
  assert (Hnull : imap_get imap id = NULL ->
            NULL = imap_get imap id
            /\ imap_okb imap = true
            /\ imap_len imap = imap_len imap - (if NULL =? NULL then 0 else 1)
            /\ (NULL = NULL -> imap = imap)
            /\ forall k, is_uint64 k ->
                 imap_get imap k = if k =? id then NULL else imap_get imap k).
  { intros E. split; [congruence|]. split; [exact Hok|].
    split; [change (NULL =? NULL) with true; cbv iota; lia|]. split; [reflexivity|].
    intros k Hk. destruct (Z.eqb_spec k id) as [->|Hne]; [exact E|reflexivity]. }
  assert (Hkeep : forall v nd',
            v <> NULL -> v = imap_get imap id -> node_okb nd' = true ->
            (node_weight nd' + 1
             = node_weight (slot (imap_nodes imap) (id mod IMAP_NODE_SZ)))%nat ->
            (forall k, key_below (S IMAP_DEPTH) k ->
               k mod IMAP_NODE_SZ = id mod IMAP_NODE_SZ ->
               (if k / IMAP_NODE_SZ =? 0 then nd_data nd'
                else IMAP_get IMAP_DEPTH nd' (k / IMAP_NODE_SZ - 1))
               = if k =? id then NULL
                 else if k / IMAP_NODE_SZ =? 0
                      then nd_data (slot (imap_nodes imap) (id mod IMAP_NODE_SZ))
                      else IMAP_get IMAP_DEPTH (slot (imap_nodes imap) (id mod IMAP_NODE_SZ))
                             (k / IMAP_NODE_SZ - 1)) ->
            let imap' := mk_imap (wrap64 (imap_len imap - 1))
                           (set_slot (imap_nodes imap) (id mod IMAP_NODE_SZ) nd') in
            v = imap_get imap id
            /\ imap_okb imap' = true
            /\ imap_len imap' = imap_len imap - 1
            /\ (v = NULL -> imap' = imap)
            /\ forall k, is_uint64 k ->
                 imap_get imap' k = if k =? id then NULL else imap_get imap k).
  { intros v nd' Hv Hvget Hok' Hw Hg.
    destruct (pop_slot_ok IMAP_DEPTH NULL (imap_nodes imap) (imap_len imap) id nd'
                Hok Hkb Hok' Hw Hg) as (Hsz & Hok2 & Hg2).
    cbv zeta. rewrite wrap64_small by lia.
    split; [exact Hvget|]. split; [exact Hok2|].
    split; [reflexivity|]. split; [contradiction|].
    intros k Hk. apply (Hg2 k), key_below_root, Hk. }
  unfold imap_pop.
  set (nd := slot (imap_nodes imap) (id mod IMAP_NODE_SZ)) in *.
  destruct (Z.eqb_spec (id / IMAP_NODE_SZ) 0) as [Hq|Hq].
  - destruct (Z.eqb_spec (nd_data nd) NULL) as [Hd|Hd].
    + rewrite Hd. apply Hnull. congruence.
    + destruct (Z.eqb_spec (nd_data nd) NULL) as [|_]; [contradiction|].
      apply Hkeep.
      * exact Hd.
      * congruence.
      * rewrite node_okb_set_data. exact Hnd.
      * rewrite node_weight_set_null, (node_weight_eq nd).
        destruct (Z.eqb_spec (nd_data nd) NULL); [contradiction|lia].
      * intros k Hk Hm. rewrite IMAP_get_set_data. simpl nd_data.
        destruct (Z.eqb_spec (k / IMAP_NODE_SZ) 0) as [Hkq|Hkq];
          destruct (Z.eqb_spec k id) as [->|Hne]; try reflexivity; try contradiction.
        exfalso. apply Hne, key_split; [exact Hm|lia].
  - pose proof (key_below_uint64 _ Hid Hq) as Hid'.
    pose proof (IMAP_pop_ok IMAP_DEPTH nd (id / IMAP_NODE_SZ - 1) Hnd Hid') as Hpop.
    assert (Hpost : pop_post IMAP_DEPTH nd (id / IMAP_NODE_SZ - 1)
              (match nd_nodes nd with
               | None => (NULL, nd)
               | Some _ => IMAP_pop IMAP_DEPTH nd (id / IMAP_NODE_SZ - 1)
               end)).
    { destruct (nd_nodes nd) eqn:E; [exact Hpop|].
      assert (Hg0 : forall k, IMAP_get IMAP_DEPTH nd k = NULL)
        by (intros k; apply IMAP_get_no_nodes; exact E).
      unfold pop_post. rewrite !Hg0. change (NULL =? NULL) with true. cbv iota.
      split; [reflexivity|]. split; [reflexivity|]. split; [exact Hnd|].
      split; [lia|]. split; [reflexivity|].
      intros k _. rewrite !Hg0. destruct (k =? _); reflexivity. }
    clear Hpop. unfold pop_post in Hpost.
    destruct (match nd_nodes nd with
              | None => (NULL, nd)
              | Some _ => IMAP_pop IMAP_DEPTH nd (id / IMAP_NODE_SZ - 1)
              end) as [v nd'].
    destruct Hpost as (Hv & Hd' & Hok' & Hs & Hsame & Hg).
    destruct (Z.eqb_spec v NULL) as [Hvn|Hvn].
    + rewrite (Hsame Hvn). unfold nd. rewrite set_slot_same.
      rewrite Z.sub_0_r, wrap64_small by exact Hlen.
      rewrite Hvn. replace (mk_imap (imap_len imap) (imap_nodes imap)) with imap
        by (destruct imap; reflexivity).
      destruct (Hnull ltac:(congruence)) as (H1 & H2 & _ & H4 & H5).
      split; [exact H1|]. split; [exact H2|]. split; [reflexivity|].
      split; [exact H4|exact H5].
    + apply Hkeep; try assumption.
      * congruence.
      * rewrite (node_okb_count _ Hnd), (node_okb_count _ Hok') in Hs.
        unfold node_count in Hs. rewrite !node_weight_eq, Hd'. lia.
      * intros k Hkb' Hm. rewrite Hd'.
        destruct (Z.eqb_spec (k / IMAP_NODE_SZ) 0) as [Hkq|Hkq].
        -- destruct (Z.eqb_spec k id) as [->|Hne]; [contradiction|reflexivity].
        -- rewrite (Hg _ (key_below_next _ _ Hkb' Hkq)).
           destruct (Z.eqb_spec k id) as [->|Hne].
           ++ rewrite Z.eqb_refl. reflexivity.
           ++ destruct (Z.eqb_spec (k / IMAP_NODE_SZ - 1) (id / IMAP_NODE_SZ - 1));
                [|reflexivity].
              exfalso. apply Hne, key_split; [exact Hm|lia].
Qed.

(** * The claims of the specification *)

(** ** Return code of [imap_add] *)

(** C1 (the code departs from the claim): for a key below 32 [imap_add]
    returns 0, the code for "overwritten", also when the key was not in the
    map and the count has just been incremented; the header comment of
    [imap_add] and the recursive [IMAP_add] promise 1 for a new key. *)
Theorem imap_add_new_small_key_rc imap id data h :
  0 <= id < IMAP_NODE_SZ -> imap_get imap id = NULL ->
  let '(rc, imap', _) := imap_add imap id data h in
  rc = RC_OVERWRITTEN /\ imap_len imap' = wrap64 (imap_len imap + 1).
Proof.
  intros Hid Hget. unfold imap_get, imap_add in *.
  rewrite Z.div_small in * by exact Hid. simpl (0 =? 0) in *. cbv iota in *.
  rewrite Hget. split; reflexivity.
Qed.

Lemma imap_add_new_small_key_rc_witness :
  let '(rc, imap', _) := imap_add imap_empty 0 7 [] in
  rc = RC_OVERWRITTEN /\ imap_len imap' = wrap64 (imap_len imap_empty + 1).
Proof.
  apply (imap_add_new_small_key_rc imap_empty 0 7 []); [unfold IMAP_NODE_SZ; lia|reflexivity].
Defined.

(** For keys of two digits or more the return code is -1 or the promised
    one. *)
Lemma imap_add_rc_cases imap id data h :
  imap_okb imap = true -> is_uint64 id -> IMAP_NODE_SZ <= id -> data <> NULL ->
  imap_len imap + 1 < SIZE_MOD ->
  let rc := fst (fst (imap_add imap id data h)) in
  rc = RC_ERR_ALLOC \/ rc = if imap_get imap id =? NULL then RC_INSERTED else RC_OVERWRITTEN.
Proof.
  intros Hok Hid Hge Hdata Hmax.
  pose proof (imap_add_ok imap id data h Hok Hid Hdata Hmax) as H.
  destruct (imap_add imap id data h) as [[rc imap'] h']. simpl.
  destruct H as (_ & [(-> & _)|(-> & _)]); [left; reflexivity|right].
  destruct (Z.eqb_spec (id / IMAP_NODE_SZ) 0) as [Hq|Hq]; [|reflexivity].
  apply Z.div_small_iff in Hq; unfold IMAP_NODE_SZ in *; lia.
Qed.

(** ** Pop after add *)

(** C6: on a well-formed map, after a successful [imap_add] of a non-null
    value, [imap_pop] of the key returns that value, the key is then absent
    and the count is one less; and [imap_pop] of an absent key returns NULL
    and leaves the map, count included, as it was. *)
Theorem imap_pop_after_add imap id id' data h rc imap1 h1 :
  imap_okb imap = true -> is_uint64 id -> is_uint64 id' -> data <> NULL ->
  imap_len imap + 1 < SIZE_MOD ->
  imap_add imap id data h = (rc, imap1, h1) -> rc <> RC_ERR_ALLOC ->
  imap_get imap id' = NULL ->
  (let '(v, imap2) := imap_pop imap1 id in
   v = data /\ imap_get imap2 id = NULL /\ imap_len imap2 = imap_len imap1 - 1)
  /\ imap_pop imap id' = (NULL, imap).
Proof.
  intros Hok Hid Hid' Hdata Hmax Hadd Hrc Hget. split.
  - pose proof (imap_add_ok imap id data h Hok Hid Hdata Hmax) as H.
    rewrite Hadd in H. destruct H as (Hok1 & [(-> & _)|(_ & _ & Hg)]); [contradiction|].
    pose proof (imap_pop_ok imap1 id Hok1 Hid) as Hp.
    destruct (imap_pop imap1 id) as [v imap2].
    destruct Hp as (Hv & _ & Hlen & _ & Hg2).
    rewrite (Hg id Hid), Z.eqb_refl in Hv. subst v.
    split; [reflexivity|]. split.
    + rewrite (Hg2 id Hid), Z.eqb_refl. reflexivity.
    + rewrite Hlen. destruct (Z.eqb_spec data NULL); [contradiction|reflexivity].
  - pose proof (imap_pop_ok imap id' Hok Hid') as Hp.
    destruct (imap_pop imap id') as [v imap'].
    destruct Hp as (Hv & _ & _ & Hsame & _).
    rewrite Hget in Hv. subst v. rewrite (Hsame eq_refl). reflexivity.
Qed.

Lemma imap_pop_after_add_witness :
  (let '(v, imap2) := imap_pop (snd (fst (imap_add imap_empty 1056 7 []))) 1056 in
   v = 7 /\ imap_get imap2 1056 = NULL
   /\ imap_len imap2 = imap_len (snd (fst (imap_add imap_empty 1056 7 []))) - 1)
  /\ imap_pop imap_empty 33 = (NULL, imap_empty).
Proof.
  apply (imap_pop_after_add imap_empty 1056 33 7 []
           (fst (fst (imap_add imap_empty 1056 7 []))) _
           (snd (imap_add imap_empty 1056 7 []))).
  - reflexivity.
  - unfold is_uint64. lia.
  - unfold is_uint64. lia.
  - unfold NULL. lia.
  - vm_compute. reflexivity.
  - vm_compute. reflexivity.
  - vm_compute. discriminate.
  - reflexivity.
Defined.

(** ** Two keys *)

(** C7: on a well-formed map, after successful [imap_add]s of non-null
    values under two distinct 64-bit keys, each key looks up its own
    value. *)
Theorem imap_get_after_two_adds imap k1 k2 v1 v2 h rc1 imap1 h1 rc2 imap2 h2 :
  imap_okb imap = true -> is_uint64 k1 -> is_uint64 k2 -> k1 <> k2 ->
  v1 <> NULL -> v2 <> NULL -> imap_len imap + 2 < SIZE_MOD ->
  imap_add imap k1 v1 h = (rc1, imap1, h1) -> rc1 <> RC_ERR_ALLOC ->
  imap_add imap1 k2 v2 h1 = (rc2, imap2, h2) -> rc2 <> RC_ERR_ALLOC ->
  imap_get imap2 k1 = v1 /\ imap_get imap2 k2 = v2.
Proof.
  intros Hok Hk1 Hk2 Hne Hv1 Hv2 Hmax Hadd1 Hrc1 Hadd2 Hrc2.
  pose proof (imap_add_ok imap k1 v1 h Hok Hk1 Hv1 ltac:(lia)) as H1.
  rewrite Hadd1 in H1.
  destruct H1 as (Hok1 & [(-> & _)|(_ & Hlen1 & Hg1)]); [contradiction|].
  assert (Hmax1 : imap_len imap1 + 1 < SIZE_MOD).
  { rewrite Hlen1. destruct (imap_get imap k1 =? NULL); lia. }
  pose proof (imap_add_ok imap1 k2 v2 h1 Hok1 Hk2 Hv2 Hmax1) as H2.
  rewrite Hadd2 in H2.
  destruct H2 as (_ & [(-> & _)|(_ & _ & Hg2)]); [contradiction|].
  rewrite (Hg2 k1 Hk1), (Hg2 k2 Hk2), (Hg1 k1 Hk1), !Z.eqb_refl.
  destruct (Z.eqb_spec k1 k2); [contradiction|]. split; reflexivity.
Qed.

Lemma imap_get_after_two_adds_witness :
  imap_get (snd (fst (imap_add (snd (fst (imap_add imap_empty (2 ^ 64 - 1) 7 [])))
                        (2 ^ 64 - 2) 8 []))) (2 ^ 64 - 1) = 7
  /\ imap_get (snd (fst (imap_add (snd (fst (imap_add imap_empty (2 ^ 64 - 1) 7 [])))
                        (2 ^ 64 - 2) 8 []))) (2 ^ 64 - 2) = 8.
Proof.
  apply (imap_get_after_two_adds imap_empty (2 ^ 64 - 1) (2 ^ 64 - 2) 7 8 []
           (fst (fst (imap_add imap_empty (2 ^ 64 - 1) 7 [])))
           (snd (fst (imap_add imap_empty (2 ^ 64 - 1) 7 [])))
           (snd (imap_add imap_empty (2 ^ 64 - 1) 7 []))
           (fst (fst (imap_add (snd (fst (imap_add imap_empty (2 ^ 64 - 1) 7 [])))
                        (2 ^ 64 - 2) 8 (snd (imap_add imap_empty (2 ^ 64 - 1) 7 [])))))
           _
           (snd (imap_add (snd (fst (imap_add imap_empty (2 ^ 64 - 1) 7 [])))
                        (2 ^ 64 - 2) 8 (snd (imap_add imap_empty (2 ^ 64 - 1) 7 []))))).
  - reflexivity.
  - unfold is_uint64. lia.
  - unfold is_uint64. lia.
  - lia.
  - unfold NULL. lia.
  - unfold NULL. lia.
  - vm_compute. reflexivity.
  - vm_compute. reflexivity.
  - vm_compute. discriminate.
  - vm_compute. reflexivity.
  - vm_compute. discriminate.
Defined.

(** ** The count *)

(** Sequences of [imap_add] and [imap_pop] calls on one map. *)
Inductive imap_op : Type :=
| OpAdd (id : Z) (data : ptr)
| OpPop (id : Z).

(** The calls the interface allows: 64-bit keys, no NULL value. *)
Definition op_okb (o : imap_op) : bool :=
  match o with
  | OpAdd id data => (0 <=? id) && (id <? 2 ^ 64) && negb (data =? NULL)
  | OpPop id => (0 <=? id) && (id <? 2 ^ 64)
  end.

(** Running the calls in order; [None] when an [imap_add] fails. *)
Fixpoint imap_run (ops : list imap_op) (imap : imap_t) (h : heap) : option imap_t :=
  match ops with
  | [] => Some imap
  | OpAdd id data :: ops' =>
    let '(rc, imap', h') := imap_add imap id data h in
    if rc <? 0 then None else imap_run ops' imap' h'
  | OpPop id :: ops' => imap_run ops' (snd (imap_pop imap id)) h
  end.

(** The keys whose most recent call is an [imap_add]. *)
Definition live_step (s : gset Z) (o : imap_op) : gset Z :=
  match o with
  | OpAdd id _ => {[id]} ∪ s
  | OpPop id => s ∖ {[id]}
  end.

Definition live_keys (ops : list imap_op) : gset Z := fold_left live_step ops ∅.

Definition op_key (o : imap_op) : Z :=
  match o with OpAdd id _ => id | OpPop id => id end.

Definition is_add (o : imap_op) : bool :=
  match o with OpAdd _ _ => true | OpPop _ => false end.

(** Whether the last call on key [k], if any, is an [imap_add]. *)
Definition last_is_add (k : Z) (ops : list imap_op) : bool :=
  fold_left (fun b o => if op_key o =? k then is_add o else b) ops false.

Lemma live_keys_last ops k : k ∈ live_keys ops <-> last_is_add k ops = true.
Proof.
  unfold live_keys, last_is_add.
  assert (H : forall (s : gset Z) b, (k ∈ s <-> b = true) ->
            (k ∈ fold_left live_step ops s
             <-> fold_left (fun b o => if op_key o =? k then is_add o else b) ops b = true)).
  { induction ops as [|o ops IH]; intros s b Hsb; [exact Hsb|].
    simpl. apply IH.
    destruct o as [id d|id]; simpl; destruct (Z.eqb_spec id k) as [->|Hne].
    - split; [reflexivity|]. intros _. set_solver.
    - rewrite <- Hsb. set_solver.
    - split; [set_solver|discriminate].
    - rewrite <- Hsb. set_solver. }
  apply H. split; [set_solver|discriminate].
Qed.

Lemma op_okb_add id data :
  op_okb (OpAdd id data) = true <-> is_uint64 id /\ data <> NULL.
Proof.
  unfold op_okb, is_uint64.
  rewrite !andb_true_iff, negb_true_iff, Z.leb_le, Z.ltb_lt, Z.eqb_neq. tauto.
Qed.

Lemma op_okb_pop id : op_okb (OpPop id) = true <-> is_uint64 id.
Proof.
  unfold op_okb, is_uint64. rewrite !andb_true_iff, Z.leb_le, Z.ltb_lt. tauto.
Qed.

(** The map and the set of live keys stay in step. *)
Definition tracks (imap : imap_t) (s : gset Z) : Prop :=
  imap_okb imap = true
  /\ imap_len imap = Z.of_nat (size s)
  /\ (forall k, k ∈ s -> is_uint64 k)
  /\ (forall k, is_uint64 k -> (imap_get imap k <> NULL <-> k ∈ s)).

Lemma tracks_empty : tracks imap_empty ∅.
Proof.
  split; [reflexivity|]. split; [reflexivity|]. split; [set_solver|].
  intros k Hk. split; [|set_solver].
  intros H. exfalso. apply H.
  rewrite imap_get_root. apply IMAP_get_empty; [reflexivity|apply key_below_root, Hk|reflexivity].
Qed.

Lemma tracks_run ops : forall imap h s imap',
  tracks imap s -> forallb op_okb ops = true ->
  imap_len imap + Z.of_nat (length ops) < SIZE_MOD ->
  imap_run ops imap h = Some imap' ->
  tracks imap' (fold_left live_step ops s).
Proof.
  induction ops as [|o ops IH]; intros imap h s imap' Ht Hops Hmax Hrun.
  - simpl in Hrun. injection Hrun as <-. exact Ht.
  - simpl in Hops. apply andb_true_iff in Hops as [Ho Hops].
    destruct Ht as (Hok & Hlen & Hdom & Hget).
    simpl length in Hmax. simpl fold_left.
    destruct o as [id data|id]; simpl in Hrun; cbn [live_step].
    + apply op_okb_add in Ho as [Hid Hdata].
      pose proof (imap_add_ok imap id data h Hok Hid Hdata ltac:(lia)) as Hadd.
      destruct (imap_add imap id data h) as [[rc imap1] h1].
      destruct Hadd as (Hok1 & [(-> & _)|(_ & Hlen1 & Hg1)]); [discriminate|].
      destruct (rc <? 0); [discriminate|].
      apply (IH imap1 h1); [|exact Hops| |exact Hrun].
      * split; [exact Hok1|]. split; [|split].
        -- rewrite Hlen1, Hlen.
           destruct (Z.eqb_spec (imap_get imap id) NULL) as [E|E].
           ++ assert (id ∉ s) by (intros Hin; apply (Hget id Hid) in Hin; contradiction).
              rewrite size_union by set_solver. rewrite size_singleton. lia.
           ++ apply (Hget id Hid) in E.
              replace ({[id]} ∪ s) with s by set_solver. lia.
        -- intros k Hk. apply elem_of_union in Hk as [Hk|Hk]; [|auto].
           apply elem_of_singleton in Hk. subst k. exact Hid.
        -- intros k Hk. rewrite (Hg1 k Hk).
           destruct (Z.eqb_spec k id) as [->|Hne].
           ++ split; [set_solver|auto].
           ++ rewrite (Hget k Hk). set_solver.
      * rewrite Hlen1. destruct (imap_get imap id =? NULL); lia.
    + apply op_okb_pop in Ho as Hid.
      pose proof (imap_pop_ok imap id Hok Hid) as Hpop.
      destruct (imap_pop imap id) as [v imap1]. simpl in Hrun.
      destruct Hpop as (Hv & Hok1 & Hlen1 & _ & Hg1).
      assert (Hsz : Z.of_nat (size (s ∖ {[id]}))
                    = Z.of_nat (size s) - (if v =? NULL then 0 else 1)).
      { destruct (Z.eqb_spec v NULL) as [E|E].
        - assert (id ∉ s).
          { intros Hin. apply (Hget id Hid) in Hin. congruence. }
          replace (s ∖ {[id]}) with s by set_solver. lia.
        - assert (id ∈ s) by (apply (Hget id Hid); congruence).
          assert (Hs : s = {[id]} ∪ s ∖ {[id]}).
          { apply set_eq. intros x. rewrite elem_of_union, elem_of_difference,
              elem_of_singleton. destruct (decide (x = id)); subst; tauto. }
          assert (Hsz : size s = size ({[id]} ∪ s ∖ {[id]})) by (rewrite <- Hs; reflexivity).
          rewrite size_union, size_singleton in Hsz by set_solver. lia. }
      apply (IH imap1 h); [|exact Hops| |exact Hrun].
      * split; [exact Hok1|]. split; [lia|]. split; [set_solver|].
        intros k Hk. rewrite (Hg1 k Hk).
        destruct (Z.eqb_spec k id) as [->|Hne].
        -- split; [congruence|set_solver].
        -- rewrite (Hget k Hk). set_solver.
      * rewrite Hlen1. destruct (v =? NULL); lia.
Qed.

(** C2: after any sequence of [imap_add] and [imap_pop] calls on a new map
    in which every [imap_add] succeeded, [len] is the number of distinct
    keys whose most recent call is an [imap_add], and it is the number of
    values stored in the tree. *)
Theorem imap_len_counts_live_keys ops h imap :
  forallb op_okb ops = true ->
  Z.of_nat (length ops) < SIZE_MOD ->
  imap_run ops imap_empty h = Some imap ->
  imap_len imap = Z.of_nat (size (live_keys ops))
  /\ imap_len imap = imap_count imap
  /\ forall k, k ∈ live_keys ops <-> last_is_add k ops = true.
Proof.
  intros Hops Hmax Hrun.
  destruct (tracks_run ops imap_empty h ∅ imap tracks_empty Hops Hmax Hrun)
    as (Hok & Hlen & _).
  split; [exact Hlen|]. split; [apply imap_okb_len, Hok|].
  intros k. apply live_keys_last.
Qed.

Lemma imap_len_counts_live_keys_witness :
  imap_len (snd (fst (imap_add (snd (imap_pop (snd (fst (imap_add
              (snd (fst (imap_add imap_empty 5 7 []))) 1056 8 []))) 5)) 1056 9 [])))
  = Z.of_nat (size (live_keys [OpAdd 5 7; OpAdd 1056 8; OpPop 5; OpAdd 1056 9]))
  /\ imap_len (snd (fst (imap_add (snd (imap_pop (snd (fst (imap_add
              (snd (fst (imap_add imap_empty 5 7 []))) 1056 8 []))) 5)) 1056 9 [])))
     = imap_count (snd (fst (imap_add (snd (imap_pop (snd (fst (imap_add
              (snd (fst (imap_add imap_empty 5 7 []))) 1056 8 []))) 5)) 1056 9 [])))
  /\ forall k, k ∈ live_keys [OpAdd 5 7; OpAdd 1056 8; OpPop 5; OpAdd 1056 9]
       <-> last_is_add k [OpAdd 5 7; OpAdd 1056 8; OpPop 5; OpAdd 1056 9] = true.
Proof.
  apply (imap_len_counts_live_keys [OpAdd 5 7; OpAdd 1056 8; OpPop 5; OpAdd 1056 9] []).
  - reflexivity.
  - vm_compute. reflexivity.
  - vm_compute. reflexivity.
Defined.

(** ** Traversals visit the stored values in order *)

Definition node_values (node : imap_node) : list ptr := map snd (node_entries node).

Lemma values_loop_cons i nd arr :
  map snd (entries_loop node_entries i (nd :: arr))
  = (if nd_data nd =? NULL then [] else [nd_data nd])
    ++ node_values nd ++ map snd (entries_loop node_entries (i + 1) arr).
Proof.
  rewrite entries_loop_cons, !map_app, map_map. unfold own_entry, node_values.
  destruct (nd_data nd =? NULL); reflexivity.
Qed.

Lemma node_values_none nd : nd_nodes nd = None -> node_values nd = [].
Proof. destruct nd as [d [arr|] sz]; [discriminate|reflexivity]. Qed.

Section Visits.
Context {A : Type}.
Variable cb : ptr -> A -> Z * A.

(** The callback invoked on the values of a list, in order. *)
Definition visit (vals : list ptr) (a : A) : A :=
  fold_left (fun a v => snd (cb v a)) vals a.

(** The same with the sum of [imap_walk]. *)
Definition walk_values (vals : list ptr) (st : Z * A) : Z * A :=
  fold_left
    (fun st v => let '(r, a) := cb v (snd st) in (wrap_int (fst st + r), a))
    vals st.

(** The same with the budget of [imap_walkn]: a value is visited only while
    the budget is not zero. *)
Definition walkn_values (vals : list ptr) (st : Z * A) : Z * A :=
  fold_left
    (fun st v =>
       if fst st =? 0 then st
       else let '(r, a) := cb v (snd st) in (wrap64 (fst st - r), a))
    vals st.

Lemma walkn_values_zero vals st : fst st = 0 -> walkn_values vals st = st.
Proof.
  revert st. induction vals as [|v vals IH]; intros st H; [reflexivity|].
  simpl. rewrite H. simpl. apply IH, H.
Qed.

Lemma walkn_values_app l1 l2 st :
  walkn_values (l1 ++ l2) st = walkn_values l2 (walkn_values l1 st).
Proof. apply fold_left_app. Qed.

Lemma walk_values_app l1 l2 st :
  walk_values (l1 ++ l2) st = walk_values l2 (walk_values l1 st).
Proof. apply fold_left_app. Qed.

Lemma walk_loop_values arr : forall i st,
  Forall (fun nd => forall st, IMAP_walk cb nd st = walk_values (node_values nd) st) arr ->
  walk_loop cb (IMAP_walk cb) arr st
  = walk_values (map snd (entries_loop node_entries i arr)) st.
Proof.
  induction arr as [|nd arr IH]; intros i st Hall; [reflexivity|].
  apply Forall_cons in Hall as [Hnd Hall].
  rewrite values_loop_cons, !walk_values_app.
  unfold walk_loop in *. simpl fold_left. rewrite (IH (i + 1)) by exact Hall.
  f_equal.
  destruct (nd_data nd =? NULL).
  - simpl. destruct (nd_nodes nd) eqn:E; [apply Hnd|].
    rewrite node_values_none by exact E. reflexivity.
  - simpl. destruct (cb (nd_data nd) (snd st)) as [r a].
    destruct (nd_nodes nd) eqn:E; [apply Hnd|].
    rewrite node_values_none by exact E. reflexivity.
Qed.

Lemma IMAP_walk_values node : forall st,
  IMAP_walk cb node st = walk_values (node_values node) st.
Proof.
  induction node as [d sz|d arr sz IH] using imap_node_ind; intros st; [reflexivity|].
  apply (walk_loop_values arr 0 st IH).
Qed.

Lemma walkn_loop_values arr : forall i st,
  Forall (fun nd => forall st, IMAP_walkn cb nd st = walkn_values (node_values nd) st) arr ->
  walkn_loop cb (IMAP_walkn cb) arr st
  = walkn_values (map snd (entries_loop node_entries i arr)) st.
Proof.
  induction arr as [|nd arr IH]; intros i st Hall; [reflexivity|].
  apply Forall_cons in Hall as [Hnd Hall].
  rewrite values_loop_cons, !walkn_values_app.
  unfold walkn_loop in *. simpl fold_left. rewrite (IH (i + 1)) by exact Hall.
  f_equal.
  destruct (Z.eqb_spec (fst st) 0) as [Hz|Hz].
  - rewrite !walkn_values_zero; try reflexivity; try exact Hz.
    rewrite walkn_values_zero; exact Hz.
  - destruct (nd_data nd =? NULL).
    + simpl. destruct (nd_nodes nd) eqn:E; [apply Hnd|].
      rewrite node_values_none by exact E. reflexivity.
    + simpl. destruct (Z.eqb_spec (fst st) 0); [contradiction|].
      destruct (cb (nd_data nd) (snd st)) as [r a]. simpl.
      destruct (Z.eqb_spec (wrap64 (fst st - r)) 0) as [Hw|Hw].
      * rewrite walkn_values_zero; [reflexivity|exact Hw].
      * destruct (nd_nodes nd) eqn:E; [apply Hnd|].
        rewrite node_values_none by exact E. reflexivity.
Qed.

Lemma IMAP_walkn_values node : forall st,
  IMAP_walkn cb node st = walkn_values (node_values node) st.
Proof.
  induction node as [d sz|d arr sz IH] using imap_node_ind; intros st; [reflexivity|].
  apply (walkn_loop_values arr 0 st IH).
Qed.

Lemma imap_okb_empty imap :
  imap_okb imap = true -> imap_len imap = 0 -> imap_values imap = [].
Proof.
  intros Hok Hz. destruct (imap_okb_len _ Hok) as [Hc _].
  unfold imap_values, imap_count in *.
  destruct (imap_entries imap); [reflexivity|simpl in Hc; lia].
Qed.

Lemma imap_walk_values imap a :
  imap_okb imap = true ->
  imap_walk cb imap a = walk_values (imap_values imap) (0, a).
Proof.
  intros Hok. unfold imap_walk.
  destruct (Z.eqb_spec (imap_len imap) 0) as [Hz|Hz].
  - rewrite (imap_okb_empty _ Hok Hz). reflexivity.
  - apply walk_loop_values. apply Forall_forall. intros nd _. apply IMAP_walk_values.
Qed.

Lemma imap_walkn_values imap n a :
  imap_okb imap = true ->
  imap_walkn cb imap n a = walkn_values (imap_values imap) (n, a).
Proof.
  intros Hok. unfold imap_walkn.
  destruct (Z.eqb_spec (imap_len imap) 0) as [Hz|Hz].
  - rewrite (imap_okb_empty _ Hok Hz). reflexivity.
  - apply walkn_loop_values. apply Forall_forall. intros nd _. apply IMAP_walkn_values.
Qed.

Lemma walk_values_visit vals : forall st,
  snd (walk_values vals st) = visit vals (snd st).
Proof.
  induction vals as [|v vals IH]; intros st; [reflexivity|].
  simpl. rewrite IH. destruct (cb v (snd st)); reflexivity.
Qed.
End Visits.

(** ** The bounded walk *)

Section Budget.
Context {A : Type}.
Variable cb : ptr -> A -> Z * A.

Lemma walkn_values_cons v vals st :
  walkn_values cb (v :: vals) st
  = walkn_values cb vals
      (if fst st =? 0 then st
       else let '(r, a) := cb v (snd st) in (wrap64 (fst st - r), a)).
Proof. reflexivity. Qed.

Lemma visit_cons v vals a : visit cb (v :: vals) a = visit cb vals (snd (cb v a)).
Proof. reflexivity. Qed.

Lemma walkn_values_unit vals : forall n a,
  (forall v a, fst (cb v a) = 1) -> 0 <= n < SIZE_MOD ->
  walkn_values cb vals (n, a)
  = (n - Z.min n (Z.of_nat (length vals)),
     visit cb (firstn (Z.to_nat (Z.min n (Z.of_nat (length vals)))) vals) a).
Proof.
  induction vals as [|v vals IH]; intros n a Hcb Hn.
  - simpl. rewrite Z.min_r by lia. rewrite Z.sub_0_r. reflexivity.
  - destruct (Z.eq_dec n 0) as [->|Hnz].
    + rewrite walkn_values_zero by reflexivity. rewrite Z.min_l by lia. reflexivity.
    + rewrite walkn_values_cons. cbn [fst snd].
      destruct (Z.eqb_spec n 0); [contradiction|].
      pose proof (Hcb v a) as Hr. destruct (cb v a) as [r a'] eqn:Ecb.
      cbn [fst] in Hr. subst r. rewrite wrap64_small by lia.
      rewrite IH by (try assumption; lia).
      replace (Z.min n (Z.of_nat (length (v :: vals))))
        with (1 + Z.min (n - 1) (Z.of_nat (length vals))) by (simpl length; lia).
      rewrite Z2Nat.inj_add by lia. change (Z.to_nat 1) with 1%nat.
      cbn [Nat.add firstn]. rewrite visit_cons, Ecb. cbn [snd].
      f_equal. lia.
Qed.

Lemma walkn_values_nonzero vals : forall st,
  fst (walkn_values cb vals st) <> 0 ->
  snd (walkn_values cb vals st) = visit cb vals (snd st).
Proof.
  induction vals as [|v vals IH]; intros st Hnz; [reflexivity|].
  rewrite walkn_values_cons in *. rewrite visit_cons.
  destruct (Z.eqb_spec (fst st) 0) as [Hz|Hz].
  - exfalso. apply Hnz. rewrite walkn_values_zero; assumption.
  - destruct (cb v (snd st)) as [r a']. rewrite (IH _ Hnz). reflexivity.
Qed.
End Budget.

(** C8: on a well-formed map, with a callback that returns 1 on every
    call, [imap_walkn] with budget [n] invokes the callback on the first
    [min n len] values in the order in which [imap_walk] visits all of
    them, and leaves the rest of the budget. *)
Theorem imap_walkn_unit_callback {A : Type} (cb : ptr -> A -> Z * A) imap n a :
  imap_okb imap = true -> 0 <= n < SIZE_MOD ->
  (forall v a, fst (cb v a) = 1) ->
  imap_walkn cb imap n a
  = (n - Z.min n (imap_len imap),
     visit cb (firstn (Z.to_nat (Z.min n (imap_len imap))) (imap_values imap)) a)
  /\ Z.of_nat (length (firstn (Z.to_nat (Z.min n (imap_len imap))) (imap_values imap)))
     = Z.min n (imap_len imap)
  /\ snd (imap_walk cb imap a) = visit cb (imap_values imap) a.
Proof.
  intros Hok Hn Hcb.
  destruct (imap_okb_len _ Hok) as [Hlen _].
  assert (Hl : imap_len imap = Z.of_nat (length (imap_values imap))).
  { rewrite Hlen. unfold imap_count, imap_values. rewrite length_map. reflexivity. }
  split; [|split].
  - rewrite imap_walkn_values by exact Hok. rewrite Hl.
    apply walkn_values_unit; assumption.
  - rewrite length_firstn. lia.
  - rewrite imap_walk_values by exact Hok. apply walk_values_visit.
Qed.

Lemma imap_walkn_unit_callback_witness :
  let imap := snd (fst (imap_add (snd (fst (imap_add (snd (fst (imap_add imap_empty
                1056 7 []))) 1 8 []))) 2 9 [])) in
  let cb := fun (v : ptr) (a : list ptr) => (1, a ++ [v]) in
  imap_walkn cb imap 2 []
  = (2 - Z.min 2 (imap_len imap),
     visit cb (firstn (Z.to_nat (Z.min 2 (imap_len imap))) (imap_values imap)) [])
  /\ Z.of_nat (length (firstn (Z.to_nat (Z.min 2 (imap_len imap))) (imap_values imap)))
     = Z.min 2 (imap_len imap)
  /\ snd (imap_walk cb imap []) = visit cb (imap_values imap) [].
Proof.
  apply (imap_walkn_unit_callback (fun (v : ptr) (a : list ptr) => (1, a ++ [v]))).
  - vm_compute. reflexivity.
  - unfold SIZE_MOD. lia.
  - reflexivity.
Defined.

Lemma walkn_values_range {A : Type} (cb : ptr -> A -> Z * A) vals : forall st,
  0 <= fst st < SIZE_MOD -> 0 <= fst (walkn_values cb vals st) < SIZE_MOD.
Proof.
  induction vals as [|v vals IH]; intros st Hst; [exact Hst|].
  rewrite walkn_values_cons. apply IH.
  destruct (fst st =? 0); [exact Hst|].
  destruct (cb v (snd st)) as [r a]. cbn [fst]. apply Z.mod_pos_bound. reflexivity.
Qed.

(** C10: the budget of [imap_walkn] is a [size_t].  Wherever in the walk
    the callback returns more than what is left of the budget, the
    subtraction wraps to that difference plus 2^64, which is not zero, and
    the walk goes on: the callback is invoked on the next value with the
    wrapped budget.  The walk ends early only at a budget of exactly zero:
    once the budget is zero no further value is visited, and a walk that
    ends with a budget other than zero has visited every value. *)
Theorem imap_walkn_budget_wraps {A : Type} (cb : ptr -> A -> Z * A) imap n a :
  imap_okb imap = true -> 0 <= n < SIZE_MOD ->
  (forall pre v post m a1 r a2,
      imap_values imap = pre ++ v :: post ->
      walkn_values cb pre (n, a) = (m, a1) -> m <> 0 ->
      cb v a1 = (r, a2) -> m < r < SIZE_MOD ->
      0 < m < SIZE_MOD
      /\ wrap64 (m - r) = m - r + SIZE_MOD
      /\ wrap64 (m - r) <> 0
      /\ imap_walkn cb imap n a = walkn_values cb post (wrap64 (m - r), a2)
      /\ forall v2 post2 r2 a3,
           post = v2 :: post2 -> cb v2 a2 = (r2, a3) ->
           imap_walkn cb imap n a
           = walkn_values cb post2 (wrap64 (wrap64 (m - r) - r2), a3))
  /\ (forall pre post a1,
        imap_values imap = pre ++ post ->
        walkn_values cb pre (n, a) = (0, a1) ->
        imap_walkn cb imap n a = (0, a1))
  /\ (fst (imap_walkn cb imap n a) <> 0 ->
      snd (imap_walkn cb imap n a) = visit cb (imap_values imap) a).
Proof.
  intros Hok Hn. rewrite imap_walkn_values by exact Hok.
  split; [|split].
  - intros pre v post m a1 r a2 Hvals Hpre Hm Hcb Hr.
    pose proof (walkn_values_range cb pre (n, a) Hn) as Hrange.
    rewrite Hpre in Hrange. cbn [fst] in Hrange.
    assert (Hw : wrap64 (m - r) = m - r + SIZE_MOD).
    { unfold wrap64. rewrite <- (Z.mod_add _ 1) by (unfold SIZE_MOD; lia).
      apply Z.mod_small. lia. }
    assert (Hgo : walkn_values cb (imap_values imap) (n, a)
                  = walkn_values cb post (wrap64 (m - r), a2)).
    { rewrite Hvals, walkn_values_app, Hpre, walkn_values_cons. cbn [fst snd].
      destruct (Z.eqb_spec m 0); [contradiction|]. rewrite Hcb. reflexivity. }
    split; [lia|]. split; [exact Hw|]. split; [lia|]. split; [exact Hgo|].
    intros v2 post2 r2 a3 -> Hcb2. rewrite Hgo, walkn_values_cons. cbn [fst snd].
    destruct (Z.eqb_spec (wrap64 (m - r)) 0); [lia|]. rewrite Hcb2. reflexivity.
  - intros pre post a1 Hvals Hpre.
    rewrite Hvals, walkn_values_app, Hpre. apply walkn_values_zero. reflexivity.
  - apply walkn_values_nonzero.
Qed.

(** A callback that returns 1 on the value 7 and 100 on every other value,
    with budget 5 on a map holding 7, 8 and 9: the budget is 4 when the
    walk reaches 8, wraps there and the walk goes on to 9. *)
Lemma imap_walkn_budget_wraps_witness :
  let imap := snd (fst (imap_add (snd (fst (imap_add (snd (fst (imap_add imap_empty
                1056 7 []))) 1 8 []))) 2 9 [])) in
  let cb := fun (v : ptr) (a : list ptr) => (if v =? 7 then 1 else 100, a ++ [v]) in
  (0 < 4 < SIZE_MOD
   /\ wrap64 (4 - 100) = 4 - 100 + SIZE_MOD
   /\ wrap64 (4 - 100) <> 0
   /\ imap_walkn cb imap 5 [] = walkn_values cb [9] (wrap64 (4 - 100), [7; 8])
   /\ imap_walkn cb imap 5 [] = (wrap64 (wrap64 (4 - 100) - 100), [7; 8; 9]))
  /\ (fst (imap_walkn cb imap 5 []) <> 0 ->
      snd (imap_walkn cb imap 5 []) = visit cb (imap_values imap) []).
Proof.
  intros imap cb.
  assert (Hok : imap_okb imap = true) by (vm_compute; reflexivity).
  assert (Hn : 0 <= 5 < SIZE_MOD) by (unfold SIZE_MOD; lia).
  destruct (imap_walkn_budget_wraps cb imap 5 [] Hok Hn) as (Hwrap & _ & Hend).
  split; [|exact Hend].
  assert (Hvals : imap_values imap = [7] ++ 8 :: [9]) by (vm_compute; reflexivity).
  assert (Hpre : walkn_values cb [7] (5, []) = (4, [7])) by (vm_compute; reflexivity).
  assert (Hcb : cb 8 [7] = (100, [7; 8])) by reflexivity.
  assert (Hr : 4 < 100 < SIZE_MOD) by (unfold SIZE_MOD; lia).
  destruct (Hwrap [7] 8 [9] 4 [7] 100 [7; 8] Hvals Hpre ltac:(lia) Hcb Hr)
    as (H1 & H2 & H3 & H4 & H5).
  split; [exact H1|]. split; [exact H2|]. split; [exact H3|]. split; [exact H4|].
  apply (H5 9 [] 100 [7; 8; 9]); reflexivity.
Defined.

(** ** The list of values *)

Lemma slist_loop_values arr : forall i sl,
  Forall (fun nd => forall sl,
            IMAP_2slist nd sl = mk_slist (slist_size sl) (slist_data sl ++ node_values nd)) arr ->
  slist_loop IMAP_2slist arr sl
  = mk_slist (slist_size sl)
      (slist_data sl ++ map snd (entries_loop node_entries i arr)).
Proof.
  induction arr as [|nd arr IH]; intros i sl Hall.
  - simpl. rewrite app_nil_r. destruct sl; reflexivity.
  - apply Forall_cons in Hall as [Hnd Hall].
    rewrite values_loop_cons.
    unfold slist_loop in *. simpl fold_left. rewrite (IH (i + 1)) by exact Hall.
    assert (Hstep : (match nd_nodes nd with
                     | Some _ =>
                       IMAP_2slist nd
                         (if nd_data nd =? NULL then sl else slist_append sl (nd_data nd))
                     | None => if nd_data nd =? NULL then sl else slist_append sl (nd_data nd)
                     end)
                    = mk_slist (slist_size sl)
                        (slist_data sl ++ (if nd_data nd =? NULL then [] else [nd_data nd])
                         ++ node_values nd)).
    { destruct (nd_nodes nd) eqn:E.
      - rewrite Hnd. destruct (nd_data nd =? NULL); simpl; [reflexivity|].
        rewrite <- app_assoc. reflexivity.
      - rewrite (node_values_none _ E), app_nil_r.
        destruct (nd_data nd =? NULL); simpl.
        + rewrite app_nil_r. destruct sl; reflexivity.
        + reflexivity. }
    rewrite Hstep. simpl. rewrite <- !app_assoc. reflexivity.
Qed.

Lemma IMAP_2slist_values node : forall sl,
  IMAP_2slist node sl = mk_slist (slist_size sl) (slist_data sl ++ node_values node).
Proof.
  induction node as [d sz|d arr sz IH] using imap_node_ind; intros sl.
  - simpl. unfold node_values. simpl. rewrite app_nil_r. destruct sl; reflexivity.
  - apply (slist_loop_values arr 0 sl IH).
Qed.

(** No key is listed twice among the stored pairs. *)
Lemma entries_loop_digit k v arr : forall i0,
  0 <= i0 -> i0 + Z.of_nat (length arr) <= IMAP_NODE_SZ ->
  In (k, v) (entries_loop node_entries i0 arr) ->
  i0 <= k mod IMAP_NODE_SZ < i0 + Z.of_nat (length arr)
  /\ (k < IMAP_NODE_SZ \/ exists r nd, In nd arr /\ In (r, v) (node_entries nd)
                                       /\ k = IMAP_NODE_SZ * (r + 1) + k mod IMAP_NODE_SZ).
Proof.
  intros i0 Hi0 Hlen Hin.
  apply entries_loop_In in Hin as (j & nd & Hj & H).
  pose proof (lookup_lt_Some _ _ _ Hj) as Hjlt.
  rewrite own_entry_In, below_key_In in H.
  destruct H as [(-> & _)|(r & -> & Hin)].
  - rewrite Z.mod_small by (unfold IMAP_NODE_SZ in *; lia). split; [lia|left; lia].
  - destruct (key_join r (i0 + Z.of_nat j)) as [Hm _]; [lia|].
    rewrite Hm. split; [lia|]. right. exists r, nd.
    split; [|auto]. apply list_elem_of_In, list_elem_of_lookup. eauto.
Qed.

Lemma NoDup_map_below i (l : list (Z * ptr)) :
  NoDup (map fst l) -> NoDup (map fst (map (below_key i) l)).
Proof.
  induction l as [|[k v] l IH]; simpl; intros Hnd; [constructor|].
  apply NoDup_cons in Hnd as [Hnotin Hnd].
  apply NoDup_cons. split; [|apply IH, Hnd].
  intros Hin. apply Hnotin.
  apply list_elem_of_In, in_map_iff in Hin as ([k' v'] & Hk & Hin).
  apply in_map_iff in Hin as ([k2 v2] & [= <- <-] & Hin).
  simpl in Hk. assert (k2 = k) by (unfold IMAP_NODE_SZ in Hk; lia). subst k2.
  apply list_elem_of_In, in_map_iff. exists (k, v2). auto.
Qed.

Lemma entries_loop_NoDup arr : forall i0,
  0 <= i0 -> i0 + Z.of_nat (length arr) <= IMAP_NODE_SZ ->
  Forall (fun nd => NoDup (map fst (node_entries nd))) arr ->
  NoDup (map fst (entries_loop node_entries i0 arr)).
Proof.
  induction arr as [|nd arr IH]; intros i0 Hi0 Hlen Hall; [constructor|].
  apply Forall_cons in Hall as [Hnd Hall]. simpl length in Hlen.
  rewrite entries_loop_cons, !map_app.
  assert (Hrest : forall k, In k (map fst (entries_loop node_entries (i0 + 1) arr)) ->
                    i0 + 1 <= k mod IMAP_NODE_SZ).
  { intros k Hin. apply in_map_iff in Hin as ([k' v] & <- & Hin).
    apply entries_loop_digit in Hin; [simpl; lia|lia|lia]. }
  assert (Hbelow : forall k, In k (map fst (map (below_key i0) (node_entries nd))) ->
                     k mod IMAP_NODE_SZ = i0 /\ IMAP_NODE_SZ <= k).
  { intros k Hin. apply in_map_iff in Hin as ([k' v] & <- & Hin).
    apply below_key_In in Hin as (r & -> & Hin).
    apply entries_sound in Hin as [Hr _]. simpl.
    destruct (key_join r i0) as [Hm _]; [lia|]. unfold IMAP_NODE_SZ in *. lia. }
  assert (Hown : forall k, In k (map fst (own_entry i0 nd)) -> k = i0).
  { intros k Hin. apply in_map_iff in Hin as ([k' v] & <- & Hin).
    apply own_entry_In in Hin as [-> _]. reflexivity. }
  apply NoDup_app. split; [|split].
  - unfold own_entry. destruct (nd_data nd =? NULL); simpl; [constructor|].
    apply NoDup_singleton.
  - intros k Hk Hk'. apply list_elem_of_In in Hk. apply Hown in Hk. subst k.
    apply list_elem_of_In, in_app_iff in Hk' as [Hk'|Hk'].
    + apply Hbelow in Hk'. lia.
    + apply Hrest in Hk'. rewrite Z.mod_small in Hk' by lia. lia.
  - apply NoDup_app. split; [|split].
    + apply NoDup_map_below, Hnd.
    + intros k Hk Hk'. apply list_elem_of_In in Hk, Hk'.
      apply Hbelow in Hk. apply Hrest in Hk'. lia.
    + apply IH; [lia|lia|exact Hall].
Qed.

Lemma node_entries_NoDup node :
  node_okb node = true -> NoDup (map fst (node_entries node)).
Proof.
  induction node as [d sz|d arr sz IH] using imap_node_ind; intros Hok; [constructor|].
  apply node_okb_some in Hok as (Hlen & Hall & _).
  rewrite node_entries_some. apply entries_loop_NoDup; [lia|lia|].
  rewrite Forall_forall in *. intros nd Hnd. apply IH; [exact Hnd|apply Hall, Hnd].
Qed.

(** C9: when [imap_2slist] returns a list, the list holds the values of
    the map in the order in which [imap_walk] visits them and its length is
    [len]; each stored pair contributes its value once: the pairs have
    distinct keys, and a 64-bit key is paired with a value exactly when
    [imap_get] returns that value for it. *)
Theorem imap_2slist_values {A : Type} (cb : ptr -> A -> Z * A) imap h sl h' a :
  imap_okb imap = true -> imap_2slist imap h = (Some sl, h') ->
  slist_data sl = imap_values imap
  /\ slist_len sl = imap_len imap
  /\ snd (imap_walk cb imap a) = visit cb (slist_data sl) a
  /\ NoDup (map fst (imap_entries imap))
  /\ forall k v, is_uint64 k -> v <> NULL ->
       (In (k, v) (imap_entries imap) <-> imap_get imap k = v).
Proof.
  intros Hok Hsl.
  assert (Hdata : slist_data sl = imap_values imap).
  { unfold imap_2slist, slist_new in Hsl.
    destruct (alloc h) as [[|] h1]; [|discriminate].
    injection Hsl as <- _.
    destruct (Z.eqb_spec (imap_len imap) 0) as [Hz|Hz].
    - rewrite (imap_okb_empty _ Hok Hz). reflexivity.
    - rewrite (slist_loop_values _ 0); [reflexivity|].
      apply Forall_forall. intros nd _. apply IMAP_2slist_values. }
  destruct (imap_okb_len _ Hok) as [Hlen _].
  split; [exact Hdata|]. split; [|split; [|split]].
  - unfold slist_len. rewrite Hdata, Hlen. unfold imap_values, imap_count.
    rewrite length_map. reflexivity.
  - rewrite Hdata, imap_walk_values by exact Hok. apply walk_values_visit.
  - rewrite imap_entries_root. apply node_entries_NoDup. exact Hok.
  - intros k v Hk Hv. rewrite imap_entries_root, imap_get_root.
    apply IMAP_get_entries; [exact Hok|apply key_below_root, Hk|exact Hv].
Qed.

Lemma imap_2slist_values_witness :
  let imap := snd (fst (imap_add (snd (fst (imap_add (snd (fst (imap_add imap_empty
                1056 7 []))) 1 8 []))) 2 9 [])) in
  let cb := fun (v : ptr) (a : list ptr) => (1, a ++ [v]) in
  slist_data (mk_slist 3 [7; 8; 9]) = imap_values imap
  /\ slist_len (mk_slist 3 [7; 8; 9]) = imap_len imap
  /\ snd (imap_walk cb imap []) = visit cb (slist_data (mk_slist 3 [7; 8; 9])) []
  /\ NoDup (map fst (imap_entries imap))
  /\ forall k v, is_uint64 k -> v <> NULL ->
       (In (k, v) (imap_entries imap) <-> imap_get imap k = v).
Proof.
  apply (imap_2slist_values (fun (v : ptr) (a : list ptr) => (1, a ++ [v])) _ [] _ []).
  - vm_compute. reflexivity.
  - vm_compute. reflexivity.
Defined.

(** ** Failed allocations *)

(** An [imap_add] that fails below the first level of children leaves the
    arrays it allocated on the way down linked into the tree.  Here key
    1056 needs two arrays on a new map, the first allocation succeeds and
    the second fails: the call returns -1 and top-level node 0 keeps its
    new, empty array, with [size] 0. *)
Lemma imap_add_failure_leaves_array data :
  let '(rc, imap', _) := imap_add imap_empty 1056 data [true; false] in
  rc = RC_ERR_ALLOC
  /\ imap' <> imap_empty
  /\ nd_nodes (slot (imap_nodes imap') 0)
     = Some (replicate (Z.to_nat IMAP_NODE_SZ) node_zero)
  /\ nd_nodes (slot (imap_nodes imap_empty) 0) = None.
Proof.
  vm_compute. split; [reflexivity|]. split; [discriminate|]. split; reflexivity.
Qed.

(** What does hold after a failed [imap_add] on a well-formed map: the
    stored pairs, the count and so every lookup are those of before. *)
Lemma imap_add_failure_unobserved imap id data h :
  imap_okb imap = true -> is_uint64 id -> data <> NULL ->
  imap_len imap + 1 < SIZE_MOD ->
  let '(rc, imap', _) := imap_add imap id data h in
  rc = RC_ERR_ALLOC ->
  imap_okb imap' = true
  /\ imap_entries imap' = imap_entries imap
  /\ imap_len imap' = imap_len imap
  /\ forall k, is_uint64 k -> imap_get imap' k = imap_get imap k.
Proof.
  intros Hok Hid Hdata Hmax.
  pose proof (imap_add_ok imap id data h Hok Hid Hdata Hmax) as H.
  destruct (imap_add imap id data h) as [[rc imap'] h'].
  intros ->. destruct H as (Hok' & [(_ & He & Hl)|(Hrc & _)]).
  - split; [exact Hok'|]. split; [exact He|]. split; [exact Hl|].
    intros k Hk. rewrite !imap_get_root.
    rewrite !imap_okb_root in *. rewrite !imap_entries_root in He.
    apply IMAP_get_ext; try assumption; [apply key_below_root, Hk| |];
      intros v; rewrite He; auto.
  - exfalso. destruct (id / IMAP_NODE_SZ =? 0); [discriminate|].
    destruct (imap_get imap id =? NULL); discriminate.
Qed.

(** C3 (the code departs from the claim): [IMAP_add] stores the result of
    [calloc] in [node->nodes] before it tests it.  On a top-level node of
    size 0 that still has a children array, which is what an earlier failed
    [imap_add] leaves behind, a [calloc] that returns NULL therefore
    overwrites the pointer to that array: the call returns -1 and the map
    is not in the state it was in when the allocation was requested, the
    node has lost its array (which is not freed either).  Nothing is
    written by [imap_add] or [IMAP_add] before this first [calloc], so the
    state before the failed allocation is the map the call was given. *)
Theorem imap_add_failure_drops_array imap id data h arr :
  imap_okb imap = true -> is_uint64 id -> IMAP_NODE_SZ <= id ->
  nd_size (slot (imap_nodes imap) (id mod IMAP_NODE_SZ)) = 0 ->
  nd_nodes (slot (imap_nodes imap) (id mod IMAP_NODE_SZ)) = Some arr ->
  fst (alloc h) = false ->
  let '(rc, imap', _) := imap_add imap id data h in
  rc = RC_ERR_ALLOC
  /\ nd_nodes (slot (imap_nodes imap') (id mod IMAP_NODE_SZ)) = None
  /\ imap' <> imap.
Proof.
  intros Hok Hid Hge Hsz Hnodes Ha.
  assert (Hq : id / IMAP_NODE_SZ <> 0).
  { intros Hq. apply Z.div_small_iff in Hq; unfold IMAP_NODE_SZ in *; lia. }
  pose proof (key_below_digit _ _ (key_below_root _ Hid)) as Hi.
  pose proof Hok as Hok'. rewrite imap_okb_root in Hok'.
  apply node_okb_some in Hok' as (Hlen & _).
  unfold imap_add. apply Z.eqb_neq in Hq. rewrite Hq.
  destruct (alloc h) as [ok h'] eqn:Ealloc. cbn [fst] in Ha. subst ok.
  change IMAP_DEPTH with (S 12).
  rewrite (IMAP_add_fail 12 _ _ _ h h' Hsz Ealloc).
  change (RC_ERR_ALLOC >? 0) with false. cbv iota.
  assert (Hslot : nd_nodes (slot (imap_nodes (mk_imap (imap_len imap)
                    (set_slot (imap_nodes imap) (id mod IMAP_NODE_SZ)
                       (set_nodes (slot (imap_nodes imap) (id mod IMAP_NODE_SZ)) None))))
                    (id mod IMAP_NODE_SZ)) = None).
  { cbn [imap_nodes]. rewrite slot_set_slot by assumption.
    rewrite Z.eqb_refl. reflexivity. }
  split; [reflexivity|]. split; [exact Hslot|].
  intros Heq. rewrite Heq in Hslot. congruence.
Qed.

(** The map an [imap_add] of key 1056 leaves when its second allocation
    fails, and a second [imap_add] whose first allocation fails. *)
Lemma imap_add_failure_drops_array_witness :
  let imap := snd (fst (imap_add imap_empty 1056 7 [true; false])) in
  let '(rc, imap', _) := imap_add imap 1056 8 [false] in
  rc = RC_ERR_ALLOC
  /\ nd_nodes (slot (imap_nodes imap') (1056 mod IMAP_NODE_SZ)) = None
  /\ imap' <> imap.
Proof.
  apply (imap_add_failure_drops_array
           (snd (fst (imap_add imap_empty 1056 7 [true; false]))) 1056 8 [false]
           (replicate (Z.to_nat IMAP_NODE_SZ) node_zero)).
  - vm_compute. reflexivity.
  - unfold is_uint64. lia.
  - unfold IMAP_NODE_SZ. lia.
  - vm_compute. reflexivity.
  - vm_compute. reflexivity.
  - reflexivity.
Defined.

(** C5 (the code departs from the claim): after an [imap_add] that fails
    at the third array, the node below top-level node 0 has [size] 0 and a
    children array.  Key 33824 needs three arrays on a new map; the first
    two allocations succeed and the third fails. *)
Theorem imap_add_failure_breaks_size_invariant data :
  let '(rc, imap', _) := imap_add imap_empty 33824 data [true; true; false] in
  let nd := child (slot (imap_nodes imap') 0) 0 in
  rc = RC_ERR_ALLOC
  /\ nd_size nd = 0
  /\ nd_nodes nd = Some (replicate (Z.to_nat IMAP_NODE_SZ) node_zero)
  /\ imap_tightb imap' = false.
Proof.
  vm_compute. repeat split; reflexivity.
Qed.

(** ** Union by reference *)

(** Whether a key is among the stored pairs. *)
Definition in_keys (k : Z) (l : list (Z * ptr)) : bool :=
  existsb (fun e => fst e =? k) l.

(** The values of the pairs of [Se], in order, whose key is also a key of
    [De]. *)
Definition dup_values (De Se : list (Z * ptr)) : list ptr :=
  map snd (List.filter (fun e => in_keys (fst e) De) Se).

Lemma in_keys_app k l1 l2 : in_keys k (l1 ++ l2) = in_keys k l1 || in_keys k l2.
Proof. apply existsb_app. Qed.

Lemma in_keys_true k l : in_keys k l = true <-> exists v, In (k, v) l.
Proof.
  unfold in_keys. rewrite existsb_exists. split.
  - intros ([k' v] & Hin & E). apply Z.eqb_eq in E. simpl in E. subst. eauto.
  - intros (v & Hin). exists (k, v). split; [exact Hin|apply Z.eqb_refl].
Qed.

Lemma in_keys_own k i nd :
  in_keys k (own_entry i nd) = (i =? k) && negb (nd_data nd =? NULL).
Proof.
  unfold own_entry. destruct (nd_data nd =? NULL); simpl.
  - rewrite andb_false_r. reflexivity.
  - rewrite orb_false_r, andb_true_r. reflexivity.
Qed.

Lemma in_keys_below r i l :
  in_keys (IMAP_NODE_SZ * (r + 1) + i) (map (below_key i) l) = in_keys r l.
Proof.
  induction l as [|[k v] l IH]; [reflexivity|].
  simpl. rewrite IH. f_equal.
  unfold IMAP_NODE_SZ. destruct (Z.eqb_spec k r), (Z.eqb_spec (32 * (k + 1) + i) (32 * (r + 1) + i));
    try reflexivity; lia.
Qed.

Lemma in_keys_false k l : (forall v, ~ In (k, v) l) -> in_keys k l = false.
Proof.
  intros H. destruct (in_keys k l) eqn:E; [|reflexivity].
  apply in_keys_true in E as [v Hv]. destruct (H v Hv).
Qed.

Lemma filter_map_below (p : Z * ptr -> bool) i l :
  List.filter p (map (below_key i) l) = map (below_key i) (List.filter (fun e => p (below_key i e)) l).
Proof.
  induction l as [|e l IH]; [reflexivity|].
  simpl. rewrite IH. destruct (p (below_key i e)); reflexivity.
Qed.

Lemma dup_values_length De Se : (length (dup_values De Se) <= length Se)%nat.
Proof. unfold dup_values. rewrite length_map. apply List.filter_length_le. Qed.

Lemma dup_values_nil_l Se : dup_values [] Se = [].
Proof.
  unfold dup_values. induction Se as [|e Se IH]; [reflexivity|exact IH].
Qed.

(** The duplicates below two arrays, node by node. *)
Lemma dup_values_cons i0 d darr s sarr :
  0 <= i0 -> i0 + Z.of_nat (length (d :: darr)) <= IMAP_NODE_SZ ->
  length darr = length sarr ->
  dup_values (entries_loop node_entries i0 (d :: darr))
             (entries_loop node_entries i0 (s :: sarr))
  = (if (nd_data s =? NULL) || (nd_data d =? NULL) then [] else [nd_data s])
    ++ dup_values (node_entries d) (node_entries s)
    ++ dup_values (entries_loop node_entries (i0 + 1) darr)
                  (entries_loop node_entries (i0 + 1) sarr).
Proof.
  intros Hi0 Hlen Hlens. simpl length in Hlen.
  unfold dup_values. rewrite !entries_loop_cons.
  set (De := own_entry i0 d ++ map (below_key i0) (node_entries d)
             ++ entries_loop node_entries (i0 + 1) darr).
  rewrite !List.filter_app, !map_app.
  assert (Hrest : forall k v, In (k, v) (entries_loop node_entries (i0 + 1) darr) ->
                    i0 + 1 <= k mod IMAP_NODE_SZ).
  { intros k v Hin. apply entries_loop_digit in Hin; lia. }
  assert (Hrest' : forall k v, In (k, v) (entries_loop node_entries (i0 + 1) sarr) ->
                    i0 + 1 <= k mod IMAP_NODE_SZ).
  { intros k v Hin. apply entries_loop_digit in Hin; lia. }
  f_equal; [|f_equal].
  - (* the value of the node itself *)
    unfold own_entry at 1. destruct (Z.eqb_spec (nd_data s) NULL) as [Hs|Hs]; [reflexivity|].
    simpl. unfold De. rewrite !in_keys_app, in_keys_own, Z.eqb_refl.
    rewrite (in_keys_false i0 (map (below_key i0) (node_entries d))).
    2:{ intros v Hin. apply below_key_In in Hin as (r & Hk & Hin).
        apply entries_sound in Hin as [Hr _]. unfold IMAP_NODE_SZ in *. lia. }
    rewrite (in_keys_false i0 (entries_loop node_entries (i0 + 1) darr)).
    2:{ intros v Hin. apply Hrest in Hin. rewrite Z.mod_small in Hin; lia. }
    destruct (nd_data d =? NULL); reflexivity.
  - (* the values below the node *)
    rewrite filter_map_below, map_map. simpl snd.
    change (fun x : Z * ptr => snd x) with (@snd Z ptr). f_equal.
    apply List.filter_ext_in. intros [r v] Hin.
    apply entries_sound in Hin as [Hr _]. unfold below_key at 1. simpl fst.
    unfold De. rewrite !in_keys_app, in_keys_below, in_keys_own.
    destruct (Z.eqb_spec i0 (IMAP_NODE_SZ * (r + 1) + i0)) as [E|_];
      [unfold IMAP_NODE_SZ in E; lia|].
    rewrite (in_keys_false _ (entries_loop node_entries (i0 + 1) darr)).
    2:{ intros v' Hin. apply Hrest in Hin.
        destruct (key_join r i0) as [Hm _]; [lia|]. lia. }
    simpl. rewrite orb_false_r. reflexivity.
  - (* the nodes after it *)
    f_equal. apply List.filter_ext_in. intros [k v] Hin. simpl fst.
    apply Hrest' in Hin.
    unfold De. rewrite !in_keys_app, in_keys_own.
    destruct (Z.eqb_spec i0 k) as [E|_];
      [subst k; rewrite Z.mod_small in Hin; lia|].
    rewrite (in_keys_false k (map (below_key i0) (node_entries d))); [reflexivity|].
    intros v' Hin'. apply below_key_In in Hin' as (r & Hk & Hin').
    apply entries_sound in Hin' as [Hr _].
    destruct (key_join r i0) as [Hm _]; [lia|]. rewrite <- Hk in Hm. lia.
Qed.

(** One round of the loop of [imap_union_ref] and [IMAP_union_ref]: the
    value, then the children, of one pair of nodes. *)
Definition union_slot (dest_nd imap_nd : imap_node) (cnt : Z) (log : list ptr)
  : imap_node * Z * list ptr :=
  let '(d1, cnt1, log1) :=
    if nd_data imap_nd =? NULL then (dest_nd, cnt, log)
    else if nd_data dest_nd =? NULL
         then (set_data dest_nd (nd_data imap_nd), wrap64 (cnt + 1), log)
         else (dest_nd, cnt, slist_object_decref (nd_data imap_nd) log) in
  match nd_nodes imap_nd with
  | None => (d1, cnt1, log1)
  | Some snodes =>
    match nd_nodes d1 with
    | Some _ =>
      let tmp := nd_size d1 in
      let '(d', log') := IMAP_union_ref d1 imap_nd log1 in
      (d', wrap64 (cnt1 + wrap64 (nd_size d' - tmp)), log')
    | None =>
      let d' := set_size (set_nodes d1 (Some snodes)) (nd_size imap_nd) in
      (d', wrap64 (cnt1 + nd_size d'), log1)
    end
  end.

Lemma union_loop_cons d darr s sarr cnt log :
  union_loop IMAP_union_ref (d :: darr) (s :: sarr) cnt log
  = let '(d2, cnt2, log2) := union_slot d s cnt log in
    let '(rest, cnt3, log3) := union_loop IMAP_union_ref darr sarr cnt2 log2 in
    (d2 :: rest, cnt3, log3).
Proof.
  unfold union_slot.
  change (union_loop IMAP_union_ref (d :: darr) (s :: sarr) cnt log)
    with (let '(d1, cnt1, log1) :=
            if nd_data s =? NULL then (d, cnt, log)
            else if nd_data d =? NULL
                 then (set_data d (nd_data s), wrap64 (cnt + 1), log)
                 else (d, cnt, slist_object_decref (nd_data s) log) in
          let '(d2, cnt2, log2) :=
            match nd_nodes s with
            | None => (d1, cnt1, log1)
            | Some snodes =>
              match nd_nodes d1 with
              | Some _ =>
                let tmp := nd_size d1 in
                let '(d', log') := IMAP_union_ref d1 s log1 in
                (d', wrap64 (cnt1 + wrap64 (nd_size d' - tmp)), log')
              | None =>
                let d' := set_size (set_nodes d1 (Some snodes)) (nd_size s) in
                (d', wrap64 (cnt1 + nd_size d'), log1)
              end
            end in
          let '(rest, cnt3, log3) := union_loop IMAP_union_ref darr sarr cnt2 log2 in
          (d2 :: rest, cnt3, log3)).
  destruct (if nd_data s =? NULL then (d, cnt, log)
            else if nd_data d =? NULL
                 then (set_data d (nd_data s), wrap64 (cnt + 1), log)
                 else (d, cnt, slist_object_decref (nd_data s) log)) as [[d1 cnt1] log1].
  destruct (nd_nodes s); [|reflexivity].
  destruct (nd_nodes d1); [|reflexivity].
  destruct (IMAP_union_ref d1 s log1). reflexivity.
Qed.

Lemma IMAP_get_nodes_eq fuel x y k :
  nd_nodes x = nd_nodes y -> IMAP_get fuel x k = IMAP_get fuel y k.
Proof.
  intros E. destruct fuel as [|fuel]; [reflexivity|].
  rewrite !IMAP_get_S. unfold child, children. rewrite E. reflexivity.
Qed.

Lemma node_entries_nodes_eq x y : nd_nodes x = nd_nodes y -> node_entries x = node_entries y.
Proof.
  destruct x as [dx nx sx], y as [dy ny sy]. cbn [nd_nodes]. intros ->.
  destruct ny; reflexivity.
Qed.

Lemma node_okb_nodes_eq x y :
  nd_nodes x = nd_nodes y -> nd_size x = nd_size y -> node_okb x = node_okb y.
Proof.
  destruct x as [dx nx sx], y as [dy ny sy]. cbn [nd_nodes nd_size]. intros -> ->.
  destruct ny; reflexivity.
Qed.

(** How a node of the destination relates to the nodes it was merged from. *)
Definition slot_merged (d s d2 : imap_node) : Prop :=
  nd_data d2 = (if nd_data d =? NULL then nd_data s else nd_data d)
  /\ forall fuel k,
       IMAP_get fuel d2 k
       = if IMAP_get fuel d k =? NULL then IMAP_get fuel s k else IMAP_get fuel d k.

Definition union_post (d s : imap_node) (log : list ptr) (r : imap_node * list ptr) : Prop :=
  let '(d', log') := r in
  nd_data d' = nd_data d
  /\ node_okb d' = true
  /\ (exists arr, nd_nodes d' = Some arr)
  /\ nd_size d' + Z.of_nat (length (dup_values (node_entries d) (node_entries s)))
     = nd_size d + nd_size s
  /\ log' = log ++ dup_values (node_entries d) (node_entries s)
  /\ forall fuel k,
       IMAP_get fuel d' k
       = if IMAP_get fuel d k =? NULL then IMAP_get fuel s k else IMAP_get fuel d k.

Definition union_ok (s : imap_node) : Prop :=
  forall d log,
    node_okb d = true -> node_okb s = true -> (exists arr, nd_nodes d = Some arr) ->
    nd_size d + nd_size s < SIZE_MOD ->
    union_post d s log (IMAP_union_ref d s log).

Definition weight (nd : imap_node) : Z := Z.of_nat (node_weight nd).

Definition own_dup (d s : imap_node) : list ptr :=
  if (nd_data s =? NULL) || (nd_data d =? NULL) then [] else [nd_data s].

Lemma weight_eq nd :
  weight nd = (if nd_data nd =? NULL then 0 else 1) + node_count nd.
Proof.
  unfold weight, node_count. rewrite node_weight_eq.
  destruct (nd_data nd =? NULL); lia.
Qed.

Lemma union_slot_ok d s cnt log :
  union_ok s -> node_okb d = true -> node_okb s = true ->
  0 <= cnt -> cnt + weight s < SIZE_MOD -> weight d + weight s < SIZE_MOD ->
  let '(d2, cnt2, log2) := union_slot d s cnt log in
  node_okb d2 = true
  /\ slot_merged d s d2
  /\ weight d2
     + Z.of_nat (length (own_dup d s ++ dup_values (node_entries d) (node_entries s)))
     = weight d + weight s
  /\ cnt2 = cnt + (weight d2 - weight d)
  /\ log2 = log ++ own_dup d s ++ dup_values (node_entries d) (node_entries s).
Proof.
  intros Hrec Hd Hs Hcnt Hmax Hmax2.
  rewrite (weight_eq s) in Hmax. rewrite (weight_eq d), (weight_eq s) in Hmax2.
  pose proof (node_okb_count _ Hd) as Hdc. pose proof (node_okb_count _ Hs) as Hsc.
  pose proof (dup_values_length (node_entries d) (node_entries s)) as Hdup.
  unfold node_count in *.
  (* the value *)
  set (d1 := if nd_data s =? NULL then d
             else if nd_data d =? NULL then set_data d (nd_data s) else d).
  assert (H1 : (if nd_data s =? NULL then (d, cnt, log)
                else if nd_data d =? NULL
                     then (set_data d (nd_data s), wrap64 (cnt + 1), log)
                     else (d, cnt, slist_object_decref (nd_data s) log))
               = (d1, cnt + ((if nd_data d1 =? NULL then 0 else 1)
                             - (if nd_data d =? NULL then 0 else 1)),
                  log ++ own_dup d s)
               /\ nd_nodes d1 = nd_nodes d /\ nd_size d1 = nd_size d
               /\ nd_data d1 = (if nd_data d =? NULL then nd_data s else nd_data d)).
  { unfold d1, own_dup, slist_object_decref.
    destruct (Z.eqb_spec (nd_data s) NULL) as [Es|Es];
      destruct (Z.eqb_spec (nd_data d) NULL) as [Ed|Ed]; simpl.
    - rewrite Ed, app_nil_r. split; [f_equal; f_equal; lia|]. rewrite Es. auto.
    - destruct (Z.eqb_spec (nd_data d) NULL); [contradiction|].
      rewrite app_nil_r. split; [f_equal; f_equal; lia|auto].
    - destruct (Z.eqb_spec (nd_data s) NULL); [contradiction|].
      rewrite app_nil_r, wrap64_small by lia. split; [f_equal; f_equal; lia|auto].
    - destruct (Z.eqb_spec (nd_data d) NULL); [contradiction|].
      split; [f_equal; f_equal; lia|auto]. }
  destruct H1 as (H1 & Hn1 & Hs1 & Hd1).
  unfold union_slot. rewrite H1. clear H1.
  assert (Hbd : 0 <= (if nd_data d =? NULL then 0 else 1) <= 1)
    by (destruct (nd_data d =? NULL); lia).
  assert (Hbs : 0 <= (if nd_data s =? NULL then 0 else 1) <= 1)
    by (destruct (nd_data s =? NULL); lia).
  assert (Hb1 : 0 <= (if nd_data d1 =? NULL then 0 else 1) <= 1)
    by (destruct (nd_data d1 =? NULL); lia).
  assert (Hok1 : node_okb d1 = true).
  { rewrite (node_okb_nodes_eq d1 d); assumption. }
  assert (He1 : node_entries d1 = node_entries d) by (apply node_entries_nodes_eq, Hn1).
  assert (Hg1 : forall fuel k, IMAP_get fuel d1 k = IMAP_get fuel d k).
  { intros. apply IMAP_get_nodes_eq, Hn1. }
  assert (Hown : Z.of_nat (length (own_dup d s))
                 = (if nd_data d =? NULL then 0 else 1) + (if nd_data s =? NULL then 0 else 1)
                   - (if nd_data d1 =? NULL then 0 else 1)).
  { rewrite Hd1. unfold own_dup.
    destruct (Z.eqb_spec (nd_data s) NULL), (Z.eqb_spec (nd_data d) NULL); simpl;
      try reflexivity.
    - destruct (Z.eqb_spec (nd_data s) NULL); [reflexivity|contradiction].
    - destruct (Z.eqb_spec (nd_data d) NULL); [contradiction|reflexivity].
    - destruct (Z.eqb_spec (nd_data s) NULL); [contradiction|reflexivity].
    - destruct (Z.eqb_spec (nd_data d) NULL); [contradiction|reflexivity]. }
  assert (Hown2 : Z.of_nat (length (own_dup d s)) <= (if nd_data s =? NULL then 0 else 1)).
  { unfold own_dup. destruct (nd_data s =? NULL), (nd_data d =? NULL); simpl; lia. }
  rewrite length_app, Nat2Z.inj_add.
  destruct (nd_nodes s) as [snodes|] eqn:Ens.
  2:{ (* nothing below the node of the source *)
      assert (Hes : node_entries s = []).
      { rewrite (imap_node_eta s), Ens. reflexivity. }
      rewrite Hes in *. unfold dup_values. cbn [List.filter map length app].
      rewrite !weight_eq. unfold node_count. rewrite He1, ?Hes.
      split; [exact Hok1|]. split; [|split; [|split]].
      - split; [exact Hd1|]. intros fuel k.
        rewrite Hg1, (IMAP_get_no_nodes fuel s k Ens).
        destruct (Z.eqb_spec (IMAP_get fuel d k) NULL); congruence.
      - simpl length. lia.
      - lia.
      - rewrite app_nil_r. reflexivity. }
  destruct (nd_nodes d1) as [dnodes|] eqn:End.
  - (* both nodes have children: merge them *)
    assert (Hpost : union_post d1 s (log ++ own_dup d s)
                      (IMAP_union_ref d1 s (log ++ own_dup d s))).
    { apply Hrec; try assumption; [eauto|]. rewrite Hs1. lia. }
    unfold union_post in Hpost. cbv zeta.
    destruct (IMAP_union_ref d1 s (log ++ own_dup d s)) as [d' log'].
    destruct Hpost as (Hd' & Hok' & _ & Hsz & Hlog & Hg).
    rewrite He1 in *.
    pose proof (node_okb_count _ Hok') as Hc'. unfold node_count in Hc'.
    rewrite !weight_eq. unfold node_count. rewrite Hd'.
    split; [exact Hok'|]. split; [|split; [|split]].
    + split; [congruence|]. intros fuel k. rewrite Hg, Hg1. reflexivity.
    + lia.
    + rewrite (wrap64_small (nd_size d' - nd_size d1)) by lia.
      rewrite wrap64_small by lia. lia.
    + rewrite Hlog, <- app_assoc. reflexivity.
  - (* only the source has children: they move to the destination *)
    assert (Hed : node_entries d = []).
    { rewrite <- He1, (imap_node_eta d1), End. reflexivity. }
    rewrite Hed, dup_values_nil_l in *. cbv zeta. simpl length.
    set (d' := set_size (set_nodes d1 (Some snodes)) (nd_size s)).
    assert (Hn' : nd_nodes d' = nd_nodes s) by (rewrite Ens; reflexivity).
    assert (He' : node_entries d' = node_entries s) by (apply node_entries_nodes_eq, Hn').
    assert (Hok' : node_okb d' = true).
    { rewrite (node_okb_nodes_eq d' s); [exact Hs|exact Hn'|reflexivity]. }
    rewrite !weight_eq. unfold node_count.
    change (nd_data d') with (nd_data d1). change (nd_size d') with (nd_size s).
    rewrite He', Hed. simpl in Hdc.
    split; [exact Hok'|]. split; [|split; [|split]].
    + split; [exact Hd1|]. intros fuel k.
      rewrite (IMAP_get_nodes_eq fuel d' s k Hn').
      rewrite <- Hg1, (IMAP_get_no_nodes fuel d1 k End). reflexivity.
    + simpl length. lia.
    + rewrite wrap64_small by (simpl length; lia). simpl length. lia.
    + rewrite app_nil_r. reflexivity.
Qed.

Definition arr_weight (arr : list imap_node) : Z :=
  Z.of_nat (sum_list_with node_weight arr).

Lemma arr_weight_cons nd arr : arr_weight (nd :: arr) = weight nd + arr_weight arr.
Proof. unfold arr_weight, weight. simpl. lia. Qed.

Lemma own_dup_length d s :
  Z.of_nat (length (own_dup d s)) <= (if nd_data s =? NULL then 0 else 1).
Proof. unfold own_dup. destruct (nd_data s =? NULL), (nd_data d =? NULL); simpl; lia. Qed.

Lemma union_loop_ok sarr : forall darr i0 cnt log,
  Forall union_ok sarr -> length darr = length sarr ->
  0 <= i0 -> i0 + Z.of_nat (length sarr) <= IMAP_NODE_SZ ->
  Forall (fun c => node_okb c = true) darr ->
  Forall (fun c => node_okb c = true) sarr ->
  0 <= cnt -> cnt + arr_weight sarr < SIZE_MOD ->
  arr_weight darr + arr_weight sarr < SIZE_MOD ->
  let '(darr', cnt', log') := union_loop IMAP_union_ref darr sarr cnt log in
  let dups := dup_values (entries_loop node_entries i0 darr)
                         (entries_loop node_entries i0 sarr) in
  Forall (fun c => node_okb c = true) darr'
  /\ Forall3 slot_merged darr sarr darr'
  /\ arr_weight darr' + Z.of_nat (length dups) = arr_weight darr + arr_weight sarr
  /\ cnt' = cnt + (arr_weight darr' - arr_weight darr)
  /\ log' = log ++ dups.
Proof.
  induction sarr as [|s sarr IH]; intros [|d darr] i0 cnt log Hrec Hlen Hi0 Hi32
    Hdok Hsok Hcnt Hmax Hmax2; try discriminate.
  - simpl. split; [constructor|]. split; [constructor|].
    split; [reflexivity|]. split; [lia|]. rewrite app_nil_r. reflexivity.
  - apply Forall_cons in Hrec as [Hrs Hrec].
    apply Forall_cons in Hdok as [Hd Hdok]. apply Forall_cons in Hsok as [Hs Hsok].
    simpl in Hlen. injection Hlen as Hlen. simpl length in Hi32.
    rewrite !arr_weight_cons in *.
    assert (Hw0 : forall arr, 0 <= arr_weight arr) by (intros; unfold arr_weight; lia).
    assert (Hwn : forall nd, 0 <= weight nd) by (intros; unfold weight; lia).
    pose proof (Hw0 darr). pose proof (Hw0 sarr). pose proof (Hwn d). pose proof (Hwn s).
    rewrite union_loop_cons.
    pose proof (union_slot_ok d s cnt log Hrs Hd Hs Hcnt ltac:(lia) ltac:(lia)) as Hslot.
    destruct (union_slot d s cnt log) as [[d2 cnt2] log2].
    destruct Hslot as (Hok2 & Hm2 & Hw2 & Hc2 & Hl2).
    pose proof (own_dup_length d s) as Hod.
    pose proof (dup_values_length (node_entries d) (node_entries s)) as Hdl.
    rewrite length_app in Hw2.
    assert (Hws : weight s = (if nd_data s =? NULL then 0 else 1)
                             + Z.of_nat (length (node_entries s))).
    { rewrite weight_eq. reflexivity. }
    specialize (IH darr (i0 + 1) cnt2 log2 Hrec Hlen ltac:(lia) ltac:(lia) Hdok Hsok
                  ltac:(lia) ltac:(lia) ltac:(lia)).
    destruct (union_loop IMAP_union_ref darr sarr cnt2 log2) as [[rest cnt3] log3].
    cbv zeta in IH. destruct IH as (Hokr & Hmr & Hwr & Hcr & Hlr).
    cbv zeta. rewrite dup_values_cons by (try assumption; simpl length; lia).
    fold (own_dup d s). rewrite !length_app, !arr_weight_cons.
    split; [constructor; assumption|]. split; [constructor; assumption|].
    split; [lia|]. split; [lia|].
    rewrite Hlr, Hl2, <- !app_assoc. reflexivity.
Qed.

Lemma merged_arrays_get darr sarr darr' :
  Forall3 slot_merged darr sarr darr' ->
  forall fuel k dd ds sd ss dd' ds',
    IMAP_get fuel (mk_node dd' (Some darr') ds') k
    = if IMAP_get fuel (mk_node dd (Some darr) ds) k =? NULL
      then IMAP_get fuel (mk_node sd (Some sarr) ss) k
      else IMAP_get fuel (mk_node dd (Some darr) ds) k.
Proof.
  intros Hm [|fuel] k dd ds sd ss dd' ds'; [reflexivity|].
  rewrite !IMAP_get_step, !child_some. unfold slot.
  destruct (darr !! Z.to_nat (k mod IMAP_NODE_SZ)) as [x|] eqn:Ex.
  - destruct (Forall3_lookup_l _ _ _ _ _ _ Hm Ex) as (y & z & -> & -> & [Hd Hg]).
    simpl. destruct (k / IMAP_NODE_SZ =? 0); [exact Hd|apply Hg].
  - pose proof (Forall3_length_lm _ _ _ _ Hm) as L1.
    pose proof (Forall3_length_lr _ _ _ _ Hm) as L2.
    apply lookup_ge_None in Ex.
    rewrite (proj2 (lookup_ge_None sarr _)) by lia.
    rewrite (proj2 (lookup_ge_None darr' _)) by lia.
    simpl. destruct (k / IMAP_NODE_SZ =? 0); [reflexivity|].
    rewrite IMAP_get_no_nodes by reflexivity. reflexivity.
Qed.

Lemma IMAP_union_ref_some dd darr ds sd sarr ss log :
  IMAP_union_ref (mk_node dd (Some darr) ds) (mk_node sd (Some sarr) ss) log
  = let '(darr', sz, log') := union_loop IMAP_union_ref darr sarr ds log in
    (mk_node dd (Some darr') sz, log').
Proof. reflexivity. Qed.

(** [IMAP_union_ref] on well-formed nodes: every key of either node is in
    the result, the destination's value winning; the hook has run on the
    source's value of every key the two nodes share, and [size] counts each
    shared key once. *)
Theorem IMAP_union_ref_ok s : union_ok s.
Proof.
  induction s as [sd ss|sd sarr ss IH] using imap_node_ind; intros d log Hd Hs [darr Hn] Hmax.
  - (* not reached by the code: the source node has no children *)
    apply node_okb_none in Hs. simpl in Hs. subst ss.
    destruct d as [dd dn dsz]. simpl in Hn. subst dn.
    change (IMAP_union_ref (mk_node dd (Some darr) dsz) (mk_node sd None 0) log)
      with (mk_node dd (Some darr) dsz, log).
    unfold union_post. change (node_entries (mk_node sd None 0)) with (@nil (Z * ptr)).
    unfold dup_values. simpl List.filter. simpl map. simpl length.
    split; [reflexivity|]. split; [exact Hd|]. split; [eauto|].
    split; [simpl; lia|]. split; [rewrite app_nil_r; reflexivity|].
    intros fuel k. rewrite (IMAP_get_no_nodes fuel (mk_node sd None 0)) by reflexivity.
    destruct (Z.eqb_spec (IMAP_get fuel (mk_node dd (Some darr) dsz) k) NULL); congruence.
  - destruct d as [dd dn dsz]. simpl in Hn. subst dn.
    rewrite IMAP_union_ref_some.
    pose proof Hd as Hd'. apply node_okb_some in Hd' as (Hdl & Hdall & Hdsz & _).
    pose proof Hs as Hs'. apply node_okb_some in Hs' as (Hsl & Hsall & Hssz & _).
    simpl nd_size in Hmax.
    pose proof (union_loop_ok sarr darr 0 dsz log IH ltac:(lia) ltac:(lia) ltac:(lia)
                  Hdall Hsall ltac:(lia)) as Hloop.
    unfold arr_weight in Hloop at 1 2 3.
    specialize (Hloop ltac:(lia) ltac:(lia)).
    destruct (union_loop IMAP_union_ref darr sarr dsz log) as [[darr' sz] log'].
    cbv zeta in Hloop. destruct Hloop as (Hok' & Hm & Hw & Hc & Hl).
    unfold arr_weight in *.
    unfold union_post. rewrite !node_entries_some.
    split; [reflexivity|]. split; [|split; [eauto|split; [|split]]].
    + apply node_okb_some. rewrite <- (Forall3_length_lr _ _ _ _ Hm).
      split; [exact Hdl|]. split; [exact Hok'|]. lia.
    + simpl nd_size. lia.
    + exact Hl.
    + intros fuel k. apply (merged_arrays_get _ _ _ Hm).
Qed.

Lemma imap_entries_empty imap :
  imap_okb imap = true -> imap_len imap = 0 -> imap_entries imap = [].
Proof.
  intros Hok Hz. destruct (imap_okb_len _ Hok) as [Hc _]. unfold imap_count in Hc.
  destruct (imap_entries imap); [reflexivity|simpl in Hc; lia].
Qed.

Lemma dup_values_nil_r De : dup_values De [] = [].
Proof. reflexivity. Qed.

(** Union by reference, the operation claim C4 is about: [imap_union_ref]
    on well-formed maps that agree on the keys they share.  Afterwards a
    64-bit key is bound to a value in the destination exactly when it was
    bound to it in the destination or in the source; [len] is the number of
    stored keys, the two counts added minus one per shared key; the
    decrement hook has run once on the source's value of each shared key
    and on nothing else; and the caller's handle to the source is NULL. *)
Theorem imap_union_ref_ok dest src log :
  imap_okb dest = true -> imap_okb src = true ->
  imap_len dest + imap_len src < SIZE_MOD ->
  (forall k, is_uint64 k -> imap_get dest k <> NULL -> imap_get src k <> NULL ->
     imap_get dest k = imap_get src k) ->
  let '(dest', handle, log') := imap_union_ref dest src log in
  let dups := dup_values (imap_entries dest) (imap_entries src) in
  imap_okb dest' = true
  /\ handle = None
  /\ (forall k v, is_uint64 k -> v <> NULL ->
        (imap_get dest' k = v <-> imap_get dest k = v \/ imap_get src k = v))
  /\ imap_len dest' = imap_count dest'
  /\ imap_len dest' = imap_len dest + imap_len src - Z.of_nat (length dups)
  /\ log' = log ++ dups
  /\ NoDup (map fst (imap_entries src)).
Proof.
  intros Hd Hs Hmax Hagree.
  assert (Hiff : forall dest',
            (forall k, is_uint64 k ->
               imap_get dest' k
               = if imap_get dest k =? NULL then imap_get src k else imap_get dest k) ->
            forall k v, is_uint64 k -> v <> NULL ->
              (imap_get dest' k = v <-> imap_get dest k = v \/ imap_get src k = v)).
  { intros dest' Hg k v Hk Hv. rewrite (Hg k Hk).
    destruct (Z.eqb_spec (imap_get dest k) NULL) as [E|E].
    - split; [intros H; right; exact H|]. intros [H|H]; [congruence|exact H].
    - split; [intros H; left; exact H|]. intros [H|H]; [exact H|].
      rewrite (Hagree k Hk E); congruence. }
  assert (Hnd : NoDup (map fst (imap_entries src))).
  { rewrite imap_entries_root. apply node_entries_NoDup. exact Hs. }
  destruct (imap_okb_len _ Hd) as [Hdc Hdr]. destruct (imap_okb_len _ Hs) as [Hsc Hsr].
  unfold imap_union_ref.
  destruct (Z.eqb_spec (imap_len src) 0) as [Hz|Hz].
  - (* an empty source: nothing to merge *)
    pose proof (imap_entries_empty _ Hs Hz) as He. cbv zeta. rewrite He, dup_values_nil_r.
    replace (mk_imap (imap_len dest) (imap_nodes dest)) with dest by (destruct dest; reflexivity).
    change (length (@nil ptr)) with 0%nat.
    split; [exact Hd|]. split; [reflexivity|]. split; [|split; [exact Hdc|split; [lia|split]]].
    + apply Hiff. intros k Hk.
      assert (imap_get src k = NULL) as ->.
      { rewrite imap_get_root. apply IMAP_get_empty.
        - rewrite <- imap_okb_root. exact Hs.
        - apply key_below_root, Hk.
        - rewrite <- imap_entries_root. exact He. }
      destruct (Z.eqb_spec (imap_get dest k) NULL) as [E|E]; [exact E|reflexivity].
    + rewrite app_nil_r. reflexivity.
    + constructor.
  - rewrite imap_okb_root in Hd, Hs.
    pose proof Hd as Hd'. apply node_okb_some in Hd' as (Hdl & Hdall & Hdsz & _).
    pose proof Hs as Hs'. apply node_okb_some in Hs' as (Hsl & Hsall & Hssz & _).
    assert (Hrec : Forall union_ok (imap_nodes src)).
    { apply Forall_forall. intros nd _. apply IMAP_union_ref_ok. }
    pose proof (union_loop_ok (imap_nodes src) (imap_nodes dest) 0 (imap_len dest) log
                  Hrec ltac:(lia) ltac:(lia) ltac:(lia) Hdall Hsall ltac:(lia)) as Hloop.
    unfold arr_weight in Hloop at 1 2 3.
    specialize (Hloop ltac:(lia) ltac:(lia)).
    destruct (union_loop IMAP_union_ref (imap_nodes dest) (imap_nodes src) (imap_len dest) log)
      as [[darr' len'] log'].
    cbv zeta in Hloop. destruct Hloop as (Hok' & Hm & Hw & Hc & Hl).
    unfold arr_weight in *. cbv zeta.
    assert (Hok2 : imap_okb (mk_imap len' darr') = true).
    { change (imap_okb (mk_imap len' darr')) with (node_okb (mk_node NULL (Some darr') len')).
      apply node_okb_some.
      rewrite <- (Forall3_length_lr _ _ _ _ Hm).
      split; [exact Hdl|]. split; [exact Hok'|]. lia. }
    split; [exact Hok2|]. split; [reflexivity|].
    split; [|split; [apply imap_okb_len, Hok2|split; [|split; [exact Hl|exact Hnd]]]].
    + apply Hiff. intros k _. rewrite !imap_get_root.
      apply (merged_arrays_get _ _ _ Hm).
    + unfold imap_entries. cbn [imap_len]. lia.
Qed.

Lemma imap_union_ref_ok_witness :
  let dest := snd (fst (imap_add (snd (fst (imap_add (snd (fst (imap_add imap_empty
                1 101 []))) 2 102 []))) 1056 103 [])) in
  let src := snd (fst (imap_add (snd (fst (imap_add (snd (fst (imap_add imap_empty
                2 102 []))) 4 104 []))) 1056 103 [])) in
  let '(dest', handle, log') := imap_union_ref dest src [] in
  let dups := dup_values (imap_entries dest) (imap_entries src) in
  imap_okb dest' = true
  /\ handle = None
  /\ (forall k v, is_uint64 k -> v <> NULL ->
        (imap_get dest' k = v <-> imap_get dest k = v \/ imap_get src k = v))
  /\ imap_len dest' = imap_count dest'
  /\ imap_len dest' = imap_len dest + imap_len src - Z.of_nat (length dups)
  /\ log' = [] ++ dups
  /\ NoDup (map fst (imap_entries src)).
Proof.
  apply (imap_union_ref_ok
           (snd (fst (imap_add (snd (fst (imap_add (snd (fst (imap_add imap_empty
                1 101 []))) 2 102 []))) 1056 103 [])))
           (snd (fst (imap_add (snd (fst (imap_add (snd (fst (imap_add imap_empty
                2 102 []))) 4 104 []))) 1056 103 []))) []).
  - vm_compute. reflexivity.
  - vm_compute. reflexivity.
  - vm_compute. reflexivity.
  - intros k Hk H1 H2.
    assert (Hin : forall m, imap_okb m = true -> imap_get m k <> NULL ->
                    In (k, imap_get m k) (imap_entries m)).
    { intros m Hm Hg. rewrite imap_entries_root, imap_get_root.
      rewrite imap_okb_root in Hm. rewrite imap_get_root in Hg.
      apply (IMAP_get_entries _ _ _ _ Hm (key_below_root _ Hk) Hg). reflexivity. }
    apply Hin in H1; [|vm_compute; reflexivity].
    apply Hin in H2; [|vm_compute; reflexivity].
    revert H1 H2.
    generalize (imap_get (snd (fst (imap_add (snd (fst (imap_add (snd (fst (imap_add
                  imap_empty 1 101 []))) 2 102 []))) 1056 103 []))) k).
    generalize (imap_get (snd (fst (imap_add (snd (fst (imap_add (snd (fst (imap_add
                  imap_empty 2 102 []))) 4 104 []))) 1056 103 []))) k).
    intros v2 v1. vm_compute. intros H1 H2.
    destruct H1 as [H1|[H1|[H1|[]]]]; destruct H2 as [H2|[H2|[H2|[]]]]; congruence.
Defined.

(** * Further properties of the code *)

(** ** The depth of the recursion *)

Lemma IMAP_get_deeper fuel : forall fuel' node id,
  key_below fuel id -> (fuel <= fuel')%nat ->
  IMAP_get fuel' node id = IMAP_get fuel node id.
Proof.
  induction fuel as [|fuel IH]; intros fuel' node id Hid Hle.
  - destruct Hid as [H0 H1]. simpl in H1. lia.
  - destruct fuel' as [|fuel']; [lia|]. rewrite !IMAP_get_S.
    destruct (Z.eqb_spec (id / IMAP_NODE_SZ) 0) as [Hq|Hq]; [reflexivity|].
    destruct (nd_nodes (child node (id mod IMAP_NODE_SZ))); [|reflexivity].
    apply IH; [apply key_below_next; assumption|lia].
Qed.

Lemma IMAP_add_S fuel node id data h :
  IMAP_add (S fuel) node id data h
  = if nd_size node =? 0
    then match alloc h with
         | (true, h') =>
           add_below fuel
             (set_nodes node (Some (replicate (Z.to_nat IMAP_NODE_SZ) node_zero))) id data h'
         | (false, h') => (RC_ERR_ALLOC, set_nodes node None, h')
         end
    else add_below fuel node id data h.
Proof.
  destruct (Z.eqb_spec (nd_size node) 0) as [Hz|Hz].
  - destruct (alloc h) as [[|] h'] eqn:Ha.
    + apply IMAP_add_fresh; assumption.
    + apply IMAP_add_fail; assumption.
  - apply IMAP_add_present. exact Hz.
Qed.

Lemma IMAP_add_deeper fuel : forall fuel' node id data h,
  key_below fuel id -> (fuel <= fuel')%nat ->
  IMAP_add fuel' node id data h = IMAP_add fuel node id data h.
Proof.
  induction fuel as [|fuel IH]; intros fuel' node id data h Hid Hle.
  - destruct Hid as [H0 H1]. simpl in H1. lia.
  - destruct fuel' as [|fuel']; [lia|]. rewrite !IMAP_add_S.
    assert (Hb : forall node1 h1,
              add_below fuel' node1 id data h1 = add_below fuel node1 id data h1).
    { intros node1 h1. unfold add_below.
      destruct (Z.eqb_spec (id / IMAP_NODE_SZ) 0) as [Hq|Hq]; [reflexivity|].
      rewrite (IH fuel') by (try apply key_below_next; try assumption; lia).
      reflexivity. }
    destruct (nd_size node =? 0); [|apply Hb].
    destruct (alloc h) as [[|] h']; [apply Hb|reflexivity].
Qed.

Lemma IMAP_pop_deeper fuel : forall fuel' node id,
  key_below fuel id -> (fuel <= fuel')%nat ->
  IMAP_pop fuel' node id = IMAP_pop fuel node id.
Proof.
  induction fuel as [|fuel IH]; intros fuel' node id Hid Hle.
  - destruct Hid as [H0 H1]. simpl in H1. lia.
  - destruct fuel' as [|fuel']; [lia|]. rewrite !IMAP_pop_S. cbv zeta.
    destruct (Z.eqb_spec (id / IMAP_NODE_SZ) 0) as [Hq|Hq]; [reflexivity|].
    destruct (nd_nodes (child node (id mod IMAP_NODE_SZ))); [|reflexivity].
    rewrite (IH fuel') by (try apply key_below_next; try assumption; lia).
    reflexivity.
Qed.

(** The recursion of [IMAP_get], [IMAP_add] and [IMAP_pop] below the top
    level on a 64-bit key ends within [IMAP_DEPTH] calls: a larger depth
    budget changes no result, so the budget of the embedding is never used
    up. *)
Theorem depth_enough id fuel node data h :
  is_uint64 id -> id / IMAP_NODE_SZ <> 0 -> (IMAP_DEPTH <= fuel)%nat ->
  IMAP_get fuel node (id / IMAP_NODE_SZ - 1)
  = IMAP_get IMAP_DEPTH node (id / IMAP_NODE_SZ - 1)
  /\ IMAP_add fuel node (id / IMAP_NODE_SZ - 1) data h
     = IMAP_add IMAP_DEPTH node (id / IMAP_NODE_SZ - 1) data h
  /\ IMAP_pop fuel node (id / IMAP_NODE_SZ - 1)
     = IMAP_pop IMAP_DEPTH node (id / IMAP_NODE_SZ - 1).
Proof.
  intros Hid Hq Hle. pose proof (key_below_uint64 id Hid Hq) as Hk.
  split; [|split].
  - apply IMAP_get_deeper; assumption.
  - apply IMAP_add_deeper; assumption.
  - apply IMAP_pop_deeper; assumption.
Qed.

Lemma depth_enough_witness :
  IMAP_get 20 node_zero ((2 ^ 64 - 1) / IMAP_NODE_SZ - 1)
  = IMAP_get IMAP_DEPTH node_zero ((2 ^ 64 - 1) / IMAP_NODE_SZ - 1)
  /\ IMAP_add 20 node_zero ((2 ^ 64 - 1) / IMAP_NODE_SZ - 1) 7 []
     = IMAP_add IMAP_DEPTH node_zero ((2 ^ 64 - 1) / IMAP_NODE_SZ - 1) 7 []
  /\ IMAP_pop 20 node_zero ((2 ^ 64 - 1) / IMAP_NODE_SZ - 1)
     = IMAP_pop IMAP_DEPTH node_zero ((2 ^ 64 - 1) / IMAP_NODE_SZ - 1).
Proof.
  apply (depth_enough (2 ^ 64 - 1) 20 node_zero 7 []).
  - unfold is_uint64. lia.
  - vm_compute. discriminate.
  - unfold IMAP_DEPTH. lia.
Defined.

(** ** Sequences of calls, failed allocations included *)

(** Running the calls in order, going on after an [imap_add] that failed. *)
Fixpoint imap_exec (ops : list imap_op) (imap : imap_t) (h : heap) : imap_t * heap :=
  match ops with
  | [] => (imap, h)
  | OpAdd id data :: ops' =>
    let '(_, imap', h') := imap_add imap id data h in imap_exec ops' imap' h'
  | OpPop id :: ops' => imap_exec ops' (snd (imap_pop imap id)) h
  end.

Lemma imap_exec_keeps_okb ops : forall imap h,
  imap_okb imap = true -> forallb op_okb ops = true ->
  imap_len imap + Z.of_nat (length ops) < SIZE_MOD ->
  imap_okb (fst (imap_exec ops imap h)) = true
  /\ imap_len (fst (imap_exec ops imap h)) <= imap_len imap + Z.of_nat (length ops).
Proof.
  induction ops as [|o ops IH]; intros imap h Hok Hops Hmax.
  - simpl. split; [exact Hok|lia].
  - simpl in Hops. apply andb_true_iff in Hops as [Ho Hops].
    simpl length in *. destruct o as [id data|id]; cbn [imap_exec].
    + apply op_okb_add in Ho as [Hid Hdata].
      pose proof (imap_add_ok imap id data h Hok Hid Hdata ltac:(lia)) as Hadd.
      destruct (imap_add imap id data h) as [[rc imap1] h1].
      assert (H1 : imap_okb imap1 = true /\ imap_len imap1 <= imap_len imap + 1).
      { destruct Hadd as (Hok1 & [(_ & _ & Hl)|(_ & Hl & _)]); split; try assumption; [lia|].
        rewrite Hl. destruct (imap_get imap id =? NULL); lia. }
      destruct H1 as [Hok1 Hl1].
      destruct (IH imap1 h1 Hok1 Hops ltac:(lia)) as [Hr Hlr]. split; [exact Hr|lia].
    + apply op_okb_pop in Ho as Hid.
      pose proof (imap_pop_ok imap id Hok Hid) as Hpop.
      destruct (imap_pop imap id) as [v imap1]. cbn [snd].
      destruct Hpop as (_ & Hok1 & Hl1 & _).
      assert (imap_len imap1 <= imap_len imap) by (rewrite Hl1; destruct (v =? NULL); lia).
      destruct (IH imap1 h Hok1 Hops ltac:(lia)) as [Hr Hlr]. split; [exact Hr|lia].
Qed.

(** Whatever the allocator does, a map that went through [imap_add] and
    [imap_pop] calls since [imap_new] is well-formed: every array has 32
    nodes, every [size] is the number of values below its node, and [len]
    is the number of values in the map. *)
Theorem imap_exec_well_formed ops h :
  forallb op_okb ops = true -> Z.of_nat (length ops) < SIZE_MOD ->
  imap_okb (fst (imap_exec ops imap_empty h)) = true
  /\ imap_len (fst (imap_exec ops imap_empty h))
     = imap_count (fst (imap_exec ops imap_empty h)).
Proof.
  intros Hops Hmax.
  destruct (imap_exec_keeps_okb ops imap_empty h eq_refl Hops Hmax) as [Hok _].
  split; [exact Hok|]. apply imap_okb_len, Hok.
Qed.

Lemma imap_exec_well_formed_witness :
  imap_okb (fst (imap_exec [OpAdd 33824 7; OpAdd 1056 8; OpPop 33824; OpAdd 5 9]
                   imap_empty [true; true; false; true; false])) = true
  /\ imap_len (fst (imap_exec [OpAdd 33824 7; OpAdd 1056 8; OpPop 33824; OpAdd 5 9]
                      imap_empty [true; true; false; true; false]))
     = imap_count (fst (imap_exec [OpAdd 33824 7; OpAdd 1056 8; OpPop 33824; OpAdd 5 9]
                         imap_empty [true; true; false; true; false])).
Proof.
  apply (imap_exec_well_formed [OpAdd 33824 7; OpAdd 1056 8; OpPop 33824; OpAdd 5 9]).
  - reflexivity.
  - vm_compute. reflexivity.
Defined.

(** ** Overwriting and popping twice *)

(** On a well-formed map, a second [imap_add] under the same key replaces
    the value: it returns 0, a lookup returns the second value, and the
    count is that after the first call. *)
Theorem imap_add_twice imap k v1 v2 h rc1 imap1 h1 rc2 imap2 h2 :
  imap_okb imap = true -> is_uint64 k -> v1 <> NULL -> v2 <> NULL ->
  imap_len imap + 2 < SIZE_MOD ->
  imap_add imap k v1 h = (rc1, imap1, h1) -> rc1 <> RC_ERR_ALLOC ->
  imap_add imap1 k v2 h1 = (rc2, imap2, h2) -> rc2 <> RC_ERR_ALLOC ->
  rc2 = RC_OVERWRITTEN
  /\ imap_get imap2 k = v2
  /\ imap_len imap2 = imap_len imap1
  /\ imap_len imap1 = imap_len imap + (if imap_get imap k =? NULL then 1 else 0).
Proof.
  intros Hok Hk Hv1 Hv2 Hmax Hadd1 Hrc1 Hadd2 Hrc2.
  pose proof (imap_add_ok imap k v1 h Hok Hk Hv1 ltac:(lia)) as H1.
  rewrite Hadd1 in H1.
  destruct H1 as (Hok1 & [(-> & _)|(_ & Hlen1 & Hg1)]); [contradiction|].
  assert (Hmax1 : imap_len imap1 + 1 < SIZE_MOD).
  { rewrite Hlen1. destruct (imap_get imap k =? NULL); lia. }
  pose proof (imap_add_ok imap1 k v2 h1 Hok1 Hk Hv2 Hmax1) as H2.
  rewrite Hadd2 in H2.
  destruct H2 as (_ & [(-> & _)|(Hr2 & Hlen2 & Hg2)]); [contradiction|].
  rewrite (Hg1 k Hk), Z.eqb_refl in Hr2, Hlen2.
  destruct (Z.eqb_spec v1 NULL) as [|_]; [contradiction|].
  split; [rewrite Hr2; destruct (k / IMAP_NODE_SZ =? 0); reflexivity|].
  split; [rewrite (Hg2 k Hk), Z.eqb_refl; reflexivity|].
  split; [lia|exact Hlen1].
Qed.

Lemma imap_add_twice_witness :
  fst (fst (imap_add (snd (fst (imap_add imap_empty 1056 7 []))) 1056 8 [])) = RC_OVERWRITTEN
  /\ imap_get (snd (fst (imap_add (snd (fst (imap_add imap_empty 1056 7 []))) 1056 8 []))) 1056
     = 8
  /\ imap_len (snd (fst (imap_add (snd (fst (imap_add imap_empty 1056 7 []))) 1056 8 [])))
     = imap_len (snd (fst (imap_add imap_empty 1056 7 [])))
  /\ imap_len (snd (fst (imap_add imap_empty 1056 7 [])))
     = imap_len imap_empty + (if imap_get imap_empty 1056 =? NULL then 1 else 0).
Proof.
  apply (imap_add_twice imap_empty 1056 7 8 []
           (fst (fst (imap_add imap_empty 1056 7 []))) _
           (snd (imap_add imap_empty 1056 7 []))
           _ _
           (snd (imap_add (snd (fst (imap_add imap_empty 1056 7 []))) 1056 8
                   (snd (imap_add imap_empty 1056 7 []))))).
  - reflexivity.
  - unfold is_uint64. lia.
  - unfold NULL. lia.
  - unfold NULL. lia.
  - vm_compute. reflexivity.
  - vm_compute. reflexivity.
  - vm_compute. discriminate.
  - vm_compute. reflexivity.
  - vm_compute. discriminate.
Defined.

(** On a well-formed map, [imap_pop] returns what [imap_get] returns for
    the key, and a second [imap_pop] of the same key returns NULL and
    changes nothing. *)
Theorem imap_pop_twice imap k :
  imap_okb imap = true -> is_uint64 k ->
  fst (imap_pop imap k) = imap_get imap k
  /\ imap_pop (snd (imap_pop imap k)) k = (NULL, snd (imap_pop imap k)).
Proof.
  intros Hok Hk. pose proof (imap_pop_ok imap k Hok Hk) as H1.
  destruct (imap_pop imap k) as [v imap1]. cbn [fst snd].
  destruct H1 as (Hv & Hok1 & _ & _ & Hg1).
  split; [exact Hv|].
  pose proof (imap_pop_ok imap1 k Hok1 Hk) as H2.
  destruct (imap_pop imap1 k) as [v2 imap2].
  destruct H2 as (Hv2 & _ & _ & Hsame & _).
  rewrite (Hg1 k Hk), Z.eqb_refl in Hv2. subst v2.
  rewrite (Hsame eq_refl). reflexivity.
Qed.

Lemma imap_pop_twice_witness :
  fst (imap_pop (snd (fst (imap_add imap_empty 1056 7 []))) 1056)
  = imap_get (snd (fst (imap_add imap_empty 1056 7 []))) 1056
  /\ imap_pop (snd (imap_pop (snd (fst (imap_add imap_empty 1056 7 []))) 1056)) 1056
     = (NULL, snd (imap_pop (snd (fst (imap_add imap_empty 1056 7 []))) 1056)).
Proof.
  apply (imap_pop_twice (snd (fst (imap_add imap_empty 1056 7 []))) 1056).
  - vm_compute. reflexivity.
  - unfold is_uint64. lia.
Defined.

(** ** Children arrays are present only where something is stored *)

Lemma node_tightb_none d sz : node_tightb (mk_node d None sz) = true <-> sz = 0.
Proof. simpl. apply Z.eqb_eq. Qed.

Lemma node_tightb_some d arr sz :
  node_tightb (mk_node d (Some arr) sz) = true <->
  sz <> 0 /\ Forall (fun c => node_tightb c = true) arr.
Proof.
  simpl. rewrite andb_true_iff, negb_true_iff, Z.eqb_neq, forallb_forall, Forall_forall.
  setoid_rewrite list_elem_of_In. tauto.
Qed.

Lemma node_tightb_set_data node d : node_tightb (set_data node d) = node_tightb node.
Proof. destruct node as [d0 [arr|] sz]; reflexivity. Qed.

Lemma slot_tight arr i :
  Forall (fun c => node_tightb c = true) arr -> node_tightb (slot arr i) = true.
Proof.
  intros Hall. unfold slot. destruct (arr !! Z.to_nat i) as [nd|] eqn:E; [|reflexivity].
  rewrite Forall_forall in Hall. apply Hall, list_elem_of_lookup. eauto.
Qed.

Lemma slot_okb arr i :
  Forall (fun c => node_okb c = true) arr -> node_okb (slot arr i) = true.
Proof.
  intros Hall. unfold slot. destruct (arr !! Z.to_nat i) as [nd|] eqn:E; [|reflexivity].
  rewrite Forall_forall in Hall. apply Hall, list_elem_of_lookup. eauto.
Qed.

Lemma IMAP_pop_tight fuel : forall node id,
  node_tightb node = true -> node_tightb (snd (IMAP_pop fuel node id)) = true.
Proof.
  induction fuel as [|fuel IH]; intros node id Ht; [exact Ht|].
  rewrite IMAP_pop_S. cbv zeta.
  destruct node as [d0 [arr|] sz].
  2:{ rewrite child_none. cbn [node_zero nd_data nd_nodes].
      change (NULL =? NULL) with true. cbv iota.
      destruct (id / IMAP_NODE_SZ =? 0); exact Ht. }
  rewrite child_some. pose proof Ht as Ht'.
  apply node_tightb_some in Ht' as [Hsz Hall].
  pose proof (slot_tight arr (id mod IMAP_NODE_SZ) Hall) as Hnd.
  set (nd := slot arr (id mod IMAP_NODE_SZ)) in *.
  destruct (id / IMAP_NODE_SZ =? 0).
  - destruct (nd_data nd =? NULL); [exact Ht|].
    unfold set_size, free_nodes, set_nodes. cbn [nd_size nd_data nd_nodes].
    destruct (Z.eqb_spec (wrap64 (sz - 1)) 0) as [Hz|Hz]; cbn [snd].
    + apply node_tightb_none. exact Hz.
    + rewrite set_child_some. apply node_tightb_some. split; [exact Hz|].
      apply Forall_insert; [exact Hall|]. rewrite node_tightb_set_data. exact Hnd.
  - destruct (nd_nodes nd); [|exact Ht].
    specialize (IH nd (id / IMAP_NODE_SZ - 1) Hnd).
    destruct (IMAP_pop fuel nd (id / IMAP_NODE_SZ - 1)) as [v nd']. cbn [snd] in IH.
    rewrite set_child_some.
    assert (Hall' : Forall (fun c => node_tightb c = true)
                      (set_slot arr (id mod IMAP_NODE_SZ) nd'))
      by (apply Forall_insert; assumption).
    destruct (v =? NULL); cbn [snd].
    + apply node_tightb_some. auto.
    + unfold set_size, free_nodes, set_nodes. cbn [nd_size nd_data nd_nodes].
      destruct (Z.eqb_spec (wrap64 (sz - 1)) 0) as [Hz|Hz]; cbn [snd].
      * apply node_tightb_none. exact Hz.
      * apply node_tightb_some. auto.
Qed.

Lemma add_below_tight fuel d0 arr sz id data h :
  (forall node id data h,
     node_okb node = true -> node_tightb node = true -> key_below fuel id ->
     data <> NULL -> nd_size node + 1 < SIZE_MOD ->
     fst (fst (IMAP_add fuel node id data h)) <> RC_ERR_ALLOC ->
     node_tightb (snd (fst (IMAP_add fuel node id data h))) = true) ->
  node_okb (mk_node d0 (Some arr) sz) = true ->
  Forall (fun c => node_tightb c = true) arr ->
  key_below (S fuel) id -> data <> NULL -> sz + 1 < SIZE_MOD ->
  fst (fst (add_below fuel (mk_node d0 (Some arr) sz) id data h)) <> RC_ERR_ALLOC ->
  node_tightb (snd (fst (add_below fuel (mk_node d0 (Some arr) sz) id data h))) = true.
Proof.
  intros IH Hok Hall Hid Hdata Hmax.
  pose proof (add_below_ok fuel d0 arr sz id data h (IMAP_add_ok fuel) Hok Hid Hdata Hmax)
    as Hpost.
  pose proof (key_below_digit _ _ Hid) as Hi.
  pose proof Hok as Hok'. apply node_okb_some in Hok' as (Hlen & Hokall & Hsum & _).
  pose proof (slot_in_range arr _ Hlen Hi) as Hslot.
  pose proof (node_count_le_parent arr _ _ Hslot Hokall) as Hle.
  (* the new size is not zero *)
  assert (Hsize : forall rc node' h',
            add_post (S fuel) (mk_node d0 (Some arr) sz) id data (rc, node', h') ->
            rc <> RC_ERR_ALLOC -> nd_size node' <> 0).
  { intros rc node' h' (_ & _ & [(-> & _)|(Hrc & Hs & _)]) Hne; [contradiction|].
    cbn [nd_size] in Hs. destruct (Z.eq_dec sz 0) as [Hz|Hz].
    - assert (He : node_entries (mk_node d0 (Some arr) sz) = [])
        by (apply node_okb_size_zero; assumption).
      rewrite (IMAP_get_empty _ _ _ Hok Hid He) in Hrc.
      change (NULL =? NULL) with true in Hrc. cbv iota in Hrc. lia.
    - rewrite Hs, Hrc.
      destruct (IMAP_get (S fuel) (mk_node d0 (Some arr) sz) id =? NULL); lia. }
  revert Hpost. unfold add_below. rewrite child_some.
  destruct (Z.eqb_spec (id / IMAP_NODE_SZ) 0) as [Hq|Hq].
  - rewrite set_child_some. intros Hpost Hrc. cbn [fst snd] in *.
    specialize (Hsize _ _ _ Hpost Hrc).
    unfold set_size in *. cbn [nd_data nd_nodes nd_size] in *.
    apply node_tightb_some. split; [exact Hsize|].
    apply Forall_insert; [exact Hall|]. rewrite node_tightb_set_data.
    apply slot_tight, Hall.
  - specialize (IH (slot arr (id mod IMAP_NODE_SZ)) (id / IMAP_NODE_SZ - 1) data h
                  (slot_okb _ _ Hokall) (slot_tight _ _ Hall)
                  (key_below_next _ _ Hid Hq) Hdata ltac:(lia)).
    destruct (IMAP_add fuel (slot arr (id mod IMAP_NODE_SZ)) (id / IMAP_NODE_SZ - 1) data h)
      as [[rc nd'] h2].
    rewrite set_child_some. intros Hpost Hrc. cbn [fst snd] in *.
    specialize (Hsize _ _ _ Hpost Hrc). specialize (IH Hrc).
    assert (Hall' : Forall (fun c => node_tightb c = true)
                      (set_slot arr (id mod IMAP_NODE_SZ) nd'))
      by (apply Forall_insert; assumption).
    destruct (rc >? 0); unfold set_size in *; cbn [nd_data nd_nodes nd_size] in *;
      apply node_tightb_some; auto.
Qed.

Lemma IMAP_add_tight fuel : forall node id data h,
  node_okb node = true -> node_tightb node = true -> key_below fuel id ->
  data <> NULL -> nd_size node + 1 < SIZE_MOD ->
  fst (fst (IMAP_add fuel node id data h)) <> RC_ERR_ALLOC ->
  node_tightb (snd (fst (IMAP_add fuel node id data h))) = true.
Proof.
  induction fuel as [|fuel IH]; intros node id data h Hok Ht Hid Hdata Hmax.
  - destruct Hid as [H0 H1]. simpl in H1. lia.
  - rewrite IMAP_add_S.
    destruct (Z.eqb_spec (nd_size node) 0) as [Hz|Hz].
    + destruct (alloc h) as [[|] h'].
      * pose proof (node_okb_fresh _ Hok Hz) as Hok1.
        apply (add_below_tight fuel (nd_data node) _ (nd_size node) id data h' IH);
          try assumption.
        apply Forall_replicate. reflexivity.
      * intros Hrc. exfalso. apply Hrc. reflexivity.
    + destruct node as [d0 [arr|] sz].
      * apply node_tightb_some in Ht as [_ Hall].
        apply add_below_tight; assumption.
      * apply node_okb_none in Hok. contradiction.
Qed.

Lemma imap_tightb_Forall imap :
  imap_tightb imap = true <-> Forall (fun c => node_tightb c = true) (imap_nodes imap).
Proof.
  unfold imap_tightb. rewrite forallb_forall, Forall_forall.
  setoid_rewrite list_elem_of_In. tauto.
Qed.

Lemma imap_okb_Forall imap :
  imap_okb imap = true -> Forall (fun c => node_okb c = true) (imap_nodes imap).
Proof. rewrite imap_okb_root. intros H. apply node_okb_some in H. tauto. Qed.

Lemma imap_add_tight imap id data h :
  imap_okb imap = true -> imap_tightb imap = true -> is_uint64 id -> data <> NULL ->
  imap_len imap + 1 < SIZE_MOD ->
  fst (fst (imap_add imap id data h)) <> RC_ERR_ALLOC ->
  imap_tightb (snd (fst (imap_add imap id data h))) = true.
Proof.
  intros Hok Ht Hid Hdata Hmax. apply imap_tightb_Forall in Ht.
  pose proof (imap_okb_Forall _ Hok) as Hokall.
  pose proof (key_below_digit _ _ (key_below_root _ Hid)) as Hi.
  pose proof Hok as Hok'. rewrite imap_okb_root in Hok'.
  apply node_okb_some in Hok' as (Hlen & _ & Hsum & _).
  pose proof (slot_in_range _ _ Hlen Hi) as Hslot.
  pose proof (node_count_le_parent _ _ _ Hslot Hokall) as Hle. cbn [imap_root] in Hsum.
  unfold imap_add.
  destruct (Z.eqb_spec (id / IMAP_NODE_SZ) 0) as [Hq|Hq].
  - intros _. cbn [fst snd]. apply imap_tightb_Forall. cbn [imap_nodes].
    apply Forall_insert; [exact Ht|]. rewrite node_tightb_set_data. apply slot_tight, Ht.
  - pose proof (IMAP_add_tight IMAP_DEPTH (slot (imap_nodes imap) (id mod IMAP_NODE_SZ))
                  (id / IMAP_NODE_SZ - 1) data h (slot_okb _ _ Hokall) (slot_tight _ _ Ht)
                  (key_below_uint64 _ Hid Hq) Hdata ltac:(lia)) as Hnd.
    destruct (IMAP_add IMAP_DEPTH (slot (imap_nodes imap) (id mod IMAP_NODE_SZ))
                (id / IMAP_NODE_SZ - 1) data h) as [[rc nd'] h'].
    cbn [fst snd] in *. intros Hrc. apply imap_tightb_Forall. cbn [imap_nodes].
    apply Forall_insert; [exact Ht|]. apply Hnd, Hrc.
Qed.

Lemma imap_pop_tight imap id :
  imap_tightb imap = true -> imap_tightb (snd (imap_pop imap id)) = true.
Proof.
  intros Ht. pose proof Ht as Ht'. apply imap_tightb_Forall in Ht'.
  unfold imap_pop.
  pose proof (slot_tight _ (id mod IMAP_NODE_SZ) Ht') as Hnd.
  set (nd := slot (imap_nodes imap) (id mod IMAP_NODE_SZ)) in *.
  destruct (id / IMAP_NODE_SZ =? 0).
  - destruct (nd_data nd =? NULL); [exact Ht|]. cbn [snd].
    apply imap_tightb_Forall. cbn [imap_nodes].
    apply Forall_insert; [exact Ht'|]. rewrite node_tightb_set_data. exact Hnd.
  - pose proof (IMAP_pop_tight IMAP_DEPTH nd (id / IMAP_NODE_SZ - 1) Hnd) as Hp.
    destruct (nd_nodes nd).
    + destruct (IMAP_pop IMAP_DEPTH nd (id / IMAP_NODE_SZ - 1)) as [v nd'].
      cbn [snd] in *. apply imap_tightb_Forall. cbn [imap_nodes].
      apply Forall_insert; assumption.
    + cbn [snd]. apply imap_tightb_Forall. cbn [imap_nodes].
      apply Forall_insert; assumption.
Qed.

Lemma imap_run_keeps_tight ops : forall imap h imap',
  imap_okb imap = true -> imap_tightb imap = true -> forallb op_okb ops = true ->
  imap_len imap + Z.of_nat (length ops) < SIZE_MOD ->
  imap_run ops imap h = Some imap' ->
  imap_tightb imap' = true.
Proof.
  induction ops as [|o ops IH]; intros imap h imap' Hok Ht Hops Hmax Hrun.
  - simpl in Hrun. injection Hrun as <-. exact Ht.
  - simpl in Hops. apply andb_true_iff in Hops as [Ho Hops].
    simpl length in Hmax. destruct o as [id data|id]; cbn [imap_run] in Hrun.
    + apply op_okb_add in Ho as [Hid Hdata].
      pose proof (imap_add_ok imap id data h Hok Hid Hdata ltac:(lia)) as Hadd.
      pose proof (imap_add_tight imap id data h Hok Ht Hid Hdata ltac:(lia)) as Htight.
      destruct (imap_add imap id data h) as [[rc imap1] h1]. cbn [fst snd] in Htight.
      destruct (Z.ltb_spec rc 0) as [Hneg|Hpos]; [discriminate|].
      assert (Hrc : rc <> RC_ERR_ALLOC) by (unfold RC_ERR_ALLOC; lia).
      destruct Hadd as (Hok1 & [(-> & _)|(_ & Hl & _)]); [contradiction|].
      apply (IH imap1 h1); try assumption; [apply Htight, Hrc|].
      rewrite Hl. destruct (imap_get imap id =? NULL); lia.
    + apply op_okb_pop in Ho as Hid.
      pose proof (imap_pop_ok imap id Hok Hid) as Hpop.
      pose proof (imap_pop_tight imap id Ht) as Htight.
      destruct (imap_pop imap id) as [v imap1]. cbn [snd] in *.
      destruct Hpop as (_ & Hok1 & Hl & _).
      apply (IH imap1 h); try assumption.
      rewrite Hl. destruct (v =? NULL); lia.
Qed.

(** As long as no allocation failed, [size == 0] exactly where the
    children array is absent: after any sequence of [imap_add] and
    [imap_pop] calls on a new map in which every [imap_add] succeeded, a
    node without children has size 0 and a node with a children array has
    a size that is not 0, at every level. *)
Theorem imap_run_tight ops h imap :
  forallb op_okb ops = true -> Z.of_nat (length ops) < SIZE_MOD ->
  imap_run ops imap_empty h = Some imap ->
  imap_tightb imap = true.
Proof.
  intros Hops Hmax Hrun.
  apply (imap_run_keeps_tight ops imap_empty h imap); try assumption; reflexivity.
Qed.

Lemma imap_run_tight_witness :
  imap_tightb (snd (fst (imap_add (snd (imap_pop (snd (fst (imap_add
      (snd (fst (imap_add imap_empty 33824 7 []))) 1056 8 []))) 33824)) 5 9 []))) = true.
Proof.
  apply (imap_run_tight [OpAdd 33824 7; OpAdd 1056 8; OpPop 33824; OpAdd 5 9] []).
  - reflexivity.
  - vm_compute. reflexivity.
  - vm_compute. reflexivity.
Defined.

(** ** Popping a key just added gives the map back *)

Lemma IMAP_pop_some fuel d0 arr s id :
  IMAP_pop (S fuel) (mk_node d0 (Some arr) s) id =
  let i := id mod IMAP_NODE_SZ in
  let nd := slot arr i in
  if id / IMAP_NODE_SZ =? 0
  then
    if nd_data nd =? NULL then (nd_data nd, mk_node d0 (Some arr) s)
    else if wrap64 (s - 1) =? 0
         then (nd_data nd, mk_node d0 None (wrap64 (s - 1)))
         else (nd_data nd, mk_node d0 (Some (set_slot arr i (set_data nd NULL))) (wrap64 (s - 1)))
  else
    match nd_nodes nd with
    | None => (NULL, mk_node d0 (Some arr) s)
    | Some _ =>
      let '(v, nd') := IMAP_pop fuel nd (id / IMAP_NODE_SZ - 1) in
      if v =? NULL then (v, mk_node d0 (Some (set_slot arr i nd')) s)
      else if wrap64 (s - 1) =? 0
           then (v, mk_node d0 None (wrap64 (s - 1)))
           else (v, mk_node d0 (Some (set_slot arr i nd')) (wrap64 (s - 1)))
    end.
Proof.
  rewrite IMAP_pop_S. cbv zeta. rewrite child_some.
  destruct (id / IMAP_NODE_SZ =? 0); [reflexivity|].
  destruct (nd_nodes (slot arr (id mod IMAP_NODE_SZ))); [|reflexivity].
  destruct (IMAP_pop fuel (slot arr (id mod IMAP_NODE_SZ)) (id / IMAP_NODE_SZ - 1)) as [v nd'].
  reflexivity.
Qed.

Lemma set_slot_twice arr i x y : set_slot (set_slot arr i x) i y = set_slot arr i y.
Proof. apply list_insert_insert_eq. Qed.

Lemma set_data_back nd d : nd_data nd = NULL -> set_data (set_data nd d) NULL = nd.
Proof. destruct nd as [d0 ns s]. cbn [nd_data]. intros ->. reflexivity. Qed.

Lemma add_below_pop fuel d0 arr sz id data h :
  (forall node id data h,
     node_okb node = true -> node_tightb node = true -> key_below fuel id ->
     data <> NULL -> nd_size node + 1 < SIZE_MOD -> IMAP_get fuel node id = NULL ->
     fst (fst (IMAP_add fuel node id data h)) <> RC_ERR_ALLOC ->
     IMAP_pop fuel (snd (fst (IMAP_add fuel node id data h))) id = (data, node)) ->
  node_okb (mk_node d0 (Some arr) sz) = true ->
  Forall (fun c => node_tightb c = true) arr ->
  key_below (S fuel) id -> data <> NULL -> sz + 1 < SIZE_MOD ->
  IMAP_get (S fuel) (mk_node d0 (Some arr) sz) id = NULL ->
  fst (fst (add_below fuel (mk_node d0 (Some arr) sz) id data h)) <> RC_ERR_ALLOC ->
  IMAP_pop (S fuel) (snd (fst (add_below fuel (mk_node d0 (Some arr) sz) id data h))) id
  = (data, if sz =? 0 then mk_node d0 None 0 else mk_node d0 (Some arr) sz).
Proof.
  intros IH Hok Hall Hid Hdata Hmax Hget.
  pose proof (key_below_digit _ _ Hid) as Hi.
  pose proof Hok as Hok'. apply node_okb_some in Hok' as (Hlen & Hokall & Hsum & _).
  pose proof (slot_in_range arr _ Hlen Hi) as Hslot.
  pose proof (node_count_le_parent arr _ _ Hslot Hokall) as Hle.
  rewrite IMAP_get_step, child_some in Hget.
  assert (Hdne : (data =? NULL) = false) by (apply Z.eqb_neq; exact Hdata).
  assert (Hw : wrap64 (sz + 1 - 1) = sz).
  { replace (sz + 1 - 1) with sz by lia. apply wrap64_small. lia. }
  assert (Hfin : (if wrap64 (sz + 1 - 1) =? 0
                  then (data, mk_node d0 None (wrap64 (sz + 1 - 1)))
                  else (data, mk_node d0 (Some arr) (wrap64 (sz + 1 - 1))))
                 = (data, if sz =? 0 then mk_node d0 None 0 else mk_node d0 (Some arr) sz)).
  { rewrite Hw. destruct (Z.eqb_spec sz 0) as [->|_]; reflexivity. }
  unfold add_below. rewrite child_some.
  set (i := id mod IMAP_NODE_SZ) in *. set (nd := slot arr i) in *.
  destruct (Z.eqb_spec (id / IMAP_NODE_SZ) 0) as [Hq|Hq].
  - (* the value went into node [i] *)
    intros _. rewrite Hget. change (NULL =? NULL) with true. cbv iota.
    rewrite set_child_some. unfold set_size. cbn [fst snd nd_data nd_nodes nd_size].
    rewrite (wrap64_small (sz + 1)) by lia.
    rewrite IMAP_pop_some. cbv zeta. fold i.
    rewrite slot_set_slot, Z.eqb_refl by assumption.
    destruct (Z.eqb_spec (id / IMAP_NODE_SZ) 0); [|contradiction].
    change (nd_data (set_data nd data)) with data.
    rewrite Hdne, set_slot_twice, (set_data_back nd data Hget).
    replace (set_slot arr i nd) with arr by (symmetry; apply set_slot_same).
    exact Hfin.
  - (* the key went below node [i] *)
    pose proof (key_below_next _ _ Hid Hq) as Hid'.
    pose proof (IMAP_add_ok fuel nd (id / IMAP_NODE_SZ - 1) data h (slot_okb _ _ Hokall)
                  Hid' Hdata ltac:(lia)) as Hpost.
    specialize (IH nd (id / IMAP_NODE_SZ - 1) data h (slot_okb _ _ Hokall)
                  (slot_tight _ _ Hall) Hid' Hdata ltac:(lia) Hget).
    destruct (IMAP_add fuel nd (id / IMAP_NODE_SZ - 1) data h) as [[rc nd'] h2].
    cbn [fst snd] in *. intros Hrc. specialize (IH Hrc).
    destruct Hpost as (_ & _ & [(-> & _)|(Hrc1 & _ & [arr' Hn'] & _)]); [contradiction|].
    rewrite Hget in Hrc1. change (NULL =? NULL) with true in Hrc1. cbv iota in Hrc1.
    subst rc. change (1 >? 0) with true. cbv iota.
    rewrite set_child_some. unfold set_size. cbn [nd_data nd_nodes nd_size].
    rewrite (wrap64_small (sz + 1)) by lia.
    rewrite IMAP_pop_some. cbv zeta. fold i.
    rewrite slot_set_slot, Z.eqb_refl by assumption.
    destruct (Z.eqb_spec (id / IMAP_NODE_SZ) 0); [contradiction|].
    rewrite Hn', IH, Hdne, set_slot_twice.
    replace (set_slot arr i nd) with arr by (symmetry; apply set_slot_same).
    exact Hfin.
Qed.

Lemma IMAP_pop_add fuel : forall node id data h,
  node_okb node = true -> node_tightb node = true -> key_below fuel id ->
  data <> NULL -> nd_size node + 1 < SIZE_MOD -> IMAP_get fuel node id = NULL ->
  fst (fst (IMAP_add fuel node id data h)) <> RC_ERR_ALLOC ->
  IMAP_pop fuel (snd (fst (IMAP_add fuel node id data h))) id = (data, node).
Proof.
  induction fuel as [|fuel IH]; intros node id data h Hok Ht Hid Hdata Hmax Hget.
  - destruct Hid as [H0 H1]. simpl in H1. lia.
  - rewrite IMAP_add_S.
    destruct (Z.eqb_spec (nd_size node) 0) as [Hz|Hz].
    + destruct (alloc h) as [[|] h'].
      * pose proof (node_okb_fresh _ Hok Hz) as Hok1.
        pose proof (node_okb_size_zero _ Hok Hz) as He.
        assert (Hnode : node = mk_node (nd_data node) None 0).
        { destruct node as [d0 [arr|] sz]; cbn [nd_size] in Hz; subst sz; [|reflexivity].
          apply node_tightb_some in Ht as [Hne _]. contradiction. }
        unfold set_nodes. intros Hrc.
        rewrite (add_below_pop fuel (nd_data node) _ (nd_size node) id data h' IH);
          try assumption.
        -- rewrite Hz. change (0 =? 0) with true. cbv iota. rewrite <- Hnode. reflexivity.
        -- apply Forall_replicate. reflexivity.
        -- apply IMAP_get_empty; [exact Hok1|exact Hid|].
           apply node_okb_size_zero; [exact Hok1|exact Hz].
      * intros Hrc. exfalso. apply Hrc. reflexivity.
    + destruct node as [d0 [arr|] sz].
      * pose proof Ht as Ht'. apply node_tightb_some in Ht' as [_ Hall].
        intros Hrc. rewrite add_below_pop; try assumption.
        cbn [nd_size] in Hz. destruct (Z.eqb_spec sz 0); [contradiction|reflexivity].
      * apply node_okb_none in Hok. contradiction.
Qed.

(** On a map that went through successful calls only, adding a new key and
    popping it again gives back the value and the very map of before:
    every array allocated for the key is released again. *)
Theorem imap_pop_add_restores imap id data h :
  imap_okb imap = true -> imap_tightb imap = true -> is_uint64 id -> data <> NULL ->
  imap_len imap + 1 < SIZE_MOD -> imap_get imap id = NULL ->
  fst (fst (imap_add imap id data h)) <> RC_ERR_ALLOC ->
  imap_pop (snd (fst (imap_add imap id data h))) id = (data, imap).
Proof.
  intros Hok Ht Hid Hdata Hmax Hget. apply imap_tightb_Forall in Ht.
  pose proof (imap_okb_Forall _ Hok) as Hokall.
  destruct (imap_okb_len _ Hok) as [_ Hlen].
  pose proof (key_below_digit _ _ (key_below_root _ Hid)) as Hi.
  pose proof Hok as Hok'. rewrite imap_okb_root in Hok'.
  apply node_okb_some in Hok' as (Hlen32 & _ & Hsum & _). cbn [imap_root] in Hsum.
  pose proof (slot_in_range _ _ Hlen32 Hi) as Hslot.
  pose proof (node_count_le_parent _ _ _ Hslot Hokall) as Hle.
  rewrite imap_get_root, IMAP_get_step in Hget. unfold imap_root in Hget.
  rewrite child_some in Hget.
  assert (Hdne : (data =? NULL) = false) by (apply Z.eqb_neq; exact Hdata).
  assert (Hw : wrap64 (wrap64 (imap_len imap + 1) - 1) = imap_len imap).
  { rewrite (wrap64_small (imap_len imap + 1)) by lia.
    replace (imap_len imap + 1 - 1) with (imap_len imap) by lia.
    apply wrap64_small. lia. }
  assert (Heta : mk_imap (imap_len imap) (imap_nodes imap) = imap)
    by (destruct imap; reflexivity).
  unfold imap_add.
  set (i := id mod IMAP_NODE_SZ) in *. set (nd := slot (imap_nodes imap) i) in *.
  destruct (Z.eqb_spec (id / IMAP_NODE_SZ) 0) as [Hq|Hq].
  - intros _. cbn [fst snd]. rewrite Hget. change (NULL =? NULL) with true. cbv iota.
    unfold imap_pop. cbn [imap_nodes imap_len]. fold i.
    rewrite slot_set_slot, Z.eqb_refl by assumption.
    destruct (Z.eqb_spec (id / IMAP_NODE_SZ) 0); [|contradiction].
    change (nd_data (set_data nd data)) with data.
    rewrite Hdne, set_slot_twice, (set_data_back nd data Hget), Hw.
    replace (set_slot (imap_nodes imap) i nd) with (imap_nodes imap)
      by (symmetry; apply set_slot_same).
    rewrite Heta. reflexivity.
  - pose proof (key_below_uint64 _ Hid Hq) as Hid'.
    pose proof (IMAP_add_ok IMAP_DEPTH nd (id / IMAP_NODE_SZ - 1) data h
                  (slot_okb _ _ Hokall) Hid' Hdata ltac:(lia)) as Hpost.
    pose proof (IMAP_pop_add IMAP_DEPTH nd (id / IMAP_NODE_SZ - 1) data h
                  (slot_okb _ _ Hokall) (slot_tight _ _ Ht) Hid' Hdata ltac:(lia) Hget)
      as Hpop.
    destruct (IMAP_add IMAP_DEPTH nd (id / IMAP_NODE_SZ - 1) data h) as [[rc nd'] h2].
    cbn [fst snd] in *. intros Hrc. specialize (Hpop Hrc).
    destruct Hpost as (_ & _ & [(-> & _)|(Hrc1 & _ & [arr' Hn'] & _)]); [contradiction|].
    rewrite Hget in Hrc1. change (NULL =? NULL) with true in Hrc1. cbv iota in Hrc1.
    subst rc. change (1 >? 0) with true. cbv iota.
    unfold imap_pop. cbn [imap_nodes imap_len]. fold i.
    rewrite slot_set_slot, Z.eqb_refl by assumption.
    destruct (Z.eqb_spec (id / IMAP_NODE_SZ) 0); [contradiction|].
    rewrite Hn', Hpop, Hdne, set_slot_twice, Hw.
    replace (set_slot (imap_nodes imap) i nd) with (imap_nodes imap)
      by (symmetry; apply set_slot_same).
    rewrite Heta. reflexivity.
Qed.

Lemma imap_pop_add_restores_witness :
  imap_pop (snd (fst (imap_add (snd (fst (imap_add imap_empty 5 7 [])))
                        (2 ^ 64 - 1) 8 []))) (2 ^ 64 - 1)
  = (8, snd (fst (imap_add imap_empty 5 7 []))).
Proof.
  apply (imap_pop_add_restores (snd (fst (imap_add imap_empty 5 7 []))) (2 ^ 64 - 1) 8 []).
  - vm_compute. reflexivity.
  - vm_compute. reflexivity.
  - unfold is_uint64. lia.
  - unfold NULL. lia.
  - vm_compute. reflexivity.
  - vm_compute. reflexivity.
  - vm_compute. discriminate.
Defined.

(** ** Creation *)

(** [imap_new] either fails, when its allocation fails, or returns a
    well-formed map with count 0 in which no key is bound and no node has
    children. *)
Theorem imap_new_empty h :
  match imap_new h with
  | (Some imap, _) =>
    imap_okb imap = true /\ imap_tightb imap = true /\ imap_len imap = 0
    /\ imap_entries imap = []
    /\ forall k, imap_get imap k = NULL /\ imap_pop imap k = (NULL, imap)
  | (None, _) => fst (alloc h) = false
  end.
Proof.
  unfold imap_new. destruct (alloc h) as [[|] h']; [|reflexivity].
  fold imap_empty.
  assert (Hget : forall k, imap_get imap_empty k = NULL).
  { intros k. unfold imap_get, imap_empty. cbn [imap_nodes].
    rewrite slot_replicate_zero. cbn [node_zero nd_data nd_nodes].
    destruct (k / IMAP_NODE_SZ =? 0); reflexivity. }
  split; [reflexivity|]. split; [reflexivity|]. split; [reflexivity|].
  split; [reflexivity|]. intros k. split; [apply Hget|].
  unfold imap_pop, imap_empty. cbn [imap_nodes imap_len].
  rewrite slot_replicate_zero. cbn [node_zero nd_data nd_nodes].
  change (NULL =? NULL) with true. cbv iota.
  destruct (k / IMAP_NODE_SZ =? 0); try reflexivity.
  pose proof (set_slot_same (replicate (Z.to_nat IMAP_NODE_SZ) node_zero)
                (k mod IMAP_NODE_SZ)) as Hs.
  rewrite slot_replicate_zero in Hs. rewrite Hs. reflexivity.
Qed.

(** ** Destruction *)

(** [imap_free] and [IMAP_node_free] only release memory.  The model
    counts the calls of [free]: one per children array the traversal
    reaches, and one for the handle. *)
Definition free_loop (rec : imap_node -> nat -> nat)
  (arr : list imap_node) (n : nat) : nat :=
  fold_left
    (fun n nd =>
       match nd_nodes nd with
       | None => n
       | Some _ => rec nd n
       end)
    arr n.

Fixpoint IMAP_node_free (node : imap_node) (n : nat) : nat :=
  match node with
  | mk_node _ (Some arr) _ => S (free_loop IMAP_node_free arr n)
  | mk_node _ None _ => n
  end.

Definition imap_free (imap : imap_t) : nat :=
  S (if imap_len imap =? 0 then 0%nat
     else free_loop IMAP_node_free (imap_nodes imap) 0%nat).

Section FreeCallback.
Context {A : Type}.
Variable cb : ptr -> A -> Z * A.

(** The loop of [imap_free_cb] and [IMAP_node_free_cb]; the value the
    callback returns is not used.  The state is the number of calls of
    [free] and the context of the callback. *)
Definition free_cb_loop (rec : imap_node -> nat * A -> nat * A)
  (arr : list imap_node) (st : nat * A) : nat * A :=
  fold_left
    (fun st nd =>
       let st1 :=
         if nd_data nd =? NULL then st
         else (fst st, snd (cb (nd_data nd) (snd st))) in
       match nd_nodes nd with
       | None => st1
       | Some _ => rec nd st1
       end)
    arr st.

Fixpoint IMAP_node_free_cb (node : imap_node) (st : nat * A) : nat * A :=
  match node with
  | mk_node _ (Some arr) _ =>
    let st' := free_cb_loop IMAP_node_free_cb arr st in (S (fst st'), snd st')
  | mk_node _ None _ => st
  end.

Definition imap_free_cb (imap : imap_t) (a : A) : nat * A :=
  let st' :=
    if imap_len imap =? 0 then (0%nat, a)
    else free_cb_loop IMAP_node_free_cb (imap_nodes imap) (0%nat, a) in
  (S (fst st'), snd st').
End FreeCallback.

(** The children arrays linked below a node, the node's own included. *)
Fixpoint node_arrays (node : imap_node) : nat :=
  match node with
  | mk_node _ (Some arr) _ => S (sum_list_with node_arrays arr)
  | mk_node _ None _ => 0
  end.

Definition imap_arrays (imap : imap_t) : nat := sum_list_with node_arrays (imap_nodes imap).

Lemma node_arrays_none nd : nd_nodes nd = None -> node_arrays nd = 0%nat.
Proof. destruct nd as [d [arr|] s]; [discriminate|reflexivity]. Qed.

Lemma free_loop_count arr : forall n,
  Forall (fun nd => forall n, IMAP_node_free nd n = (n + node_arrays nd)%nat) arr ->
  free_loop IMAP_node_free arr n = (n + sum_list_with node_arrays arr)%nat.
Proof.
  induction arr as [|nd arr IH]; intros n Hall; [simpl; lia|].
  apply Forall_cons in Hall as [Hnd Hall].
  unfold free_loop in *. cbn [fold_left sum_list_with].
  rewrite IH by exact Hall.
  destruct (nd_nodes nd) eqn:E; [rewrite Hnd; lia|].
  rewrite (node_arrays_none _ E). lia.
Qed.

Lemma IMAP_node_free_count node : forall n,
  IMAP_node_free node n = (n + node_arrays node)%nat.
Proof.
  induction node as [d sz|d arr sz IH] using imap_node_ind; intros n; [simpl; lia|].
  cbn [IMAP_node_free node_arrays]. rewrite (free_loop_count arr n IH). lia.
Qed.

Lemma tight_no_arrays arr :
  Forall (fun c => node_tightb c = true) arr ->
  Forall (fun c => node_okb c = true) arr ->
  sum_list_with node_weight arr = 0%nat ->
  sum_list_with node_arrays arr = 0%nat.
Proof.
  induction arr as [|nd arr IH]; intros Ht Hok Hw; [reflexivity|].
  apply Forall_cons in Ht as [Hnt Ht]. apply Forall_cons in Hok as [Hnok Hok].
  cbn [sum_list_with] in *.
  rewrite IH by (try assumption; lia).
  destruct nd as [d [arr'|] s]; [|reflexivity].
  apply node_tightb_some in Hnt as [Hs _].
  pose proof (node_okb_count _ Hnok) as Hc. unfold node_count in Hc. cbn [nd_size] in Hc.
  unfold node_weight in Hw. lia.
Qed.

(** On a well-formed map in which children arrays are present only where
    something is stored, [imap_free] calls [free] once for every children
    array of the tree and once for the handle. *)
Theorem imap_free_releases_all imap :
  imap_okb imap = true -> imap_tightb imap = true ->
  imap_free imap = S (imap_arrays imap).
Proof.
  intros Hok Ht. unfold imap_free, imap_arrays. f_equal.
  destruct (Z.eqb_spec (imap_len imap) 0) as [Hz|Hz].
  - symmetry. apply tight_no_arrays.
    + apply imap_tightb_Forall, Ht.
    + apply imap_okb_Forall, Hok.
    + rewrite imap_okb_root in Hok. apply node_okb_some in Hok as (_ & _ & Hsum & _).
      cbn [imap_root] in Hsum. lia.
  - rewrite free_loop_count; [reflexivity|].
    apply Forall_forall. intros nd _. apply IMAP_node_free_count.
Qed.

Lemma imap_free_releases_all_witness :
  imap_free (snd (fst (imap_add (snd (fst (imap_add imap_empty 33824 7 []))) 5 8 [])))
  = S (imap_arrays (snd (fst (imap_add (snd (fst (imap_add imap_empty 33824 7 []))) 5 8 [])))).
Proof.
  apply imap_free_releases_all; vm_compute; reflexivity.
Defined.

(** After a failed [imap_add] the count can be 0 while arrays are linked:
    [imap_free] then skips its loop and releases the handle only. *)
Theorem imap_free_after_failed_add data :
  let imap := snd (fst (imap_add imap_empty 1056 data [true; false])) in
  imap_okb imap = true /\ imap_arrays imap = 1%nat /\ imap_free imap = 1%nat.
Proof. vm_compute. repeat split; reflexivity. Qed.

Section FreeCallbackFacts.
Context {A : Type}.
Variable cb : ptr -> A -> Z * A.

Lemma visit_app l1 l2 (a : A) : visit cb (l1 ++ l2) a = visit cb l2 (visit cb l1 a).
Proof. apply fold_left_app. Qed.

Lemma free_cb_loop_values arr : forall i st,
  Forall (fun nd => forall st,
            IMAP_node_free_cb cb nd st
            = ((fst st + node_arrays nd)%nat, visit cb (node_values nd) (snd st))) arr ->
  free_cb_loop cb (IMAP_node_free_cb cb) arr st
  = ((fst st + sum_list_with node_arrays arr)%nat,
     visit cb (map snd (entries_loop node_entries i arr)) (snd st)).
Proof.
  induction arr as [|nd arr IH]; intros i st Hall.
  - destruct st as [n a]. simpl. f_equal. lia.
  - apply Forall_cons in Hall as [Hnd Hall].
    rewrite values_loop_cons, !visit_app.
    unfold free_cb_loop in *. cbn [fold_left sum_list_with].
    rewrite (IH (i + 1)) by exact Hall.
    assert (Hstep : (match nd_nodes nd with
                     | Some _ =>
                       IMAP_node_free_cb cb nd
                         (if nd_data nd =? NULL then st
                          else (fst st, snd (cb (nd_data nd) (snd st))))
                     | None =>
                       if nd_data nd =? NULL then st
                       else (fst st, snd (cb (nd_data nd) (snd st)))
                     end)
                    = ((fst st + node_arrays nd)%nat,
                       visit cb (node_values nd)
                         (visit cb (if nd_data nd =? NULL then [] else [nd_data nd])
                            (snd st)))).
    { destruct (nd_nodes nd) eqn:E.
      - rewrite Hnd. destruct (nd_data nd =? NULL); reflexivity.
      - rewrite (node_values_none _ E), (node_arrays_none _ E).
        destruct st as [n a]. destruct (nd_data nd =? NULL); simpl; f_equal; lia. }
    rewrite Hstep. cbn [fst snd]. f_equal. lia.
Qed.

Lemma IMAP_node_free_cb_values node : forall st,
  IMAP_node_free_cb cb node st
  = ((fst st + node_arrays node)%nat, visit cb (node_values node) (snd st)).
Proof.
  induction node as [d sz|d arr sz IH] using imap_node_ind; intros st.
  - destruct st as [n a]. simpl. f_equal. lia.
  - cbn [IMAP_node_free_cb node_arrays]. rewrite (free_cb_loop_values arr 0 st IH).
    cbn [fst snd]. f_equal. lia.
Qed.
End FreeCallbackFacts.

(** [imap_free_cb] on a well-formed map invokes the callback once on each
    stored value, in the order of [imap_walk], whatever the callback
    returns; and where children arrays are present only below stored
    values, it calls [free] once for every children array and once for the
    handle. *)
Theorem imap_free_cb_visits_all {A : Type} (cb : ptr -> A -> Z * A) imap a :
  imap_okb imap = true ->
  snd (imap_free_cb cb imap a) = visit cb (imap_values imap) a
  /\ snd (imap_free_cb cb imap a) = snd (imap_walk cb imap a)
  /\ (imap_tightb imap = true -> fst (imap_free_cb cb imap a) = S (imap_arrays imap)).
Proof.
  intros Hok.
  assert (Hloop : free_cb_loop cb (IMAP_node_free_cb cb) (imap_nodes imap) (0%nat, a)
                  = (imap_arrays imap, visit cb (imap_values imap) a)).
  { rewrite (free_cb_loop_values cb _ 0); [reflexivity|].
    apply Forall_forall. intros nd _. apply IMAP_node_free_cb_values. }
  assert (Hv : snd (imap_free_cb cb imap a) = visit cb (imap_values imap) a).
  { unfold imap_free_cb. cbn [snd].
    destruct (Z.eqb_spec (imap_len imap) 0) as [Hz|Hz].
    - rewrite (imap_okb_empty _ Hok Hz). reflexivity.
    - rewrite Hloop. reflexivity. }
  split; [exact Hv|]. split.
  - rewrite Hv, imap_walk_values by exact Hok. symmetry. apply walk_values_visit.
  - intros Ht. unfold imap_free_cb. cbn [fst]. f_equal.
    destruct (Z.eqb_spec (imap_len imap) 0) as [Hz|Hz]; [|rewrite Hloop; reflexivity].
    symmetry. apply tight_no_arrays.
    + apply imap_tightb_Forall, Ht.
    + apply imap_okb_Forall, Hok.
    + rewrite imap_okb_root in Hok. apply node_okb_some in Hok as (_ & _ & Hsum & _).
      cbn [imap_root] in Hsum. lia.
Qed.

Lemma imap_free_cb_visits_all_witness :
  let imap := snd (fst (imap_add (snd (fst (imap_add (snd (fst (imap_add imap_empty
                1056 7 []))) 1 8 []))) 2 9 [])) in
  let cb := fun (v : ptr) (a : list ptr) => (0, a ++ [v]) in
  snd (imap_free_cb cb imap []) = visit cb (imap_values imap) []
  /\ snd (imap_free_cb cb imap []) = snd (imap_walk cb imap [])
  /\ (imap_tightb imap = true -> fst (imap_free_cb cb imap []) = S (imap_arrays imap)).
Proof.
  apply (imap_free_cb_visits_all (fun (v : ptr) (a : list ptr) => (0, a ++ [v]))).
  vm_compute. reflexivity.
Defined.

(** ** The list of values with reference counts *)

(** Modelled from the spec: [slist_object_incref] (slist/slist.h is not
    among the sources) "increments each value's external reference count";
    the model records each invocation, in order, in a log of the values it
    was invoked on. *)
Definition slist_object_incref (d : ptr) (log : list ptr) : list ptr := log ++ [d].

(** The loop of [imap_2slist_ref] and [IMAP_2slist_ref]; the state is the
    list and the log of increments. *)
Definition slist_ref_loop (rec : imap_node -> slist_t * list ptr -> slist_t * list ptr)
  (arr : list imap_node) (st : slist_t * list ptr) : slist_t * list ptr :=
  fold_left
    (fun st nd =>
       let st1 :=
         if nd_data nd =? NULL then st
         else (slist_append (fst st) (nd_data nd),
               slist_object_incref (nd_data nd) (snd st)) in
       match nd_nodes nd with
       | None => st1
       | Some _ => rec nd st1
       end)
    arr st.

Fixpoint IMAP_2slist_ref (node : imap_node) (st : slist_t * list ptr)
  : slist_t * list ptr :=
  match node with
  | mk_node _ (Some arr) _ => slist_ref_loop IMAP_2slist_ref arr st
  | mk_node _ None _ => st
  end.

Definition imap_2slist_ref (imap : imap_t) (h : heap) (log : list ptr)
  : option slist_t * heap * list ptr :=
  match slist_new (imap_len imap) h with
  | (None, h') => (None, h', log)
  | (Some sl, h') =>
    let st :=
      if imap_len imap =? 0 then (sl, log)
      else slist_ref_loop IMAP_2slist_ref (imap_nodes imap) (sl, log) in
    (Some (fst st), h', snd st)
  end.

Lemma slist_ref_loop_values arr : forall i st,
  Forall (fun nd => forall st,
            IMAP_2slist_ref nd st
            = (mk_slist (slist_size (fst st)) (slist_data (fst st) ++ node_values nd),
               snd st ++ node_values nd)) arr ->
  slist_ref_loop IMAP_2slist_ref arr st
  = (mk_slist (slist_size (fst st))
       (slist_data (fst st) ++ map snd (entries_loop node_entries i arr)),
     snd st ++ map snd (entries_loop node_entries i arr)).
Proof.
  induction arr as [|nd arr IH]; intros i st Hall.
  - destruct st as [[sz l] log]. simpl. rewrite !app_nil_r. reflexivity.
  - apply Forall_cons in Hall as [Hnd Hall].
    rewrite values_loop_cons.
    unfold slist_ref_loop in *. cbn [fold_left]. rewrite (IH (i + 1)) by exact Hall.
    assert (Hstep : (match nd_nodes nd with
                     | Some _ =>
                       IMAP_2slist_ref nd
                         (if nd_data nd =? NULL then st
                          else (slist_append (fst st) (nd_data nd),
                                slist_object_incref (nd_data nd) (snd st)))
                     | None =>
                       if nd_data nd =? NULL then st
                       else (slist_append (fst st) (nd_data nd),
                             slist_object_incref (nd_data nd) (snd st))
                     end)
                    = (mk_slist (slist_size (fst st))
                         (slist_data (fst st)
                          ++ (if nd_data nd =? NULL then [] else [nd_data nd])
                          ++ node_values nd),
                       snd st ++ (if nd_data nd =? NULL then [] else [nd_data nd])
                       ++ node_values nd)).
    { destruct st as [[sz l] log]. unfold slist_object_incref, slist_append.
      destruct (nd_nodes nd) eqn:E.
      - rewrite Hnd. destruct (nd_data nd =? NULL); cbn [fst snd slist_size slist_data];
          rewrite <- ?app_assoc; reflexivity.
      - rewrite (node_values_none _ E), !app_nil_r.
        destruct (nd_data nd =? NULL); cbn [fst snd slist_size slist_data];
          rewrite ?app_nil_r; reflexivity. }
    rewrite Hstep. cbn [fst snd slist_size slist_data]. rewrite <- !app_assoc. reflexivity.
Qed.

Lemma IMAP_2slist_ref_values node : forall st,
  IMAP_2slist_ref node st
  = (mk_slist (slist_size (fst st)) (slist_data (fst st) ++ node_values node),
     snd st ++ node_values node).
Proof.
  induction node as [d sz|d arr sz IH] using imap_node_ind; intros st.
  - destruct st as [[s l] log]. unfold node_values. simpl. rewrite !app_nil_r. reflexivity.
  - apply (slist_ref_loop_values arr 0 st IH).
Qed.

(** [imap_2slist_ref] on a well-formed map: when the list is allocated it
    holds the values of the map in walk order, [len] of them, and the
    reference count of each listed value has been incremented once, in the
    same order; when the allocation fails no reference count is touched. *)
Theorem imap_2slist_ref_values imap h log :
  imap_okb imap = true ->
  match imap_2slist_ref imap h log with
  | (Some sl, _, log') =>
    slist_data sl = imap_values imap
    /\ slist_len sl = imap_len imap
    /\ slist_size sl = imap_len imap
    /\ log' = log ++ imap_values imap
  | (None, _, log') => log' = log /\ fst (alloc h) = false
  end.
Proof.
  intros Hok. unfold imap_2slist_ref, slist_new.
  destruct (alloc h) as [[|] h']; [|split; reflexivity].
  destruct (imap_okb_len _ Hok) as [Hlen _].
  assert (Hl : imap_len imap = Z.of_nat (length (imap_values imap))).
  { rewrite Hlen. unfold imap_count, imap_values. rewrite length_map. reflexivity. }
  destruct (Z.eqb_spec (imap_len imap) 0) as [Hz|Hz].
  - rewrite (imap_okb_empty _ Hok Hz) in *. cbn [fst snd slist_data slist_size].
    rewrite app_nil_r. unfold slist_len. cbn [slist_data length]. repeat split; lia.
  - rewrite (slist_ref_loop_values _ 0).
    2:{ apply Forall_forall. intros nd _. apply IMAP_2slist_ref_values. }
    cbn [fst snd slist_data slist_size]. unfold slist_len. cbn [slist_data app].
    fold (imap_entries imap). fold (imap_values imap). repeat split; lia.
Qed.

Lemma imap_2slist_ref_values_witness :
  match imap_2slist_ref (snd (fst (imap_add (snd (fst (imap_add imap_empty
                1056 7 []))) 1 8 []))) [] [] with
  | (Some sl, _, log') =>
    slist_data sl = imap_values (snd (fst (imap_add (snd (fst (imap_add imap_empty
                1056 7 []))) 1 8 [])))
    /\ slist_len sl = imap_len (snd (fst (imap_add (snd (fst (imap_add imap_empty
                1056 7 []))) 1 8 [])))
    /\ slist_size sl = imap_len (snd (fst (imap_add (snd (fst (imap_add imap_empty
                1056 7 []))) 1 8 [])))
    /\ log' = [] ++ imap_values (snd (fst (imap_add (snd (fst (imap_add imap_empty
                1056 7 []))) 1 8 [])))
  | (None, _, log') => log' = [] /\ fst (alloc []) = false
  end.
Proof.
  apply (imap_2slist_ref_values (snd (fst (imap_add (snd (fst (imap_add imap_empty
                1056 7 []))) 1 8 []))) [] []).
  vm_compute. reflexivity.
Defined.

(** ** The sum of a walk *)

Lemma wrap_int_idem x y : wrap_int (wrap_int x + y) = wrap_int (x + y).
Proof.
  unfold wrap_int. f_equal.
  replace ((x + 2 ^ 31) mod 2 ^ 32 - 2 ^ 31 + y + 2 ^ 31)
    with ((x + 2 ^ 31) mod 2 ^ 32 + y) by lia.
  rewrite Z.add_mod_idemp_l by lia. f_equal. lia.
Qed.

Lemma wrap_int_small z : - 2 ^ 31 <= z < 2 ^ 31 -> wrap_int z = z.
Proof. intros H. unfold wrap_int. rewrite Z.mod_small; lia. Qed.

Definition sum_with (f : ptr -> Z) (vals : list ptr) : Z :=
  fold_right (fun v acc => f v + acc) 0 vals.

Lemma walk_values_sum {A : Type} (cb : ptr -> A -> Z * A) (f : ptr -> Z) vals :
  (forall v a, fst (cb v a) = f v) ->
  forall z a, fst (walk_values cb vals (wrap_int z, a)) = wrap_int (z + sum_with f vals).
Proof.
  intros Hcb. induction vals as [|v vals IH]; intros z a.
  - simpl. rewrite Z.add_0_r. reflexivity.
  - unfold walk_values in *. cbn [fold_left fst snd sum_with fold_right].
    pose proof (Hcb v a) as Hr. destruct (cb v a) as [r a']. cbn [fst] in Hr. subst r.
    rewrite wrap_int_idem, IH. f_equal. unfold sum_with. lia.
Qed.

(** [imap_walk] on a well-formed map, with a callback whose result depends
    on the value only: the walk returns the sum of the results over the
    stored values, as an [int]; with a callback that returns 1 it returns
    the count, as long as the count fits an [int]. *)
Theorem imap_walk_sum {A : Type} (cb : ptr -> A -> Z * A) (f : ptr -> Z) imap a :
  imap_okb imap = true -> (forall v a, fst (cb v a) = f v) ->
  fst (imap_walk cb imap a) = wrap_int (sum_with f (imap_values imap))
  /\ (- 2 ^ 31 <= sum_with f (imap_values imap) < 2 ^ 31 ->
      fst (imap_walk cb imap a) = sum_with f (imap_values imap))
  /\ ((forall v, f v = 1) -> imap_len imap < 2 ^ 31 ->
      fst (imap_walk cb imap a) = imap_len imap).
Proof.
  intros Hok Hcb.
  assert (Hsum : fst (imap_walk cb imap a) = wrap_int (sum_with f (imap_values imap))).
  { rewrite imap_walk_values by exact Hok.
    change (0, a) with (wrap_int 0, a). rewrite (walk_values_sum cb f _ Hcb). reflexivity. }
  split; [exact Hsum|]. split.
  - intros Hb. rewrite Hsum. apply wrap_int_small, Hb.
  - intros Hone Hlen. rewrite Hsum.
    destruct (imap_okb_len _ Hok) as [Hc Hr].
    assert (Hl : sum_with f (imap_values imap) = imap_len imap).
    { rewrite Hc. unfold imap_count, imap_values.
      induction (imap_entries imap) as [|e l IHl]; [reflexivity|].
      cbn [map sum_with fold_right length]. fold (sum_with f (map snd l)).
      rewrite IHl, Hone. lia. }
    rewrite Hl. apply wrap_int_small. lia.
Qed.

Lemma imap_walk_sum_witness :
  let imap := snd (fst (imap_add (snd (fst (imap_add (snd (fst (imap_add imap_empty
                1056 7 []))) 1 8 []))) 2 9 [])) in
  let cb := fun (v : ptr) (a : list ptr) => (1, a ++ [v]) in
  fst (imap_walk cb imap []) = wrap_int (sum_with (fun _ => 1) (imap_values imap))
  /\ (- 2 ^ 31 <= sum_with (fun _ => 1) (imap_values imap) < 2 ^ 31 ->
      fst (imap_walk cb imap []) = sum_with (fun _ => 1) (imap_values imap))
  /\ ((forall v : ptr, (fun _ : ptr => 1) v = 1) -> imap_len imap < 2 ^ 31 ->
      fst (imap_walk cb imap []) = imap_len imap).
Proof.
  apply (imap_walk_sum (fun (v : ptr) (a : list ptr) => (1, a ++ [v])) (fun _ => 1)).
  - vm_compute. reflexivity.
  - reflexivity.
Defined.

(** ** The bounded walk as a fold *)

(** [imap_walkn] on a well-formed map, for any callback: the walk is the
    fold over the values in walk order that calls the callback and takes
    its result off the budget while the budget is not zero.  With budget 0
    the callback is never called, on any map. *)
Theorem imap_walkn_fold {A : Type} (cb : ptr -> A -> Z * A) imap n a :
  imap_okb imap = true ->
  imap_walkn cb imap n a = walkn_values cb (imap_values imap) (n, a)
  /\ forall imap0 : imap_t, imap_walkn cb imap0 0 a = (0, a).
Proof.
  intros Hok. split; [apply imap_walkn_values, Hok|].
  intros imap0. unfold imap_walkn. destruct (imap_len imap0 =? 0); [reflexivity|].
  rewrite (walkn_loop_values cb _ 0).
  - apply walkn_values_zero. reflexivity.
  - apply Forall_forall. intros nd _. apply IMAP_walkn_values.
Qed.

Lemma imap_walkn_fold_witness :
  let imap := snd (fst (imap_add (snd (fst (imap_add imap_empty 1056 7 []))) 1 8 [])) in
  let cb := fun (v : ptr) (a : list ptr) => (v, a ++ [v]) in
  imap_walkn cb imap 7 [] = walkn_values cb (imap_values imap) (7, [])
  /\ forall imap0 : imap_t, imap_walkn cb imap0 0 [] = (0, []).
Proof.
  apply (imap_walkn_fold (fun (v : ptr) (a : list ptr) => (v, a ++ [v]))).
  vm_compute. reflexivity.
Defined.

(** ** Insert and delete, as a user sees them *)

(** [imap_add] of a non-null value under a 64-bit key on a well-formed map
    either fails, returning -1 and leaving every lookup and the count as
    they were, or binds the key to the value, leaves every other key as it
    was and adds one to the count exactly when the key was not bound. *)
Theorem imap_add_correct imap id data h :
  imap_okb imap = true -> is_uint64 id -> data <> NULL ->
  imap_len imap + 1 < SIZE_MOD ->
  let '(rc, imap', _) := imap_add imap id data h in
  imap_okb imap' = true /\
  ((rc = RC_ERR_ALLOC /\ imap_len imap' = imap_len imap
    /\ forall k, is_uint64 k -> imap_get imap' k = imap_get imap k)
   \/ (0 <= rc <= 1
       /\ imap_len imap' = imap_len imap + (if imap_get imap id =? NULL then 1 else 0)
       /\ imap_get imap' id = data
       /\ forall k, is_uint64 k -> k <> id -> imap_get imap' k = imap_get imap k)).
Proof.
  intros Hok Hid Hdata Hmax.
  pose proof (imap_add_ok imap id data h Hok Hid Hdata Hmax) as H.
  destruct (imap_add imap id data h) as [[rc imap'] h'].
  destruct H as (Hok' & [(-> & He & Hl)|(Hrc & Hl & Hg)]); (split; [exact Hok'|]).
  - left. split; [reflexivity|]. split; [exact Hl|].
    intros k Hk. rewrite !imap_get_root.
    rewrite imap_okb_root in Hok, Hok'. rewrite !imap_entries_root in He.
    apply IMAP_get_ext; try assumption; [apply key_below_root, Hk| |];
      intros v; rewrite He; intros Hin; exact Hin.
  - right. split; [|split; [exact Hl|split]].
    + rewrite Hrc. destruct (id / IMAP_NODE_SZ =? 0); [lia|].
      destruct (imap_get imap id =? NULL); lia.
    + rewrite (Hg id Hid), Z.eqb_refl. reflexivity.
    + intros k Hk Hne. rewrite (Hg k Hk).
      destruct (Z.eqb_spec k id); [contradiction|reflexivity].
Qed.

Lemma imap_add_correct_witness :
  let '(rc, imap', _) := imap_add (snd (fst (imap_add imap_empty 5 7 []))) (2 ^ 64 - 1) 8 [] in
  imap_okb imap' = true /\
  ((rc = RC_ERR_ALLOC /\ imap_len imap' = imap_len (snd (fst (imap_add imap_empty 5 7 [])))
    /\ forall k, is_uint64 k ->
         imap_get imap' k = imap_get (snd (fst (imap_add imap_empty 5 7 []))) k)
   \/ (0 <= rc <= 1
       /\ imap_len imap'
          = imap_len (snd (fst (imap_add imap_empty 5 7 [])))
            + (if imap_get (snd (fst (imap_add imap_empty 5 7 []))) (2 ^ 64 - 1) =? NULL
               then 1 else 0)
       /\ imap_get imap' (2 ^ 64 - 1) = 8
       /\ forall k, is_uint64 k -> k <> 2 ^ 64 - 1 ->
            imap_get imap' k = imap_get (snd (fst (imap_add imap_empty 5 7 []))) k)).
Proof.
  apply (imap_add_correct (snd (fst (imap_add imap_empty 5 7 []))) (2 ^ 64 - 1) 8 []).
  - vm_compute. reflexivity.
  - unfold is_uint64. lia.
  - unfold NULL. lia.
  - vm_compute. reflexivity.
Defined.

(** [imap_pop] of a 64-bit key on a well-formed map returns the value a
    lookup returns; afterwards the key is not bound, every other key is as
    it was, and the count is one less exactly when a value was returned. *)
Theorem imap_pop_correct imap id :
  imap_okb imap = true -> is_uint64 id ->
  let '(v, imap') := imap_pop imap id in
  v = imap_get imap id
  /\ imap_okb imap' = true
  /\ imap_len imap' = imap_len imap - (if v =? NULL then 0 else 1)
  /\ imap_get imap' id = NULL
  /\ forall k, is_uint64 k -> k <> id -> imap_get imap' k = imap_get imap k.
Proof.
  intros Hok Hid. pose proof (imap_pop_ok imap id Hok Hid) as H.
  destruct (imap_pop imap id) as [v imap'].
  destruct H as (Hv & Hok' & Hl & _ & Hg).
  split; [exact Hv|]. split; [exact Hok'|]. split; [exact Hl|]. split.
  - rewrite (Hg id Hid), Z.eqb_refl. reflexivity.
  - intros k Hk Hne. rewrite (Hg k Hk).
    destruct (Z.eqb_spec k id); [contradiction|reflexivity].
Qed.

Lemma imap_pop_correct_witness :
  let '(v, imap') := imap_pop (snd (fst (imap_add imap_empty 1056 7 []))) 1056 in
  v = imap_get (snd (fst (imap_add imap_empty 1056 7 []))) 1056
  /\ imap_okb imap' = true
  /\ imap_len imap'
     = imap_len (snd (fst (imap_add imap_empty 1056 7 []))) - (if v =? NULL then 0 else 1)
  /\ imap_get imap' 1056 = NULL
  /\ forall k, is_uint64 k -> k <> 1056 ->
       imap_get imap' k = imap_get (snd (fst (imap_add imap_empty 1056 7 []))) k.
Proof.
  apply (imap_pop_correct (snd (fst (imap_add imap_empty 1056 7 []))) 1056).
  - vm_compute. reflexivity.
  - unfold is_uint64. lia.
Defined.

(** ** Union keeps children arrays where something is stored *)

Definition union_tight (s : imap_node) : Prop :=
  forall d log,
    node_okb d = true -> node_okb s = true ->
    node_tightb d = true -> node_tightb s = true ->
    (exists arr, nd_nodes d = Some arr) ->
    nd_size d + nd_size s < SIZE_MOD ->
    node_tightb (fst (IMAP_union_ref d s log)) = true.

Lemma node_tightb_nodes_eq x y :
  nd_nodes x = nd_nodes y -> nd_size x = nd_size y -> node_tightb x = node_tightb y.
Proof.
  destruct x as [dx nx sx], y as [dy ny sy]. cbn [nd_nodes nd_size]. intros -> ->.
  destruct ny; reflexivity.
Qed.

Lemma union_slot_tight d s cnt log :
  union_tight s -> node_okb d = true -> node_okb s = true ->
  node_tightb d = true -> node_tightb s = true ->
  nd_size d + nd_size s < SIZE_MOD ->
  node_tightb (fst (fst (union_slot d s cnt log))) = true.
Proof.
  intros Hrec Hd Hs Htd Hts Hmax. unfold union_slot.
  set (r1 := if nd_data s =? NULL then (d, cnt, log)
             else if nd_data d =? NULL
                  then (set_data d (nd_data s), wrap64 (cnt + 1), log)
                  else (d, cnt, slist_object_decref (nd_data s) log)).
  assert (H1 : nd_nodes (fst (fst r1)) = nd_nodes d /\ nd_size (fst (fst r1)) = nd_size d).
  { unfold r1. destruct (nd_data s =? NULL); [split; reflexivity|].
    destruct (nd_data d =? NULL); split; reflexivity. }
  destruct r1 as [[d1 cnt1] log1]. cbn [fst] in H1. destruct H1 as [Hn1 Hs1].
  assert (Hok1 : node_okb d1 = true) by (rewrite (node_okb_nodes_eq d1 d); assumption).
  assert (Ht1 : node_tightb d1 = true) by (rewrite (node_tightb_nodes_eq d1 d); assumption).
  destruct (nd_nodes s) as [snodes|] eqn:Ens; [|exact Ht1].
  destruct (nd_nodes d1) as [dnodes|] eqn:End.
  - specialize (Hrec d1 log1 Hok1 Hs Ht1 Hts ltac:(eauto) ltac:(lia)).
    destruct (IMAP_union_ref d1 s log1) as [d' log']. exact Hrec.
  - cbn [fst]. rewrite (node_tightb_nodes_eq _ s); [exact Hts| |reflexivity].
    rewrite Ens. reflexivity.
Qed.

Lemma union_loop_tight sarr : forall darr cnt log,
  Forall union_tight sarr ->
  Forall (fun c => node_okb c = true) darr -> Forall (fun c => node_okb c = true) sarr ->
  Forall (fun c => node_tightb c = true) darr ->
  Forall (fun c => node_tightb c = true) sarr ->
  arr_weight darr + arr_weight sarr < SIZE_MOD ->
  Forall (fun c => node_tightb c = true)
    (fst (fst (union_loop IMAP_union_ref darr sarr cnt log))).
Proof.
  induction sarr as [|s sarr IH]; intros darr cnt log Hrec Hdok Hsok Hdt Hst Hmax.
  - destruct darr; exact Hdt.
  - destruct darr as [|d darr]; [exact Hdt|].
    apply Forall_cons in Hrec as [Hrs Hrec].
    apply Forall_cons in Hdok as [Hd Hdok]. apply Forall_cons in Hsok as [Hs Hsok].
    apply Forall_cons in Hdt as [Htd Hdt]. apply Forall_cons in Hst as [Hts Hst].
    rewrite !arr_weight_cons in Hmax.
    assert (Hw0 : forall arr, 0 <= arr_weight arr) by (intros; unfold arr_weight; lia).
    pose proof (Hw0 darr). pose proof (Hw0 sarr).
    assert (Hsz : forall nd, node_okb nd = true -> 0 <= nd_size nd <= weight nd).
    { intros nd Hnd. rewrite (node_okb_count _ Hnd), weight_eq. unfold node_count.
      destruct (nd_data nd =? NULL); lia. }
    pose proof (Hsz d Hd). pose proof (Hsz s Hs).
    rewrite union_loop_cons.
    pose proof (union_slot_tight d s cnt log Hrs Hd Hs Htd Hts ltac:(lia)) as Hslot.
    destruct (union_slot d s cnt log) as [[d2 cnt2] log2]. cbn [fst] in Hslot.
    specialize (IH darr cnt2 log2 Hrec Hdok Hsok Hdt Hst ltac:(lia)).
    destruct (union_loop IMAP_union_ref darr sarr cnt2 log2) as [[rest cnt3] log3].
    cbn [fst] in *. constructor; assumption.
Qed.

Lemma IMAP_union_ref_tight s : union_tight s.
Proof.
  induction s as [sd ss|sd sarr ss IH] using imap_node_ind;
    intros d log Hd Hs Htd Hts [darr Hn] Hmax.
  - destruct d as [dd dn dsz]. cbn [nd_nodes] in Hn. subst dn. exact Htd.
  - destruct d as [dd dn dsz]. cbn [nd_nodes] in Hn. subst dn.
    pose proof (IMAP_union_ref_ok (mk_node sd (Some sarr) ss) (mk_node dd (Some darr) dsz)
                  log Hd Hs ltac:(eauto) Hmax) as Hpost.
    pose proof (dup_values_length (node_entries (mk_node dd (Some darr) dsz))
                  (node_entries (mk_node sd (Some sarr) ss))) as Hdup.
    pose proof (node_okb_count _ Hs) as Hsc. pose proof (node_okb_count _ Hd) as Hdc.
    unfold node_count in *.
    pose proof Hd as Hd'. apply node_okb_some in Hd' as (_ & Hdall & Hdsz & _).
    pose proof Hs as Hs'. apply node_okb_some in Hs' as (_ & Hsall & Hssz & _).
    apply node_tightb_some in Htd as [Hdne Hdt]. apply node_tightb_some in Hts as [_ Hst].
    cbn [nd_size] in *.
    pose proof (union_loop_tight sarr darr dsz log IH Hdall Hsall Hdt Hst) as Hloop.
    unfold arr_weight in Hloop. specialize (Hloop ltac:(lia)).
    revert Hpost. rewrite IMAP_union_ref_some.
    destruct (union_loop IMAP_union_ref darr sarr dsz log) as [[darr' sz] log'].
    cbn [fst] in *. intros (_ & _ & _ & Hsz & _). cbn [nd_size] in Hsz.
    apply node_tightb_some. split; [lia|exact Hloop].
Qed.

(** [imap_union_ref] on well-formed maps in which children arrays are
    present only where something is stored leaves such a map: after the
    merge as well, a node has size 0 exactly when it has no children
    array. *)
Theorem imap_union_ref_tight dest src log :
  imap_okb dest = true -> imap_okb src = true ->
  imap_tightb dest = true -> imap_tightb src = true ->
  imap_len dest + imap_len src < SIZE_MOD ->
  imap_tightb (fst (fst (imap_union_ref dest src log))) = true.
Proof.
  intros Hd Hs Htd Hts Hmax. unfold imap_union_ref.
  destruct (imap_len src =? 0); [exact Htd|].
  pose proof (imap_okb_Forall _ Hd) as Hdall. pose proof (imap_okb_Forall _ Hs) as Hsall.
  rewrite imap_okb_root in Hd, Hs.
  apply node_okb_some in Hd as (_ & _ & Hdsz & _).
  apply node_okb_some in Hs as (_ & _ & Hssz & _).
  assert (Hrec : Forall union_tight (imap_nodes src)).
  { apply Forall_forall. intros nd _. apply IMAP_union_ref_tight. }
  pose proof (union_loop_tight (imap_nodes src) (imap_nodes dest) (imap_len dest) log Hrec
                Hdall Hsall (proj1 (imap_tightb_Forall _) Htd)
                (proj1 (imap_tightb_Forall _) Hts)) as Hloop.
  unfold arr_weight in Hloop. specialize (Hloop ltac:(lia)).
  destruct (union_loop IMAP_union_ref (imap_nodes dest) (imap_nodes src) (imap_len dest) log)
    as [[darr' len'] log'].
  cbn [fst] in *. apply imap_tightb_Forall. exact Hloop.
Qed.

Lemma imap_union_ref_tight_witness :
  imap_tightb (fst (fst (imap_union_ref
     (snd (fst (imap_add (snd (fst (imap_add imap_empty 1 101 []))) 1056 103 [])))
     (snd (fst (imap_add (snd (fst (imap_add imap_empty 4 104 []))) 2080 105 [])))
     []))) = true.
Proof.
  apply imap_union_ref_tight; vm_compute; reflexivity.
Defined.

(** ** The return code -1 and the allocator *)

(** What a call has asked of the allocator, by its return code: [h] holds
    the outcomes of the requests to come before the call and [h'] after
    it.  With -1 the last request made returned NULL and the ones before
    it succeeded; with any other code every request made succeeded. *)
Definition heap_used (rc : Z) (h h' : heap) : Prop :=
  if rc =? RC_ERR_ALLOC
  then exists pre, h = pre ++ false :: h' /\ Forall (fun b => b = true) pre
  else exists pre, h = pre ++ h' /\ Forall (fun b => b = true) pre.

Lemma heap_used_none rc h : rc <> RC_ERR_ALLOC -> heap_used rc h h.
Proof.
  intros Hrc. unfold heap_used. destruct (Z.eqb_spec rc RC_ERR_ALLOC); [contradiction|].
  exists []. split; [reflexivity|constructor].
Qed.

Lemma heap_used_alloc rc h h1 h' :
  alloc h = (true, h1) -> heap_used rc h1 h' -> heap_used rc h h'.
Proof.
  unfold alloc, heap_used. intros Ha H.
  destruct h as [|b h0].
  - injection Ha as <-. exact H.
  - injection Ha as -> ->.
    destruct (rc =? RC_ERR_ALLOC); destruct H as (pre & -> & Hpre);
      exists (true :: pre); (split; [reflexivity|constructor; [reflexivity|exact Hpre]]).
Qed.

Lemma heap_used_fail h h' : alloc h = (false, h') -> heap_used RC_ERR_ALLOC h h'.
Proof.
  unfold alloc, heap_used. intros Ha. destruct h as [|b h0]; [discriminate|].
  injection Ha as -> ->. cbn. exists []. split; [reflexivity|constructor].
Qed.

Lemma IMAP_add_heap fuel : forall node id data h,
  key_below fuel id ->
  heap_used (fst (fst (IMAP_add fuel node id data h))) h (snd (IMAP_add fuel node id data h)).
Proof.
  induction fuel as [|fuel IH]; intros node id data h Hid.
  - exfalso. destruct Hid as [H0 H1]. cbn in H1. lia.
  - assert (Hbelow : forall node1 h1,
              heap_used (fst (fst (add_below fuel node1 id data h1))) h1
                (snd (add_below fuel node1 id data h1))).
    { intros node1 h1. unfold add_below.
      destruct (Z.eqb_spec (id / IMAP_NODE_SZ) 0) as [Hq|Hq].
      - cbn [fst snd]. apply heap_used_none.
        destruct (nd_data (child node1 (id mod IMAP_NODE_SZ)) =? NULL); discriminate.
      - specialize (IH (child node1 (id mod IMAP_NODE_SZ)) (id / IMAP_NODE_SZ - 1) data h1
                      (key_below_next _ _ Hid Hq)).
        destruct (IMAP_add fuel (child node1 (id mod IMAP_NODE_SZ))
                    (id / IMAP_NODE_SZ - 1) data h1) as [[rc nd'] h2].
        exact IH. }
    rewrite IMAP_add_S. destruct (nd_size node =? 0); [|apply Hbelow].
    destruct (alloc h) as [[|] h1] eqn:Ha.
    + eapply heap_used_alloc; [exact Ha|apply Hbelow].
    + cbn [fst snd]. apply heap_used_fail. exact Ha.
Qed.

(** For keys of 32 and more [imap_add] returns what its header comment
    says.  It returns -1 exactly when one of its [calloc] requests returned
    NULL, which then is the last request of the call; otherwise every
    request it made succeeded and it returns 1 for a key that was not
    bound and 0 for a key whose value it has overwritten.  So with an
    allocator that never fails it never returns -1. *)
Theorem imap_add_large_key_rc imap id data h :
  imap_okb imap = true -> is_uint64 id -> IMAP_NODE_SZ <= id -> data <> NULL ->
  imap_len imap + 1 < SIZE_MOD ->
  let '(rc, _, h') := imap_add imap id data h in
  ((rc = RC_ERR_ALLOC
    /\ exists pre, h = pre ++ false :: h' /\ Forall (fun b => b = true) pre)
   \/ (rc = (if imap_get imap id =? NULL then RC_INSERTED else RC_OVERWRITTEN)
       /\ exists pre, h = pre ++ h' /\ Forall (fun b => b = true) pre))
  /\ (Forall (fun b => b = true) h ->
      rc = if imap_get imap id =? NULL then RC_INSERTED else RC_OVERWRITTEN).
Proof.
  intros Hok Hid Hge Hdata Hmax.
  pose proof (imap_add_rc_cases imap id data h Hok Hid Hge Hdata Hmax) as Hrc.
  assert (Hq : id / IMAP_NODE_SZ <> 0).
  { intros Hq. apply Z.div_small_iff in Hq; unfold IMAP_NODE_SZ in *; lia. }
  pose proof (IMAP_add_heap IMAP_DEPTH (slot (imap_nodes imap) (id mod IMAP_NODE_SZ))
                (id / IMAP_NODE_SZ - 1) data h (key_below_uint64 _ Hid Hq)) as Hheap.
  revert Hrc Hheap. unfold imap_add. apply Z.eqb_neq in Hq. rewrite Hq.
  destruct (IMAP_add IMAP_DEPTH (slot (imap_nodes imap) (id mod IMAP_NODE_SZ))
              (id / IMAP_NODE_SZ - 1) data h) as [[rc nd'] h'].
  cbn [fst snd]. unfold heap_used. intros Hrc Hheap.
  assert (Hcases :
    (rc = RC_ERR_ALLOC
     /\ exists pre, h = pre ++ false :: h' /\ Forall (fun b => b = true) pre)
    \/ (rc = (if imap_get imap id =? NULL then RC_INSERTED else RC_OVERWRITTEN)
        /\ exists pre, h = pre ++ h' /\ Forall (fun b => b = true) pre)).
  { destruct (Z.eqb_spec rc RC_ERR_ALLOC) as [He|Hne].
    - left. split; assumption.
    - right. split; [|exact Hheap]. destruct Hrc as [Hrc|Hrc]; [contradiction|exact Hrc]. }
  split; [exact Hcases|].
  intros Hall. destruct Hcases as [[_ (pre & -> & _)]|[Hr _]]; [|exact Hr].
  exfalso. apply Forall_app in Hall as [_ Hall]. apply Forall_cons in Hall as [Hf _].
  discriminate.
Qed.

Lemma imap_add_large_key_rc_witness :
  let '(rc, _, h') := imap_add imap_empty 1056 7 [true; false; true] in
  ((rc = RC_ERR_ALLOC
    /\ exists pre, [true; false; true] = pre ++ false :: h'
                   /\ Forall (fun b => b = true) pre)
   \/ (rc = (if imap_get imap_empty 1056 =? NULL then RC_INSERTED else RC_OVERWRITTEN)
       /\ exists pre, [true; false; true] = pre ++ h' /\ Forall (fun b => b = true) pre))
  /\ (Forall (fun b => b = true) [true; false; true] ->
      rc = if imap_get imap_empty 1056 =? NULL then RC_INSERTED else RC_OVERWRITTEN).
Proof.
  apply (imap_add_large_key_rc imap_empty 1056 7 [true; false; true]).
  - reflexivity.
  - unfold is_uint64. lia.
  - unfold IMAP_NODE_SZ. lia.
  - unfold NULL. lia.
  - vm_compute. reflexivity.
Defined.

(** ** Union by reference: what becomes of the source *)













